(** * TPL parser (sm2_tpl_addon/tpl_parser.py): shallow embedding and properties

    The embedding follows the Python module function by function.

    - Python [int] is [Z]; Python [float] is IEEE-754 binary64, here the
      primitive type [float] with its correctly rounded operations.
    - [bytes] is [list byte]; a Python [str] is the list of its code points.
    - A raised exception is a [None] result paired with the state reached
      when it was raised; every [try] of the module catches [Exception].
    - [print] output is advisory and is not modelled. *)

From Stdlib Require Import ZArith List Bool Lia String Ascii.
From Stdlib Require Import QArith Qround Qabs Qminmax Lqa FinFun.
From Stdlib Require Import Floats.
From Stdlib Require Strings.Byte.
Import ListNotations.

Set Warnings "-inexact-float,-abstract-large-number,-register-all".
Set Implicit Arguments.
Local Open Scope Z_scope.

(* ================================================================== *)
(** * Python values *)

Abbreviation byte := Byte.byte.
Definition bytes := list byte.

(** A Python [str]: the sequence of its Unicode code points. *)
Definition str := list Z.

Definition byte_val (b : byte) : Z := Z.of_N (Byte.to_N b).

Definition byte_of_Z (z : Z) : byte :=
  match Byte.of_N (Z.to_N (z mod 256)) with
  | Some b => b
  | None => Byte.x00
  end.

(** Text literals of the source, as code points. *)
Definition lit (s : string) : str :=
  map (fun c => Z.of_N (N_of_ascii c)) (list_ascii_of_string s).

Definition blit (s : string) : bytes :=
  map (fun c => byte_of_Z (Z.of_N (N_of_ascii c))) (list_ascii_of_string s).

Definition len {A} (l : list A) : Z := Z.of_nat (List.length l).

(** [l[i:j]] for [0 <= i]. *)
Definition slice {A} (l : list A) (i j : Z) : list A :=
  firstn (Z.to_nat (j - i)) (skipn (Z.to_nat i) l).

(* ------------------------------------------------------------------ *)
(** ** State and exceptions

    [M S A] is a computation over a mutable state [S] that returns an [A]
    or raises.  The state is kept when an exception is raised: what was
    mutated before the raise stays mutated. *)

Definition M (S A : Type) : Type := S -> option A * S.

Definition ret {S A} (x : A) : M S A := fun s => (Some x, s).

Definition bind {S A B} (m : M S A) (k : A -> M S B) : M S B :=
  fun s => match m s with
           | (Some x, s') => k x s'
           | (None, s') => (None, s')
           end.

Definition raise {S A} : M S A := fun s => (None, s).

Definition get {S} : M S S := fun s => (Some s, s).
Definition modify {S} (f : S -> S) : M S unit := fun s => (Some tt, f s).

(** A pure step that may raise. *)
Definition lift {S A} (o : option A) : M S A := fun s => (o, s).

Declare Scope monad_scope.
Delimit Scope monad_scope with monad.
Notation "x <- m ;; k" := (bind m (fun x => k))
  (at level 61, m at next level, right associativity) : monad_scope.
Notation "' p <- m ;; k" := (bind m (fun p => k))
  (at level 61, p pattern, m at next level, right associativity) : monad_scope.
Notation "m ;;; k" := (bind m (fun _ => k))
  (at level 61, right associativity) : monad_scope.
Local Open Scope monad_scope.

(** [for _ in range(n): body], collecting what each round returns. *)
Fixpoint for_range {S A} (n : nat) (body : M S A) : M S (list A) :=
  match n with
  | O => ret []
  | Datatypes.S k => x <- body ;; xs <- for_range k body ;; ret (x :: xs)
  end.

(** [for i in range(n): body i]. *)
Fixpoint for_index {S A} (i : Z) (n : nat) (body : Z -> M S A) : M S (list A) :=
  match n with
  | O => ret []
  | Datatypes.S k => x <- body i ;; xs <- for_index (i + 1) k body ;; ret (x :: xs)
  end.

Definition range_len (n : Z) : nat := Z.to_nat n.

(* ------------------------------------------------------------------ *)
(** ** [struct] *)

Fixpoint le_uint (bs : bytes) : Z :=
  match bs with
  | [] => 0
  | b :: rest => byte_val b + 256 * le_uint rest
  end.

Definition to_signed (bits : Z) (u : Z) : Z :=
  if u <? 2 ^ (bits - 1) then u else u - 2 ^ bits.

(** [struct.unpack] raises [struct.error] unless the buffer has exactly
    the size of the format. *)
Definition unpack_uint (size : Z) (bs : bytes) : option Z :=
  if len bs =? size then Some (le_uint bs) else None.

Definition unpack_B := unpack_uint 1.
Definition unpack_H := unpack_uint 2.
Definition unpack_I := unpack_uint 4.

Definition unpack_i (bs : bytes) : option Z :=
  option_map (to_signed 32) (unpack_uint 4 bs).

Definition unpack_h (bs : bytes) : option Z :=
  option_map (to_signed 16) (unpack_uint 2 bs).

(** [struct.unpack_from(fmt, data, pos)] for [0 <= pos]: raises unless
    [size] bytes are available at [pos]. *)
Definition unpack_from_uint (size : Z) (data : bytes) (pos : Z) : option Z :=
  if (pos <? 0) || (len data <? pos + size) then None
  else Some (le_uint (slice data pos (pos + size))).

Definition unpack_from_H := unpack_from_uint 2.
Definition unpack_from_I := unpack_from_uint 4.
Definition unpack_from_h (data : bytes) (pos : Z) : option Z :=
  option_map (to_signed 16) (unpack_from_uint 2 data pos).

(* ================================================================== *)
(** * Python [float] and [int] conversions *)

Definition obind {A B} (o : option A) (k : A -> option B) : option B :=
  match o with
  | Some x => k x
  | None => None
  end.

Notation "x <-? o ;; k" := (obind o (fun x => k))
  (at level 61, o at next level, right associativity) : monad_scope.

(** The exact integer below a finite binary64 number. *)
Definition SF_floor (x : spec_float) : option Z :=
  match x with
  | S754_zero _ => Some 0
  | S754_finite s m e =>
      let v := if s then Z.neg m else Z.pos m in
      Some (if 0 <=? e then v * 2 ^ e else v / 2 ^ (- e))
  | _ => None
  end.

(** The integer part, rounding toward zero. *)
Definition SF_trunc (x : spec_float) : option Z :=
  match x with
  | S754_zero _ => Some 0
  | S754_finite s m e =>
      let v := if 0 <=? e then Z.pos m * 2 ^ e else Z.pos m / 2 ^ (- e) in
      Some (if s then - v else v)
  | _ => None
  end.

(** [math.floor(x)]: raises on infinities and NaN. *)
Definition math_floor (x : float) : option Z := SF_floor (Prim2SF x).

(** [int(x)] for a float [x]: raises on infinities and NaN. *)
Definition int_of_float (x : float) : option Z := SF_trunc (Prim2SF x).

(** The conversion of an [int] operand in mixed arithmetic: the nearest
    binary64 number, [OverflowError] when that is not finite. *)
Definition float_of_int (z : Z) : option float :=
  let f := SF2Prim (binary_normalize prec emax z 0 false) in
  if PrimFloat.is_infinity f then None else Some f.

(** [math.sqrt(x)]: [ValueError] below zero. *)
Definition math_sqrt (x : float) : option float :=
  if (x <? 0)%float then None else Some (PrimFloat.sqrt x).

(** The binary64 value of a binary32 bit pattern, as [struct.unpack('<f')]
    returns it. *)
Definition float_of_bits32 (u : Z) : float :=
  let s := Z.testbit u 31 in
  let e := Z.land (Z.shiftr u 23) 255 in
  let m := Z.land u 8388607 in
  let signed (v : Z) := if s then - v else v in
  if e =? 255 then
    if m =? 0 then (if s then neg_infinity else infinity) else nan
  else if e =? 0 then
    if m =? 0 then (if s then neg_zero else zero)
    else SF2Prim (binary_normalize prec emax (signed m) (-149) false)
  else SF2Prim (binary_normalize prec emax (signed (8388608 + m)) (e - 150) false).

(** The nearest integer to [n / d] for [0 < d], ties to even. *)
Definition div_half_even (n d : Z) : Z :=
  let q := n / d in
  let r := n mod d in
  match 2 * r ?= d with
  | Lt => q
  | Gt => q + 1
  | Eq => if Z.even q then q else q + 1
  end.

(** [round(x, ndigits)] for a float [x] and [0 <= ndigits]: the decimal
    with [ndigits] places nearest to the exact value of [x] (ties to even),
    converted back to the nearest binary64 number. *)
Definition py_round (x : float) (ndigits : Z) : float :=
  match Prim2SF x with
  | S754_finite s m e =>
      let p := 10 ^ ndigits in
      let k := if 0 <=? e then Z.pos m * 2 ^ e * p
               else div_half_even (Z.pos m * p) (2 ^ (- e)) in
      match k with
      | Z.pos k' =>
          SF2Prim (SFdiv prec emax (S754_finite s k' 0)
                         (S754_finite false (Z.to_pos p) 0))
      | _ => if s then neg_zero else zero
      end
  | _ => x
  end.

(* ================================================================== *)
(** * Numeric conversion functions *)

(** [frac]: HLSL frac, [x - math.floor(x)]. *)
Definition frac (x : float) : option float :=
  n <-? math_floor x ;;
  fn <-? float_of_int n ;;
  Some (x - fn)%float.

(** [saturate]: [max(0.0, min(1.0, x))] with the builtins' comparisons:
    [min] keeps [1.0] unless [x < 1.0], [max] keeps [0.0] unless the
    minimum is above it. *)
Definition saturate (x : float) : float :=
  let m := if (x <? 1)%float then x else 1%float in
  if (0 <? m)%float then m else 0%float.

Definition sign_f (x : Z) : float :=
  if x >? 0 then 1%float
  else if x <? 0 then (-1)%float
  else 0%float.

(* ------------------------------------------------------------------ *)
(** ** Normal decompression *)

Definition decompress_normal_from_int16 (w : Z)
  : option (float * float * float) :=
  let w := if w =? -32768 then 0 else w in
  let abs_w := Z.abs w in
  fa <-? float_of_int abs_w ;;
  frac_x <-? frac ((1 / 181) * fa)%float ;;
  frac_z <-? frac ((1 / 181 / 181) * fa)%float ;;
  let x := ((-1 + 2 * frac_x) * (181 / 179))%float in
  let z := ((-1 + 2 * frac_z) * (181 / 180))%float in
  let y_squared := saturate (1 - x * x - z * z)%float in
  r <-? math_sqrt y_squared ;;
  let y := (sign_f w * r)%float in
  Some (x, y, z).

Definition divisors : float * float * float :=
  (0.00390625, 0.0000152587890625, 0.000000059604644775390625)%float.

Definition decompress_normal_from_float (w : float)
  : option (float * float * float) :=
  let '(d0, d1, d2) := divisors in
  fx <-? frac (d0 * w)%float ;;
  fy <-? frac (d1 * w)%float ;;
  fz <-? frac (d2 * w)%float ;;
  let x := (-1 + 2 * fx)%float in
  let y := (-1 + 2 * fy)%float in
  let z := (-1 + 2 * fz)%float in
  Some (x, y, z).

(* ================================================================== *)
(** * Text *)

Definition is_cont (b : Z) : bool := (128 <=? b) && (b <=? 191).

(** The range allowed for the second byte after lead byte [b0] of a
    three- or four-byte sequence. *)
Definition second_ok (b0 b1 : Z) : bool :=
  if b0 =? 224 then (160 <=? b1) && (b1 <=? 191)
  else if b0 =? 237 then (128 <=? b1) && (b1 <=? 159)
  else if b0 =? 240 then (144 <=? b1) && (b1 <=? 191)
  else if b0 =? 244 then (128 <=? b1) && (b1 <=? 143)
  else is_cont b1.

(** [bytes.decode('utf-8', errors)].  With [replace = false] this is the
    strict decoder, [None] standing for [UnicodeDecodeError]; with
    [replace = true] every ill-formed subsequence becomes U+FFFD. *)
Fixpoint utf8_decode (replace : bool) (bs : list Z) : option str :=
  let bad (rest : option str) : option str :=
    if replace then option_map (cons 65533) rest else None in
  match bs with
  | [] => Some []
  | b0 :: r0 =>
    if b0 <? 128 then option_map (cons b0) (utf8_decode replace r0)
    else if b0 <? 194 then bad (utf8_decode replace r0)
    else if b0 <? 224 then
      match r0 with
      | [] => bad (Some [])
      | b1 :: r1 =>
        if is_cont b1
        then option_map (cons (Z.land b0 31 * 64 + Z.land b1 63))
                        (utf8_decode replace r1)
        else bad (utf8_decode replace r0)
      end
    else if b0 <? 240 then
      match r0 with
      | [] => bad (Some [])
      | b1 :: r1 =>
        if second_ok b0 b1 then
          match r1 with
          | [] => bad (Some [])
          | b2 :: r2 =>
            if is_cont b2
            then option_map
                   (cons (Z.land b0 15 * 4096 + Z.land b1 63 * 64 + Z.land b2 63))
                   (utf8_decode replace r2)
            else bad (utf8_decode replace r1)
          end
        else bad (utf8_decode replace r0)
      end
    else if b0 <? 245 then
      match r0 with
      | [] => bad (Some [])
      | b1 :: r1 =>
        if second_ok b0 b1 then
          match r1 with
          | [] => bad (Some [])
          | b2 :: r2 =>
            if is_cont b2 then
              match r2 with
              | [] => bad (Some [])
              | b3 :: r3 =>
                if is_cont b3
                then option_map
                       (cons (Z.land b0 7 * 262144 + Z.land b1 63 * 4096
                              + Z.land b2 63 * 64 + Z.land b3 63))
                       (utf8_decode replace r3)
                else bad (utf8_decode replace r2)
              end
            else bad (utf8_decode replace r1)
          end
        else bad (utf8_decode replace r0)
      end
    else bad (utf8_decode replace r0)
  end.

(** [data.decode('utf-8')], raising on ill-formed input. *)
Definition decode_strict (data : bytes) : option str :=
  utf8_decode false (map byte_val data).

(** [data.decode('utf-8', errors='replace')]: never raises. *)
Definition decode_replace (data : bytes) : str :=
  match utf8_decode true (map byte_val data) with
  | Some s => s
  | None => []
  end.

Definition str_eqb (s t : str) : bool :=
  (len s =? len t) && forallb (fun p => fst p =? snd p) (combine s t).

(** [str.isspace] on one code point. *)
Definition isspace (c : Z) : bool :=
  ((9 <=? c) && (c <=? 13)) || ((28 <=? c) && (c <=? 32))
  || (c =? 133) || (c =? 160) || (c =? 5760)
  || ((8192 <=? c) && (c <=? 8202))
  || (c =? 8232) || (c =? 8233) || (c =? 8239) || (c =? 8287)
  || (c =? 12288).

Fixpoint lstrip_by (p : Z -> bool) (s : str) : str :=
  match s with
  | c :: rest => if p c then lstrip_by p rest else s
  | [] => []
  end.

Definition rstrip_by (p : Z -> bool) (s : str) : str :=
  rev (lstrip_by p (rev s)).

(** [s.strip()]. *)
Definition strip (s : str) : str := rstrip_by isspace (lstrip_by isspace s).

(** [s.rstrip('\0')]. *)
Definition rstrip_nul (s : str) : str := rstrip_by (Z.eqb 0) s.

(** [s.split(sep)] for a one-character separator, generalised to a set
    of separators. *)
Fixpoint split_by (p : Z -> bool) (s : str) : list str :=
  match s with
  | [] => [[]]
  | c :: rest =>
    match split_by p rest with
    | cur :: more => if p c then [] :: cur :: more else (c :: cur) :: more
    | [] => [[]]
    end
  end.

(** [s.partition(sep)] for a one-character separator that occurs in
    [s]: what is before and after its first occurrence. *)
Fixpoint partition_at (sep : Z) (s : str) : str * str :=
  match s with
  | [] => ([], [])
  | c :: rest =>
    if c =? sep then ([], rest)
    else let '(k, v) := partition_at sep rest in (c :: k, v)
  end.

(* ------------------------------------------------------------------ *)
(** ** PropertySection: [key=value] blocks *)

Module PropertySection.

(** [fields], most recent assignment first. *)
Definition t := list (str * str).

Definition unquote (value : str) : str :=
  match value, rev value with
  | 34 :: _, 34 :: _ => removelast (tl value)
  | _, _ => value
  end.

Definition _parse_line (fields : t) (line : str) : t :=
  let line := strip line in
  if existsb (Z.eqb 61) line then
    let '(key, value) := partition_at 61 line in
    (strip key, unquote (strip value)) :: fields
  else fields.

Definition _parse (data : str) : t :=
  let data := strip data in
  match data with
  | [] => []
  | _ =>
    let lines := split_by (fun c => (c =? 59) || (c =? 10)) data in
    fold_left _parse_line lines []
  end.

Definition __init__ (data : str) : t :=
  match data with
  | [] => []
  | _ => _parse data
  end.

Fixpoint get (fields : t) (key : str) (default : str) : str :=
  match fields with
  | [] => default
  | (k, v) :: rest => if str_eqb k key then v else get rest key default
  end.

End PropertySection.

(* ================================================================== *)
(** * Data structures *)

Definition Vector4 : Type := float * float * float * float.

(** 4x4 matrix, row-major: [rows]. *)
Record Matrix4 := { rows : list Vector4 }.

Definition Matrix4_identity : Matrix4 :=
  {| rows := [ (1, 0, 0, 0); (0, 1, 0, 0); (0, 0, 1, 0); (0, 0, 0, 1) ]%float |}.

Record Face := { a : Z; b : Z; c : Z }.

Record UVSet := { uvs : list (float * float); uv_name : str }.

Record VertexSkin := { bone_indices : list Z; weights : list float }.

Record Bone := { node_uid : Z; bind_matrix : Matrix4 }.

Record Material := { mat_name : str; texture_name : str; shader_name : str }.

Record MeshData := {
  vertices : list (float * float * float);
  normals : list (float * float * float);
  faces : list Face;
  uv_sets : list UVSet;
  colors : list (list (float * float * float * float));
  tangents : list (float * float * float * float);
  skins : list VertexSkin;
  bones : list Bone;
  materials : list Material
}.

Definition MeshData_empty : MeshData :=
  {| vertices := []; normals := []; faces := []; uv_sets := []; colors := [];
     tangents := []; skins := []; bones := []; materials := [] |}.

(** A node of the hierarchy.  [parent] is a back-reference to the node
    that holds this one in [children]; the tree itself carries it. *)
Inductive TPLNode : Type :=
  Build_TPLNode (uid : Z) (name : str) (local_matrix world_matrix : Matrix4)
                (mesh : option MeshData) (children : list TPLNode)
                (maya_node_id : str).

Definition uid (n : TPLNode) : Z := let '(Build_TPLNode u _ _ _ _ _ _) := n in u.
Definition name (n : TPLNode) : str := let '(Build_TPLNode _ s _ _ _ _ _) := n in s.
Definition mesh (n : TPLNode) : option MeshData :=
  let '(Build_TPLNode _ _ _ _ m _ _) := n in m.
Definition children (n : TPLNode) : list TPLNode :=
  let '(Build_TPLNode _ _ _ _ _ cs _) := n in cs.

(** [TPLNode(uid=u, name=s)] with the dataclass defaults. *)
Definition TPLNode_new (u : Z) (s : str) : TPLNode :=
  Build_TPLNode u s Matrix4_identity Matrix4_identity None [] [].

(* ================================================================== *)
(** * Readers *)

(** [io.BytesIO]: the buffer and the cursor. *)
Record BytesIO := { buf : bytes; pos : Z }.

Definition BytesIO_new (data : bytes) : BytesIO := {| buf := data; pos := 0 |}.

(** [reader.read(size)]: up to [size] bytes from the cursor, everything
    left when [size] is negative; the cursor moves past what was
    returned and never past the end. *)
Definition read (size : Z) : M BytesIO bytes :=
  fun r =>
    let avail := len (buf r) - pos r in
    let n := if size <? 0 then avail else Z.min size avail in
    (Some (slice (buf r) (pos r) (pos r + n)),
     {| buf := buf r; pos := pos r + n |}).

Definition read_B : M BytesIO Z := d <- read 1 ;; lift (unpack_B d).
Definition read_i : M BytesIO Z := d <- read 4 ;; lift (unpack_i d).
Definition read_I : M BytesIO Z := d <- read 4 ;; lift (unpack_I d).

Fixpoint chunks4 (n : nat) (bs : bytes) : list bytes :=
  match n with
  | O => []
  | Datatypes.S k => firstn 4 bs :: chunks4 k (skipn 4 bs)
  end.

(** [struct.unpack('<{n}I', data)]: raises for a negative count (the
    format is ill-formed) and for a buffer of another size. *)
Definition unpack_words (n : Z) (data : bytes) : option (list Z) :=
  if (n <? 0) || negb (len data =? 4 * n) then None
  else Some (map le_uint (chunks4 (Z.to_nat n) data)).

(** [struct.unpack('<{n}f', reader.read(4 * n))]. *)
Definition read_floats (n : Z) : M BytesIO (list float) :=
  d <- read (4 * n) ;;
  ws <- lift (unpack_words n d) ;;
  ret (map float_of_bits32 ws).

(** [struct.unpack('<{n}i', reader.read(4 * n))]. *)
Definition read_ints (n : Z) : M BytesIO (list Z) :=
  d <- read (4 * n) ;;
  ws <- lift (unpack_words n d) ;;
  ret (map (to_signed 32) ws).

Definition read_fff : M BytesIO (float * float * float) :=
  fs <- read_floats 3 ;;
  match fs with
  | [x; y; z] => ret (x, y, z)
  | _ => raise
  end.

Definition read_ff : M BytesIO (float * float) :=
  fs <- read_floats 2 ;;
  match fs with
  | [u; v] => ret (u, v)
  | _ => raise
  end.

Definition read_ffff : M BytesIO Vector4 :=
  fs <- read_floats 4 ;;
  match fs with
  | [x; y; z; w] => ret (x, y, z, w)
  | _ => raise
  end.

(** [Matrix4().read(reader)]: the four rows in turn. *)
Definition Matrix4_read : M BytesIO Matrix4 :=
  rs <- for_range 4 read_ffff ;;
  ret {| rows := rs |}.

(* ------------------------------------------------------------------ *)
(** ** String utilities *)

(** [read_string]: Int32 length, then that many bytes of UTF-8. *)
Definition read_string : M BytesIO str :=
  length <- read_i ;;
  if (length <=? 0) || (length >? 10000) then ret []
  else
    data <- read length ;;
    ret (decode_replace data).

(** The decimal digits of [n], for [0 <= n]: [f"{n}"]. *)
Fixpoint decimal_fuel (fuel : nat) (n : Z) (acc : str) : str :=
  match fuel with
  | O => acc
  | Datatypes.S k =>
    let acc' := (48 + n mod 10) :: acc in
    if n <? 10 then acc' else decimal_fuel k (n / 10) acc'
  end.

Definition decimal (n : Z) : str :=
  decimal_fuel (Datatypes.S (Z.to_nat (Z.log2 n))) n [].

(* ================================================================== *)
(** * Utility functions *)

(** [get_all_mesh_nodes]: the nodes that carry a mesh, in preorder. *)
Fixpoint get_all_mesh_nodes (node : TPLNode) : list TPLNode :=
  match node with
  | Build_TPLNode _ _ _ _ m cs _ =>
    (match m with Some _ => [node] | None => [] end)
    ++ flat_map get_all_mesh_nodes cs
  end.

(* ================================================================== *)
(** * Files

    Paths are [pathlib] paths of the POSIX flavour.  A [Path] object is
    represented by its string form [str(Path(p))], the normal form of
    [p]: pathlib keeps the root ([/], or [//] for exactly two leading
    separators) and the components between the separators, without the
    empty ones and the [.] ones; [..] is kept. *)

(** The text between the separators of [p]. *)
Fixpoint split_sep (p : string) : list string :=
  match p with
  | EmptyString => [EmptyString]
  | String ch rest =>
    if Ascii.eqb ch "/"%char then EmptyString :: split_sep rest
    else match split_sep rest with
         | c :: cs => String ch c :: cs
         | [] => [String ch EmptyString]
         end
  end.

(** The components pathlib keeps. *)
Definition path_parts (p : string) : list string :=
  filter (fun c => negb (String.eqb c EmptyString) && negb (String.eqb c "."))
         (split_sep p).

(** The root pathlib keeps: one separator, or two when [p] starts with
    exactly two. *)
Definition path_root (p : string) : string :=
  match p with
  | String c0 rest =>
    if Ascii.eqb c0 "/"%char then
      match rest with
      | String c1 rest' =>
        if Ascii.eqb c1 "/"%char then
          match rest' with
          | String c2 _ => if Ascii.eqb c2 "/"%char then "/" else "//"
          | EmptyString => "//"
          end
        else "/"
      | EmptyString => "/"
      end
    else EmptyString
  | EmptyString => EmptyString
  end%string.

(** [str(Path(p))]. *)
Definition Path (p : string) : string :=
  match path_root p, path_parts p with
  | EmptyString, [] => "."
  | root, parts => root ++ String.concat "/" parts
  end%string.

(** [Path(p).name]: the last component, empty when there is none. *)
Definition path_name (p : string) : string :=
  last (path_parts p) EmptyString.

Fixpoint ends_with_sep (a : string) : bool :=
  match a with
  | EmptyString => false
  | String ch EmptyString => Ascii.eqb ch "/"%char
  | String _ rest => ends_with_sep rest
  end.

(** [posixpath.join(a, b)]. *)
Definition posix_join (a b : string) : string :=
  if String.prefix "/" b then b
  else if String.eqb a EmptyString || ends_with_sep a then (a ++ b)%string
  else (a ++ "/" ++ b)%string.

(** [Path(p) / child]. *)
Definition path_join (p child : string) : string :=
  Path (posix_join p child).

(** The file system as the operating system resolves path strings
    during one call: what a path string leads to, if anything.  Redundant
    separators, [.] components and a trailing separator do not change
    where a path leads, so whatever a string reaches its normal form
    reaches too ([entry_Path]).  The converse does not hold: a regular
    file is not reached through its name followed by a separator. *)

Inductive fs_entry : Type :=
| File (content : bytes)
| Directory.

Record filesystem := {
  entry : string -> option fs_entry;
  entry_Path : forall p e, entry p = Some e -> entry (Path p) = Some e
}.

(** [Path(p).exists()]. *)
Definition path_exists (fs : filesystem) (p : string) : bool :=
  match entry fs p with Some _ => true | None => false end.

(** [Path(p).is_dir()]. *)
Definition is_dir (fs : filesystem) (p : string) : bool :=
  match entry fs p with Some Directory => true | _ => false end.

(** [open(p, 'rb').read()]: raises unless [p] is a regular file. *)
Definition read_file (fs : filesystem) (p : string) : option bytes :=
  match entry fs p with Some (File d) => Some d | _ => None end.

(* ================================================================== *)
(** * USF format parser *)

Module USFParser.

Record t := {
  version : Z;
  source_path : str;
  file_type : str;
  root : option TPLNode
}.

(** [USFParser()]. *)
Definition __init__ : t :=
  {| version := 0; source_path := []; file_type := []; root := None |}.

(** One packed RGBA colour, each channel divided by [255.0]. *)
Definition read_color : M BytesIO (float * float * float * float) :=
  packed <- read_I ;;
  let channel (sh : Z) : M BytesIO float :=
    v <- lift (float_of_int (Z.land (Z.shiftr packed sh) 255)) ;;
    ret (v / 255)%float in
  r <- channel 0 ;;
  g <- channel 8 ;;
  b <- channel 16 ;;
  a <- channel 24 ;;
  ret (r, g, b, a).

Definition read_counted {A} (item : M BytesIO A) : M BytesIO (list A) :=
  count <- read_i ;;
  for_range (range_len count) item.

Definition read_material : M BytesIO Material :=
  name <- read_string ;;
  mat_version <- read_i ;;
  if mat_version >=? 266 then
    vertex_color_usage <- read_I ;;
    mat_data_str <- read_string ;;
    let props := PropertySection.__init__ mat_data_str in
    ret {| mat_name := name;
           texture_name := PropertySection.get props (lit "textureName") [];
           shader_name := PropertySection.get props (lit "shadingMtl_Mtl") [] |}
  else
    ret {| mat_name := name; texture_name := []; shader_name := [] |}.

Definition read_skin (bones_per_vertex : Z) : M BytesIO VertexSkin :=
  bi <- read_ints bones_per_vertex ;;
  ws <- read_floats bones_per_vertex ;;
  ret {| bone_indices := bi; weights := ws |}.

Definition read_bone : M BytesIO Bone :=
  u <- read_i ;;
  m <- Matrix4_read ;;
  ret {| node_uid := u; bind_matrix := m |}.

(** [_parse_mesh]. *)
Definition _parse_mesh : M BytesIO MeshData :=
  version <- read_i ;;
  (* Vertices *)
  vertices <- read_counted read_fff ;;
  (* Normals *)
  normals <- read_counted read_fff ;;
  (* Colors *)
  colors <-
    (if version <? 258 then
       color_count <- read_i ;;
       if color_count >? 0 then
         cs <- for_range (range_len color_count) read_color ;;
         ret [cs]
       else ret []
     else
       read_counted (read_counted read_color)) ;;
  (* UV sets *)
  uv_set_count <- read_i ;;
  uv_sets <-
    for_index 0 (range_len uv_set_count) (fun i =>
      uv <- read_counted read_ff ;;
      nm <- (if version >=? 263 then read_string
             else ret (lit "uv" ++ decimal i)) ;;
      ret {| uvs := uv; uv_name := nm |}) ;;
  (* Tangents *)
  tangents <-
    (if version >=? 259 then
       sets <- read_counted (read_counted read_ffff) ;;
       ret (List.concat sets)
     else ret []) ;;
  (* Faces: the material index is stored in [a] *)
  faces <-
    read_counted (data <- read_I ;;
                  ret {| a := Z.land data 536870911; b := 0; c := 0 |}) ;;
  (* Materials *)
  materials <- read_counted read_material ;;
  (* Skinning *)
  bones_per_vertex <- read_i ;;
  skin_count <- read_i ;;
  skins <- for_range (range_len skin_count) (read_skin bones_per_vertex) ;;
  (if version >=? 260 then read_B else ret 0) ;;;
  (* Bones *)
  bones <- read_counted read_bone ;;
  (* Bone pairs *)
  (if version >=? 261 then
     pair_count <- read_i ;;
     read (pair_count * 8)
   else ret []) ;;;
  (* Blend shapes *)
  (if version >=? 262 then read_counted read_string else ret []) ;;;
  ret {| vertices := vertices; normals := normals; faces := faces;
         uv_sets := uv_sets; colors := colors; tangents := tangents;
         skins := skins; bones := bones; materials := materials |}.

(** The skip methods are all [pass]: they consume nothing. *)
Definition _skip : M BytesIO unit := ret tt.

(** A flagged section that is skipped. *)
Definition flagged_skip : M BytesIO unit :=
  flag <- read_B ;;
  if flag =? 0 then ret tt else _skip.

(** A flagged section present from node version [v] on. *)
Definition gated_skip (version v : Z) : M BytesIO unit :=
  if version >=? v then flagged_skip else ret tt.

(** [_parse_node].  [depth] is the number of nested calls the
    interpreter still allows: at [0] the call raises [RecursionError]. *)
Fixpoint _parse_node (depth : nat) : M BytesIO TPLNode :=
  match depth with
  | O => raise
  | Datatypes.S depth' =>
    version <- read_i ;;
    uid <- read_i ;;
    name <- read_string ;;
    model_name <- read_string ;;
    affixes <- read_string ;;
    (* PSES (property section) *)
    pses_version <- read_i ;;
    pses_data <- read_string ;;
    (* Matrices *)
    local_matrix <- Matrix4_read ;;
    world_matrix <- Matrix4_read ;;
    local_original <- Matrix4_read ;;
    source_id <- read_string ;;
    (* LWI info *)
    flagged_skip ;;;
    (* Mesh *)
    mesh_flag <- read_B ;;
    mesh <- (if mesh_flag =? 0 then ret None
             else m <- _parse_mesh ;; ret (Some m)) ;;
    (* Animation, actor *)
    flagged_skip ;;;
    flagged_skip ;;;
    (* Sections gated on the node version *)
    gated_skip version 258 ;;;
    gated_skip version 259 ;;;
    gated_skip version 260 ;;;
    gated_skip version 262 ;;;
    gated_skip version 263 ;;;
    gated_skip version 266 ;;;
    gated_skip version 268 ;;;
    gated_skip version 269 ;;;
    gated_skip version 270 ;;;
    maya_node_id <- (if version >=? 267 then read_string else ret []) ;;
    (* Children *)
    child_count <- read_i ;;
    children <- for_range (range_len child_count) (_parse_node depth') ;;
    ret (Build_TPLNode uid name local_matrix world_matrix mesh children
                       maya_node_id)
  end.

Definition on_reader {A} (m : M BytesIO A) : M (t * BytesIO) A :=
  fun s => let '(r, rd) := m (snd s) in (r, (fst s, rd)).

Definition update (f : t -> t) : M (t * BytesIO) unit :=
  modify (fun s => (f (fst s), snd s)).

(** The body of [_parse], up to the [return True]. *)
Definition _parse_body (depth : nat) : M (t * BytesIO) unit :=
  v <- on_reader read_i ;;
  update (fun self => {| version := v; source_path := source_path self;
                         file_type := file_type self; root := root self |}) ;;;
  sp <- on_reader read_string ;;
  update (fun self => {| version := version self; source_path := sp;
                         file_type := file_type self; root := root self |}) ;;;
  ft <- on_reader read_string ;;
  update (fun self => {| version := version self;
                         source_path := source_path self;
                         file_type := ft; root := root self |}) ;;;
  (* Skip options *)
  options_str <- on_reader read_string ;;
  (* Parse scene *)
  scene_version <- on_reader read_I ;;
  has_root <- on_reader read_B ;;
  if has_root =? 0 then ret tt
  else
    node <- on_reader (_parse_node depth) ;;
    update (fun self => {| version := version self;
                           source_path := source_path self;
                           file_type := file_type self;
                           root := Some node |}).

(** [_parse]: [True] when the body completes, [False] when it raised;
    with the parser object as the call leaves it. *)
Definition _parse (depth : nat) (self : t) (reader : BytesIO) : bool * t :=
  match _parse_body depth (self, reader) with
  | (Some _, (self', _)) => (true, self')
  | (None, (self', _)) => (false, self')
  end.

(** [load]: any exception, from opening the file on, gives [False]. *)
Definition load (fs : filesystem) (depth : nat) (filepath : string)
           (self : t) : bool * t :=
  match read_file fs filepath with
  | Some data => _parse depth self (BytesIO_new data)
  | None => (false, self)
  end.

End USFParser.

(* ================================================================== *)
(** * 1SER format parser *)

Fixpoint starts_with (needle hay : bytes) : bool :=
  match needle, hay with
  | [], _ => true
  | n :: ns, h :: hs => Byte.eqb n h && starts_with ns hs
  | _ :: _, [] => false
  end.

Fixpoint find_from (needle hay : bytes) (i : Z) : Z :=
  match hay with
  | [] => match needle with [] => i | _ => -1 end
  | _ :: rest =>
    if starts_with needle hay then i else find_from needle rest (i + 1)
  end.

(** [data.find(needle)]: the first index where [needle] occurs, or -1. *)
Definition find (data needle : bytes) : Z := find_from needle data 0.

Module SERParser.

Record t := {
  tpl_data : bytes;
  tpl_geom_data : bytes;
  version : Z;
  root : option TPLNode;
  objects : list TPLNode;
  buffer_count : Z;
  mesh_count : Z;
  object_count : Z;
  submesh_count : Z
}.

Definition POSITION_SCALE : float := 0.01%float.

(** [SERParser()]. *)
Definition __init__ : t :=
  {| tpl_data := []; tpl_geom_data := []; version := 0; root := None;
     objects := []; buffer_count := 0; mesh_count := 0; object_count := 0;
     submesh_count := 0 |}.

Definition set_tpl_data (d : bytes) (self : t) : t :=
  {| tpl_data := d; tpl_geom_data := tpl_geom_data self;
     version := version self; root := root self; objects := objects self;
     buffer_count := buffer_count self; mesh_count := mesh_count self;
     object_count := object_count self;
     submesh_count := submesh_count self |}.

Definition set_tpl_geom_data (d : bytes) (self : t) : t :=
  {| tpl_data := tpl_data self; tpl_geom_data := d;
     version := version self; root := root self; objects := objects self;
     buffer_count := buffer_count self; mesh_count := mesh_count self;
     object_count := object_count self;
     submesh_count := submesh_count self |}.

Definition set_version (v : Z) (self : t) : t :=
  {| tpl_data := tpl_data self; tpl_geom_data := tpl_geom_data self;
     version := v; root := root self; objects := objects self;
     buffer_count := buffer_count self; mesh_count := mesh_count self;
     object_count := object_count self;
     submesh_count := submesh_count self |}.

Definition set_root (r : option TPLNode) (self : t) : t :=
  {| tpl_data := tpl_data self; tpl_geom_data := tpl_geom_data self;
     version := version self; root := r; objects := objects self;
     buffer_count := buffer_count self; mesh_count := mesh_count self;
     object_count := object_count self;
     submesh_count := submesh_count self |}.

Definition set_objects (os : list TPLNode) (self : t) : t :=
  {| tpl_data := tpl_data self; tpl_geom_data := tpl_geom_data self;
     version := version self; root := root self; objects := os;
     buffer_count := buffer_count self; mesh_count := mesh_count self;
     object_count := object_count self;
     submesh_count := submesh_count self |}.

Definition set_buffer_count (n : Z) (self : t) : t :=
  {| tpl_data := tpl_data self; tpl_geom_data := tpl_geom_data self;
     version := version self; root := root self; objects := objects self;
     buffer_count := n; mesh_count := mesh_count self;
     object_count := object_count self;
     submesh_count := submesh_count self |}.

Definition set_mesh_count (n : Z) (self : t) : t :=
  {| tpl_data := tpl_data self; tpl_geom_data := tpl_geom_data self;
     version := version self; root := root self; objects := objects self;
     buffer_count := buffer_count self; mesh_count := n;
     object_count := object_count self;
     submesh_count := submesh_count self |}.

Definition set_object_count (n : Z) (self : t) : t :=
  {| tpl_data := tpl_data self; tpl_geom_data := tpl_geom_data self;
     version := version self; root := root self; objects := objects self;
     buffer_count := buffer_count self; mesh_count := mesh_count self;
     object_count := n; submesh_count := submesh_count self |}.

Definition set_submesh_count (n : Z) (self : t) : t :=
  {| tpl_data := tpl_data self; tpl_geom_data := tpl_geom_data self;
     version := version self; root := root self; objects := objects self;
     buffer_count := buffer_count self; mesh_count := mesh_count self;
     object_count := object_count self; submesh_count := n |}.

(** [_parse_tpl1]. *)
Definition _parse_tpl1 : M t bool :=
  self <- get ;;
  let pos := find (tpl_data self) (blit "TPL1") in
  if pos <? 0 then ret false
  else
    let pos := pos + 4 in
    v <- lift (unpack_from_I (tpl_data self) pos) ;;
    modify (set_version v) ;;;
    let pos := pos + 4 in
    data_size <- lift (unpack_from_I (tpl_data self) pos) ;;
    ret true.

(** [_read_string]: a length-prefixed string at [pos], with the
    position after it; the empty string when there is none. *)
Definition _read_string (self : t) (pos : Z) : str * Z :=
  if pos + 4 >? len (tpl_data self) then ([], pos)
  else
    let length := le_uint (slice (tpl_data self) pos (pos + 4)) in
    if (length >? 256) || (length =? 0) then ([], pos)
    else
      let pos := pos + 4 in
      if pos + length >? len (tpl_data self) then ([], pos)
      else
        match decode_strict (slice (tpl_data self) pos (pos + length)) with
        | Some s => (rstrip_nul s, pos + length)
        | None => ([], pos)
        end.

Section Names.

(** [str.isalpha] on one character: the alphabetic test of the
    Unicode character database. *)
Variable isalpha : Z -> bool.

(** The test on a candidate name in [_parse_object_names]. *)
Definition name_ok (name : str) : bool :=
  match name with
  | [] => false
  | _ => (len name >? 1) && (len name <? 100) && existsb isalpha name
  end.

(** The [while pos < ogm1_end - 10] loop of [_parse_object_names];
    every round moves [pos] forward, so [fuel] rounds are enough
    when [fuel] is at least the distance to [ogm1_end - 10]. *)
Fixpoint _parse_object_names_loop (fuel : nat) (ogm1_end pos : Z)
  : M t unit :=
  match fuel with
  | O => ret tt
  | Datatypes.S fuel' =>
    if pos <? ogm1_end - 10 then
      self <- get ;;
      let '(name, new_pos) := _read_string self pos in
      if name_ok name then
        let node := TPLNode_new (len (objects self)) name in
        modify (set_objects (objects self ++ [node])) ;;;
        _parse_object_names_loop fuel' ogm1_end new_pos
      else
        _parse_object_names_loop fuel' ogm1_end (pos + 1)
    else ret tt
  end.

(** [_parse_object_names]. *)
Definition _parse_object_names (start_pos : Z) : M t unit :=
  self <- get ;;
  let ogm1_end := find (tpl_data self) (blit "ANIM") in
  let ogm1_end := if ogm1_end <? 0 then len (tpl_data self)
                  else ogm1_end in
  let pos := start_pos + 100 in
  _parse_object_names_loop (Z.to_nat (ogm1_end - 10 - pos)) ogm1_end pos.

(** [_parse_ogm1]. *)
Definition _parse_ogm1 : M t bool :=
  self <- get ;;
  let pos := find (tpl_data self) (blit "OGM1") in
  if pos <? 0 then ret false
  else
    let pos := pos + 4 in
    n <- lift (unpack_from_H (tpl_data self) pos) ;;
    modify (set_buffer_count n) ;;;
    let pos := pos + 2 in
    let pos := pos + 2 in
    n <- lift (unpack_from_H (tpl_data self) pos) ;;
    modify (set_mesh_count n) ;;;
    let pos := pos + 2 in
    n <- lift (unpack_from_H (tpl_data self) pos) ;;
    modify (set_object_count n) ;;;
    let pos := pos + 2 in
    n <- lift (unpack_from_H (tpl_data self) pos) ;;
    modify (set_submesh_count n) ;;;
    let pos := pos + 2 in
    _parse_object_names pos ;;;
    ret true.

End Names.

(* ---------------------------------------------------------------- *)
(** ** Geometry *)

(** One 6-byte record at [offset]: three unsigned 16-bit indices. *)
Definition unpack_from_HHH (data : bytes) (offset : Z) : option (Z * Z * Z) :=
  a <-? unpack_from_H data offset ;;
  b <-? unpack_from_H data (offset + 2) ;;
  c <-? unpack_from_H data (offset + 4) ;;
  Some (a, b, c).

(** The test on one record in [_find_face_data_offset]. *)
Definition looks_valid (abc : Z * Z * Z) : bool :=
  let '(a, b, c) := abc in
  let max_expected := 100000 in
  (a <? max_expected) && (b <? max_expected) && (c <? max_expected)
  && negb (a =? b) && negb (b =? c) && negb (a =? c).

(** The [for i in range(100)] loop: rounds [i], [i+1], ... ([n] of
    them), leaving at the first record that does not fit. *)
Fixpoint count_valid (data : bytes) (test_pos : Z) (n : nat) (i : Z)
         (valid_count : Z) : option Z :=
  match n with
  | O => Some valid_count
  | Datatypes.S n' =>
    let offset := test_pos + i * 6 in
    if offset + 6 >? len data then Some valid_count
    else
      abc <-? unpack_from_HHH data offset ;;
      count_valid data test_pos n' (i + 1)
                  (if looks_valid abc then valid_count + 1 else valid_count)
  end.

(** [int(data_len * fraction)]. *)
Definition int_scaled (data_len : Z) (fraction : float) : option Z :=
  fl <-? float_of_int data_len ;;
  int_of_float (fl * fraction)%float.

(** The [for test_pos in test_positions] loop. *)
Fixpoint try_positions (data : bytes) (test_positions : list Z) : option Z :=
  match test_positions with
  | [] => Some 0
  | test_pos :: rest =>
    let test_pos := (test_pos / 6) * 6 in
    valid_count <-? count_valid data test_pos 100 0 0 ;;
    if valid_count >? 80 then Some test_pos
    else try_positions data rest
  end.

(** [_find_face_data_offset]. *)
Definition _find_face_data_offset (self : t) : option Z :=
  let data_len := len (tpl_geom_data self) in
  p1 <-? int_scaled data_len 0.8 ;;
  p2 <-? int_scaled data_len 0.85 ;;
  p3 <-? int_scaled data_len 0.9 ;;
  p4 <-? int_scaled data_len 0.7 ;;
  try_positions (tpl_geom_data self) [p1; p2; p3; p4].

Definition key_eqb (k1 k2 : float * float * float) : bool :=
  let '(x1, y1, z1) := k1 in
  let '(x2, y2, z2) := k2 in
  ((x1 =? x2) && (y1 =? y2) && (z1 =? z2))%float.

(** The vertex loop: [seen] holds the keys of [seen_positions]. *)
Fixpoint parse_vertices (data : bytes) (n : nat) (i : Z)
         (seen : list (float * float * float)) (mesh : MeshData)
  : option MeshData :=
  match n with
  | O => Some mesh
  | Datatypes.S n' =>
    let offset := i * 8 in
    if offset + 8 >? len data then Some mesh
    else
      x <-? unpack_from_h data offset ;;
      y <-? unpack_from_h data (offset + 2) ;;
      z <-? unpack_from_h data (offset + 4) ;;
      packed <-? unpack_from_H data (offset + 6) ;;
      fx <-? float_of_int x ;;
      fy <-? float_of_int y ;;
      fz <-? float_of_int z ;;
      let pos := (fx * POSITION_SCALE, fy * POSITION_SCALE,
                  fz * POSITION_SCALE)%float in
      let pos_key := (py_round (fst (fst pos)) 4, py_round (snd (fst pos)) 4,
                      py_round (snd pos) 4) in
      if existsb (key_eqb pos_key) seen then
        parse_vertices data n' (i + 1) seen mesh
      else
        nrm <-? decompress_normal_from_int16 packed ;;
        parse_vertices data n' (i + 1) (pos_key :: seen)
          {| vertices := vertices mesh ++ [pos];
             normals := normals mesh ++ [nrm];
             faces := faces mesh; uv_sets := uv_sets mesh;
             colors := colors mesh; tangents := tangents mesh;
             skins := skins mesh; bones := bones mesh;
             materials := materials mesh |}
  end.

(** The face loop. *)
Fixpoint parse_faces (data : bytes) (face_offset max_vertex_idx : Z)
         (n : nat) (i : Z) (acc : list Face) : option (list Face) :=
  match n with
  | O => Some acc
  | Datatypes.S n' =>
    let offset := face_offset + i * 6 in
    if offset + 6 >? len data then Some acc
    else
      abc <-? unpack_from_HHH data offset ;;
      let '(a, b, c) := abc in
      parse_faces data face_offset max_vertex_idx n' (i + 1)
        (if (a <? max_vertex_idx) && (b <? max_vertex_idx)
            && (c <? max_vertex_idx)
         then acc ++ [ {| a := a; b := b; c := c |} ]
         else acc)
  end.

(** The vertex and face data boundaries [(vertex_data_end,
    face_offset)] that [_parse_geometry] settles on. *)
Definition boundaries (self : t) : option (Z * Z) :=
  let data_len := len (tpl_geom_data self) in
  face_offset <-? _find_face_data_offset self ;;
  if face_offset >? 0 then Some (face_offset, face_offset)
  else
    (* Fallback: assume faces start at 90% of file *)
    vertex_data_end <-? int_scaled data_len 0.9 ;;
    Some (vertex_data_end, vertex_data_end).

(** The mesh node that [_parse_geometry] builds from a non-empty
    geometry blob. *)
Definition geometry_node (self : t) : option TPLNode :=
  let data := tpl_geom_data self in
  let data_len := len data in
  bounds <-? boundaries self ;;
  let '(vertex_data_end, face_offset) := bounds in
  let vertex_count := vertex_data_end / 8 in
  mesh <-? parse_vertices data (range_len vertex_count) 0 [] MeshData_empty ;;
  let face_data_size := Z.min (data_len - face_offset) 1000000 in
  let max_vertex_idx := len (vertices mesh) in
  fs <-? parse_faces data face_offset max_vertex_idx
                     (range_len (face_data_size / 6)) 0 [] ;;
  Some (Build_TPLNode 0 (lit "mesh") Matrix4_identity Matrix4_identity
          (Some {| vertices := vertices mesh; normals := normals mesh;
                   faces := fs; uv_sets := uv_sets mesh;
                   colors := colors mesh; tangents := tangents mesh;
                   skins := skins mesh; bones := bones mesh;
                   materials := materials mesh |})
          [] []).

Definition has_geometry (n : TPLNode) : bool :=
  match mesh n with
  | Some m =>
    match vertices m, faces m with
    | _ :: _, _ :: _ => true
    | _, _ => false
    end
  | None => false
  end.

(** [_parse_geometry]. *)
Definition _parse_geometry : M t unit :=
  self <- get ;;
  match tpl_geom_data self with
  | [] => ret tt
  | _ =>
    mesh_node <- lift (geometry_node self) ;;
    if has_geometry mesh_node
    then modify (set_objects (mesh_node :: objects self))
    else ret tt
  end.

(** [_build_hierarchy]. *)
Definition _build_hierarchy : M t unit :=
  self <- get ;;
  match objects self with
  | [] => ret tt
  | objs =>
    modify (set_root (Some (Build_TPLNode (-1) (lit ".root.")
                              Matrix4_identity Matrix4_identity None
                              objs [])))
  end.

Section Parse.

Variable isalpha : Z -> bool.

(** The body of [_parse]. *)
Definition _parse_body : M t bool :=
  ok <- _parse_tpl1 ;;
  if negb ok then ret false
  else
    ok <- _parse_ogm1 isalpha ;;
    if negb ok then ret false
    else
      _parse_geometry ;;;
      _build_hierarchy ;;;
      ret true.

(** [_parse]: [False] when the body raised. *)
Definition _parse (self : t) : bool * t :=
  match _parse_body self with
  | (Some ok, self') => (ok, self')
  | (None, self') => (false, self')
  end.

(** [load]. *)
Definition load (fs : filesystem) (filepath : string) (self : t)
  : bool * t :=
  let filepath := Path filepath in
  (* TPL files can be folders or files *)
  let '(tpl_file, tpl_data_file) :=
    if is_dir fs filepath
    then (path_join filepath (path_name filepath),
          path_join filepath (path_name filepath ++ "_data")%string)
    else (filepath, Path (filepath ++ "_data")%string) in
  if negb (path_exists fs tpl_file) then (false, self)
  else
    match read_file fs tpl_file with
    | None => (false, self)
    | Some d =>
      let self := set_tpl_data d self in
      if negb (starts_with (blit "1SER") d) then (false, self)
      else if path_exists fs tpl_data_file then
        match read_file fs tpl_data_file with
        | None => (false, self)
        | Some g => _parse (set_tpl_geom_data g self)
        end
      else _parse self
    end.

End Parse.

End SERParser.

(* ================================================================== *)
(** * Unified loader *)

Inductive format_type : Type := FMT_USF | FMT_1SER | FMT_UNKNOWN.

(** The parser classes, to name the calls of [load] that a run makes. *)
Inductive parser_kind : Type := SER | USF.

Section Loader.

Variable isalpha : Z -> bool.

(** The interpreter's recursion allowance for [_parse_node]. *)
Variable depth : nat.

(** [load_tpl] with the list of the parsers whose [load] it called, in
    call order.  [None] stands for an exception that leaves [load_tpl]:
    the unpacking of the header is outside every [try]. *)
Definition load_tpl_run (fs : filesystem) (filepath : string)
  : option (option TPLNode * format_type) * list parser_kind :=
  match read_file fs filepath with
  | None => (Some (None, FMT_UNKNOWN), [])
  | Some content =>
    let header := firstn 8 content in
    if starts_with (blit "1SER") header then
      let '(ok, parser) := SERParser.load isalpha fs filepath SERParser.__init__ in
      if ok then (Some (SERParser.root parser, FMT_1SER), [SER])
      else (Some (None, FMT_1SER), [SER])
    else
      match unpack_i (firstn 4 header) with
      | None => (None, [])
      | Some version =>
        let first :=
          if (0 <? version) && (version <? 1000)
          then Some (USFParser.load fs depth filepath USFParser.__init__)
          else None in
        let tried := match first with Some _ => [USF] | None => [] end in
        match first with
        | Some (true, parser) => (Some (USFParser.root parser, FMT_USF), tried)
        | _ =>
          let '(ok, parser) :=
            SERParser.load isalpha fs filepath SERParser.__init__ in
          if ok then (Some (SERParser.root parser, FMT_1SER), tried ++ [SER])
          else
            let '(ok, parser) :=
              USFParser.load fs depth filepath USFParser.__init__ in
            if ok
            then (Some (USFParser.root parser, FMT_USF), tried ++ [SER; USF])
            else (Some (None, FMT_UNKNOWN), tried ++ [SER; USF])
        end
      end
  end.

(** [load_tpl]. *)
Definition load_tpl (fs : filesystem) (filepath : string)
  : option (option TPLNode * format_type) :=
  fst (load_tpl_run fs filepath).

Definition load_tpl_calls (fs : filesystem) (filepath : string)
  : list parser_kind :=
  snd (load_tpl_run fs filepath).

End Loader.

(* ================================================================== *)
(** * Sample inputs

    Hand-built buffers on which the theorems below are instantiated. *)

Module Samples.

(** [str.isalpha] on ASCII: the letters. *)
Definition ascii_isalpha (c : Z) : bool :=
  ((65 <=? c) && (c <=? 90)) || ((97 <=? c) && (c <=? 122)).

Definition u8 (z : Z) : bytes := [byte_of_Z z].

Definition u16 (z : Z) : bytes := map byte_of_Z [z; z / 256].

Definition i32 (z : Z) : bytes :=
  map byte_of_Z [z; z / 256; z / 65536; z / 16777216].

Definition zeros (n : nat) : bytes := repeat Byte.x00 n.

(** The identity matrix as sixteen binary32 numbers. *)
Definition identity_bytes : bytes :=
  List.concat (map i32 [1065353216; 0; 0; 0;  0; 1065353216; 0; 0;
                        0; 0; 1065353216; 0;  0; 0; 0; 1065353216]).

(** A USF node of version 0x100: empty strings, identity matrices, no
    optional section but possibly a mesh, and the given children. *)
Definition usf_node (uid : Z) (mesh : option bytes) (kids : list bytes)
  : bytes :=
  i32 256 ++ i32 uid ++ i32 0 ++ i32 0 ++ i32 0 ++ i32 1 ++ i32 0
  ++ identity_bytes ++ identity_bytes ++ identity_bytes ++ i32 0
  ++ u8 0
  ++ (match mesh with Some m => u8 1 ++ m | None => u8 0 end)
  ++ u8 0 ++ u8 0
  ++ i32 (len kids) ++ List.concat kids.

(** A USF file of version 150 with a root node. *)
Definition usf_file (root : bytes) : bytes :=
  i32 150 ++ i32 0 ++ i32 0 ++ i32 0 ++ i32 1 ++ u8 1 ++ root.

(** A mesh of version 0x100 with no vertex and one face record whose
    material index is 5. *)
Definition usf_mesh_one_face : bytes :=
  i32 256 ++ i32 0 ++ i32 0 ++ i32 0 ++ i32 0
  ++ i32 1 ++ i32 5 ++ i32 0 ++ i32 0 ++ i32 0 ++ i32 0.

(** A root with uid 7 and one child that also has uid 7 and carries
    [usf_mesh_one_face]. *)
Definition usf_twins : bytes :=
  usf_file (usf_node 7 None [usf_node 7 (Some usf_mesh_one_face) []]).

(** [usf_twins] cut off inside the root node. *)
Definition usf_truncated : bytes := firstn 300 usf_twins.

(** [usf_twins] with its first four bytes replaced by the 1SER tag:
    the USF parser reads them as a version number. *)
Definition usf_tagged_1ser : bytes := blit "1SER" ++ skipn 4 usf_twins.

(** A file system with one regular file, at the path [p] when [p] is in
    normal form, and nothing else. *)
Definition one_file_entry (p : string) (content : bytes) (q : string)
  : option fs_entry :=
  if String.eqb (Path p) p && String.eqb q p then Some (File content)
  else None.

Definition one_file_entry_Path (p : string) (content : bytes) :
  forall q e, one_file_entry p content q = Some e ->
              one_file_entry p content (Path q) = Some e.
Proof.
  unfold one_file_entry. intros q e.
  destruct (String.eqb (Path p) p) eqn:Hp; [|discriminate].
  destruct (String.eqb q p) eqn:Hq; [|discriminate].
  apply String.eqb_eq in Hq. subst q.
  rewrite (proj1 (String.eqb_eq _ _) Hp), String.eqb_refl. trivial.
Qed.

Definition one_file (p : string) (content : bytes) : filesystem :=
  {| entry := one_file_entry p content;
     entry_Path := one_file_entry_Path p content |}.

(** A length-prefixed name as the 1SER container stores it. *)
Definition ser_name (s : string) : bytes := i32 (len (blit s)) ++ blit s.

(** A 1SER container: tag, TPL1 section, OGM1 section with its five
    counts, 100 bytes of header, the given payload, and padding past
    the scanned region. *)
Definition ser_container (payload : bytes) : bytes :=
  blit "1SER" ++ blit "TPL1" ++ i32 1 ++ i32 0
  ++ blit "OGM1" ++ u16 1 ++ u16 0 ++ u16 1 ++ u16 1 ++ u16 1
  ++ zeros 100 ++ payload ++ zeros 16.

(** One vertex record: three signed 16-bit coordinates and a packed
    normal. *)
Definition ser_vertex (x y z packed : Z) : bytes :=
  u16 x ++ u16 y ++ u16 z ++ u16 packed.

(** An 80-byte geometry blob: nine distinct vertices, then at offset
    72 (90% of the length) the face (0, 1, 2) and two spare bytes. *)
Definition ser_blob : bytes :=
  List.concat (map (fun i => ser_vertex i (2 * i) 5 100)
                   [0; 1; 2; 3; 4; 5; 6; 7; 8])
  ++ u16 0 ++ u16 1 ++ u16 2 ++ zeros 2.

(** A 6000-byte blob that is zero except for [n] records (1, 2, 3)
    from offset 4800 on. *)
Definition blob_with_valid (n : nat) : bytes :=
  zeros 4800
  ++ List.concat (repeat (u16 1 ++ u16 2 ++ u16 3) n)
  ++ zeros (1200 - 6 * n).

(** A reader at the start of a buffer whose length prefix is 20000. *)
Definition bad_length_reader : BytesIO :=
  {| buf := i32 20000 ++ zeros 3; pos := 0 |}.

(** The USF parser object after the failed parse of [usf_truncated]. *)
Definition usf_truncated_state : USFParser.t :=
  {| USFParser.version := 150; USFParser.source_path := [];
     USFParser.file_type := []; USFParser.root := None |}.

Definition with_geom (g : bytes) : SERParser.t :=
  SERParser.set_tpl_geom_data g SERParser.__init__.

(** A fresh 1SER parser holding a container and a geometry blob. *)
Definition ser_parser (d g : bytes) : SERParser.t :=
  SERParser.set_tpl_geom_data g (SERParser.set_tpl_data d SERParser.__init__).

(** A container that names two objects, and one that offers the
    one-letter name [A]. *)
Definition ser_two_names : bytes :=
  ser_container (ser_name "Body" ++ ser_name "arm_L").

Definition ser_one_letter : bytes := ser_container (ser_name "A").

Definition tree_or_leaf (o : option TPLNode) : TPLNode :=
  match o with
  | Some t => t
  | None => TPLNode_new 0 []
  end.

(** The trees that the parsers return on the samples. *)
Definition usf_twins_tree : TPLNode :=
  Eval vm_compute in
    tree_or_leaf (USFParser.root
                    (snd (USFParser._parse 1000 USFParser.__init__
                                           (BytesIO_new usf_twins)))).

Definition ser_two_names_tree : TPLNode :=
  Eval vm_compute in
    tree_or_leaf (SERParser.root
                    (snd (SERParser._parse ascii_isalpha
                                           (ser_parser ser_two_names [])))).

Definition ser_with_blob_tree : TPLNode :=
  Eval vm_compute in
    tree_or_leaf (SERParser.root
                    (snd (SERParser._parse ascii_isalpha
                                           (ser_parser ser_two_names ser_blob)))).

End Samples.

(* ================================================================== *)
(** * Vocabulary of the properties *)

(** The uids of a tree, in preorder. *)
Fixpoint uids (node : TPLNode) : list Z :=
  match node with
  | Build_TPLNode u _ _ _ _ cs _ => u :: flat_map uids cs
  end.

(** All face indices of a mesh are below its number of vertices. *)
Definition faces_in_range (m : MeshData) : Prop :=
  Forall (fun f => a f < len (vertices m) /\ b f < len (vertices m)
                   /\ c f < len (vertices m)) (faces m).

(** The meshes of a tree. *)
Definition all_meshes (node : TPLNode) : list MeshData :=
  flat_map (fun n => match mesh n with Some m => [m] | None => [] end)
           (get_all_mesh_nodes node).

(** The first four bytes of the header as [load_tpl] unpacks them. *)
Definition header_version (content : bytes) : option Z :=
  unpack_i (firstn 4 (firstn 8 content)).

Definition header_is_1ser (content : bytes) : bool :=
  starts_with (blit "1SER") content.

(** The exact value of a finite binary64 number. *)
Definition SF2Q (x : spec_float) : option Q :=
  match x with
  | S754_zero _ => Some 0%Q
  | S754_finite s m e =>
    let v := if s then Z.neg m else Z.pos m in
    Some (match e with
          | Z0 => inject_Z v
          | Z.pos k => inject_Z (v * Z.pos (2 ^ k))
          | Z.neg k => Qmake v (2 ^ k)
          end)
  | _ => None
  end.

Definition F2Q (x : float) : option Q := SF2Q (Prim2SF x).

(** [x] is a finite number (a zero included). *)
Definition is_finite (x : float) : bool :=
  match Prim2SF x with
  | S754_zero _ | S754_finite _ _ _ => true
  | _ => false
  end.

(** The exact value of [x] lies within [tol] of [q]. *)
Definition within (tol : Q) (x : float) (q : Q) : Prop :=
  exists v, F2Q x = Some v /\ (Qabs (v - q) <= tol)%Q.

(** The exact value of [x] lies in the closed interval from [lo] to [hi]. *)
Definition between (lo hi : Q) (x : float) : Prop :=
  exists v, F2Q x = Some v /\ (lo <= v)%Q /\ (v <= hi)%Q.

(** The exact squared length of a vector of finite numbers. *)
Definition norm2 (v : float * float * float) : option Q :=
  let '(x, y, z) := v in
  qx <-? F2Q x ;;
  qy <-? F2Q y ;;
  qz <-? F2Q z ;;
  Some (qx * qx + qy * qy + qz * qz)%Q.

(** The three unsigned 16-bit indices of the 6-byte record at [off]. *)
Definition record_at (data : bytes) (off : Z) : Z * Z * Z :=
  (le_uint (slice data off (off + 2)),
   le_uint (slice data (off + 2) (off + 4)),
   le_uint (slice data (off + 4) (off + 6))).

(** How many of the 100 records from [p] on fit in the blob. *)
Definition fitting (data : bytes) (p : Z) : nat :=
  Z.to_nat (Z.min 100 ((len data - p) / 6)).

(** The score of a candidate offset: the records among the fitting ones
    whose indices are pairwise distinct and below the upper bound. *)
Definition score (data : bytes) (p : Z) : Z :=
  len (filter SERParser.looks_valid
              (map (fun i => record_at data (p + Z.of_nat i * 6))
                   (seq 0 (fitting data p)))).

Definition align6 (p : Z) : Z := (p / 6) * 6.

(** The records of the face region that fit in the blob. *)
Definition face_records (data : bytes) (face_offset : Z) (n : nat)
  : list (Z * Z * Z) :=
  map (fun i => record_at data (face_offset + Z.of_nat i * 6))
      (seq 0 (Nat.min n (Z.to_nat ((len data - face_offset) / 6)))).

Definition face_of (abc : Z * Z * Z) : Face :=
  let '(a, b, c) := abc in {| a := a; b := b; c := c |}.

Definition face_kept (max_vertex_idx : Z) (abc : Z * Z * Z) : bool :=
  let '(a, b, c) := abc in
  (a <? max_vertex_idx) && (b <? max_vertex_idx) && (c <? max_vertex_idx).

(** The object list holds the nodes that name recovery makes: the k-th
    has uid k, no mesh and no children. *)
Definition numbered (objs : list TPLNode) : Prop :=
  map uid objs = map Z.of_nat (seq 0 (List.length objs))
  /\ Forall (fun n => children n = [] /\ mesh n = None) objs.

(* ------------------------------------------------------------------ *)
(** ** The statements as the specification words them *)

Module Stated.

(** The non-negative fractional part, [v - floor v]. *)
Definition fracQ (v : Q) : Q := (v - inject_Z (Qfloor v))%Q.

(** [x = (-1 + 2 frac(|w| / 181)) (181 / 179)], in exact arithmetic. *)
Definition normal_x (w : Z) : Q :=
  ((-1 + 2 * fracQ (inject_Z (Z.abs w) / 181)) * (181 / 179))%Q.

(** [z = (-1 + 2 frac(|w| / 181^2)) (181 / 180)], in exact arithmetic. *)
Definition normal_z (w : Z) : Q :=
  ((-1 + 2 * fracQ (inject_Z (Z.abs w) / (181 * 181))) * (181 / 180))%Q.

(** The same [z], each operation rounded to binary64 as written. *)
Definition normal_z_binary64 (w : Z) : option float :=
  fa <-? float_of_int (Z.abs w) ;;
  f <-? frac (fa / (181 * 181))%float ;;
  Some ((-1 + 2 * f) * (181 / 180))%float.

(** Fallback both ways: whichever parser the header selects, when it
    fails the other one is called. *)
Definition fallback_both_ways (isalpha : Z -> bool) (depth : nat)
           (fs : filesystem) (filepath : string) (content : bytes) : Prop :=
  (header_is_1ser content = true ->
   fst (SERParser.load isalpha fs filepath SERParser.__init__) = false ->
   In USF (load_tpl_calls isalpha depth fs filepath))
  /\ (forall v, header_version content = Some v -> 0 < v < 1000 ->
      fst (USFParser.load fs depth filepath USFParser.__init__) = false ->
      In SER (load_tpl_calls isalpha depth fs filepath)).

(** Face-offset discovery with the candidates in the listed order and
    acceptance from 80 valid records on. *)
Definition find_face_data_offset (data : bytes) : option Z :=
  let data_len := len data in
  p1 <-? SERParser.int_scaled data_len 0.7 ;;
  p2 <-? SERParser.int_scaled data_len 0.8 ;;
  p3 <-? SERParser.int_scaled data_len 0.85 ;;
  p4 <-? SERParser.int_scaled data_len 0.9 ;;
  Some (match List.find (fun p => 80 <=? score data (align6 p))
                        [p1; p2; p3; p4] with
        | Some p => align6 p
        | None => 0
        end).

(** A candidate name is taken when its length lies strictly between 0
    and 100 and it has an alphabetic character. *)
Definition name_ok (isalpha : Z -> bool) (name : str) : bool :=
  (0 <? len name) && (len name <? 100) && existsb isalpha name.

(** [clamp (q, 0, 1)], in exact arithmetic. *)
Definition clamp01 (q : Q) : Q := Qmax 0 (Qmin 1 q).

(** The squared length of [v] is at most [1 + eps]. *)
Definition nearly_unit (eps : Q) (v : float * float * float) : Prop :=
  exists n, norm2 v = Some n /\ (n <= 1 + eps)%Q.

(** The exact value of [x] lies in the half-open interval from -1 to 1. *)
Definition half_open (x : float) : Prop :=
  exists v, F2Q x = Some v /\ (-1 <= v)%Q /\ (v < 1)%Q.

End Stated.

(* ------------------------------------------------------------------ *)
(** ** Preservation predicates for the USF parser object *)

(** A step keeps [root] whatever its outcome. *)
Definition keeps_root {A} (m : M (USFParser.t * BytesIO) A) : Prop :=
  forall s r s', m s = (r, s') ->
                 USFParser.root (fst s') = USFParser.root (fst s).

(** A step keeps [root] when it raises. *)
Definition raise_keeps_root {A} (m : M (USFParser.t * BytesIO) A) : Prop :=
  forall s s', m s = (None, s') ->
               USFParser.root (fst s') = USFParser.root (fst s).

(* ------------------------------------------------------------------ *)
(** ** Vocabulary for the 1SER parser *)

(** What the container steps leave alone. *)
Definition frame (s s' : SERParser.t) : Prop :=
  SERParser.tpl_geom_data s' = SERParser.tpl_geom_data s
  /\ SERParser.root s' = SERParser.root s
  /\ SERParser.tpl_data s' = SERParser.tpl_data s.

(** The number of 6-byte records from [p] on that fit in the blob. *)
Definition avail (data : bytes) (p : Z) : nat :=
  Z.to_nat ((len data - p) / 6).

(** The synthetic root over the recovered objects. *)
Definition ser_root (objs : list TPLNode) : TPLNode :=
  Build_TPLNode (-1) (lit ".root.") Matrix4_identity Matrix4_identity None
                objs [].

(** The parser object after [_build_hierarchy]. *)
Definition with_hierarchy (s : SERParser.t) : SERParser.t :=
  match SERParser.objects s with
  | [] => s
  | objs => SERParser.set_root (Some (ser_root objs)) s
  end.

(** The parser object after a candidate name was taken. *)
Definition with_object (name : str) (s : SERParser.t) : SERParser.t :=
  SERParser.set_objects
    (SERParser.objects s ++ [TPLNode_new (len (SERParser.objects s)) name]) s.

(** The acceptance test of name recovery, in words. *)
Definition name_taken (isalpha : Z -> bool) (name : str) : Prop :=
  1 < len name < 100 /\ exists ch, In ch name /\ isalpha ch = true.

(* ================================================================== *)
(** * Vocabulary of binary64 rounding *)

(** |x| <= 2^E for a finite x. *)
Definition le_pow2 (E : Z) (x : spec_float) : Prop :=
  match x with
  | S754_zero _ => True
  | S754_finite _ m e => e <= E /\ Z.pos m <= 2 ^ (E - e)
  | _ => False
  end.

Definition sign_is (s : bool) (x : spec_float) : Prop :=
  match x with
  | S754_zero s' | S754_finite s' _ _ => s' = s
  | _ => False
  end.

Definition digits (m : Z) : Z := Zdigits2 m.

Ltac hide_pows :=
  repeat match goal with
         | |- context [2 ^ ?e] =>
           let p := fresh "pw" in set (p := 2 ^ e) in *; clearbody p
         | H : context [2 ^ ?e] |- _ =>
           let p := fresh "pw" in set (p := 2 ^ e) in *; clearbody p
         end.

Ltac plia := hide_pows; lia.

(** [k] right shifts of a non-negative mantissa: the quotient by [2^k],
    and clean round and sticky bits when nothing is lost. *)
Definition shr_n (k : nat) (m : Z) : shr_record :=
  Nat.iter k shr_1 {| shr_m := m; shr_r := false; shr_s := false |}.

(** After the first shift the pair is canonical, or the mantissa is 0 at
    the least exponent. *)
Definition settled (m e : Z) : Prop :=
  (0 < m /\ fexp prec emax (digits m + e) = e) \/ (m = 0 /\ e = -1074).

(** A valid number in the closed unit interval: a zero, or positive and
    at most 1. *)
Definition unit_sf (x : spec_float) : Prop :=
  valid_binary x = true
  /\ match x with
     | S754_zero _ => True
     | S754_finite false m e => e <= 0 /\ Z.pos m <= 2 ^ (- e)
     | _ => False
     end.

Definition finite_sf (x : spec_float) : Prop :=
  match x with
  | S754_zero _ | S754_finite _ _ _ => True
  | _ => False
  end.

(** A zero of either sign, or a positive number. *)
Definition nonneg_sf (x : spec_float) : Prop :=
  match x with
  | S754_zero _ => True
  | S754_finite s _ _ => s = false
  | _ => False
  end.

(* ================================================================== *)
(** * Exhaustive check of the 16-bit normals *)

(** [x], the unsigned root [r] of [y], and [z] for [a = |w|]. *)
Definition normal_parts (a : Z) : option (float * float * float) :=
  obind (float_of_int a) (fun fa =>
  obind (frac ((1 / 181) * fa)%float) (fun frac_x =>
  obind (frac ((1 / 181 / 181) * fa)%float) (fun frac_z =>
  let x := ((-1 + 2 * frac_x) * (181 / 179))%float in
  let z := ((-1 + 2 * frac_z) * (181 / 180))%float in
  let y_squared := saturate (1 - x * x - z * z)%float in
  obind (math_sqrt y_squared) (fun r => Some (x, r, z))))).

(** The same conversions through the machine-integer primitive and
    shifts, for evaluation. *)
Definition float_of_int_fast (z : Z) : option float :=
  if (0 <=? z) && (z <? 4611686018427387904) then
    let f := PrimFloat.of_uint63 (Uint63.of_Z z) in
    if PrimFloat.is_infinity f then None else Some f
  else float_of_int z.

Definition SF_floor_fast (x : spec_float) : option Z :=
  match x with
  | S754_zero _ => Some 0
  | S754_finite s m e =>
      let v := if s then Z.neg m else Z.pos m in
      Some (if 0 <=? e then Z.shiftl v e else Z.shiftr v (- e))
  | _ => None
  end.

Definition frac_fast (x : float) : option float :=
  obind (SF_floor_fast (Prim2SF x)) (fun n =>
  obind (float_of_int_fast n) (fun fn => Some (x - fn)%float)).

Definition normal_parts_fast (a : Z) : option (float * float * float) :=
  obind (float_of_int_fast a) (fun fa =>
  obind (frac_fast ((1 / 181) * fa)%float) (fun frac_x =>
  obind (frac_fast ((1 / 181 / 181) * fa)%float) (fun frac_z =>
  let x := ((-1 + 2 * frac_x) * (181 / 179))%float in
  let z := ((-1 + 2 * frac_z) * (181 / 180))%float in
  let y_squared := saturate (1 - x * x - z * z)%float in
  obind (math_sqrt y_squared) (fun r => Some (x, r, z))))).

(** A finite number as mantissa and exponent, [m * 2 ^ e]. *)
Definition dy (x : spec_float) : option (Z * Z) :=
  match x with
  | S754_zero _ => Some (0, 0)
  | S754_finite s m e => Some (if s then Z.neg m else Z.pos m, e)
  | _ => None
  end.

(** The numerator of [m * 2 ^ e] over the denominator [2 ^ K]. *)
Definition scaled (K : Z) (d : Z * Z) : Z := Z.shiftl (fst d) (snd d + K).

(** [|m * 2 ^ e - n / d| <= 2 ^ (- t)], on numerators over [d * 2 ^ K]. *)
Definition near (x : Z * Z) (n d t : Z) : bool :=
  let K := Z.max 0 (- snd x) in
  Z.shiftl (Z.abs (d * scaled K x - Z.shiftl n K)) t <=? Z.shiftl d K.

Definition clampZ (lo hi v : Z) : Z := Z.max lo (Z.min hi v).

(** [m * m] through the double-word product of the machine integers. *)
Definition sq (m : Z) : Z :=
  if (0 <=? m) && (m <? 4611686018427387904) then
    let u := Uint63.of_Z m in
    let '(h, l) := Uint63.mulc u u in
    Z.shiftl (Uint63.to_Z h) 63 + Uint63.to_Z l
  else m * m.

(** The square of [m * 2 ^ e] over the denominator [2 ^ (2 K)]. *)
Definition scaled_sq (K : Z) (d : Z * Z) : Z :=
  Z.shiftl (sq (Z.abs (fst d))) (2 * (snd d + K)).

(** The checks on [normal_parts a], on integers over the common
    denominators [2 ^ K] and [2 ^ (2 K)]. *)
Definition parts_ok (a : Z) : bool :=
  match normal_parts_fast a with
  | Some (x, r, z) =>
    match dy (Prim2SF x), dy (Prim2SF r), dy (Prim2SF z) with
    | Some dx, Some dr, Some dz =>
      let K := Z.max 0 (Z.max (- snd dx) (Z.max (- snd dr) (- snd dz))) in
      let one := Z.shiftl 1 (2 * K) in
      let S := scaled_sq K dx + scaled_sq K dz in
      let R2 := scaled_sq K dr in
      if 0 <=? fst dr then
        if (if fst dr =? 0 then 16 * S <=? 33 * one
            else Z.shiftl (S + R2 - one) 50 <=? one) then
          if Z.shiftl (Z.abs (R2 - clampZ 0 one (one - S))) 50 <=? one then
            if 32767 <? a then true
            else if near dx (181 * (2 * (a mod 181) - 181)) (181 * 179) 44 then
              if a =? 32761 then true
              else near dz (181 * (2 * (a mod 32761) - 32761)) (32761 * 180) 50
            else false
          else false
        else false
      else false
    | _, _, _ => false
    end
  | None => false
  end.

Fixpoint all_from (check : Z -> bool) (n : nat) (a : Z) : bool :=
  match n with
  | O => true
  | S k => if check a then all_from check k (a + 1) else false
  end.

(** What the checks say about the exact values. *)
Definition parts_exact (a : Z) (p : float * float * float) : Prop :=
  let '(x, r, z) := p in
  exists vx vr vz,
    F2Q x = Some vx /\ F2Q r = Some vr /\ F2Q z = Some vz
    /\ (0 <= vr)%Q
    /\ (vx * vx + vr * vr + vz * vz <= 33 # 16)%Q
    /\ (~ (vr == 0)%Q -> (vx * vx + vr * vr + vz * vz <= 1 + (1 # 2 ^ 50))%Q)
    /\ (Qabs (vr * vr - Stated.clamp01 (1 - vx * vx - vz * vz)) <= 1 # 2 ^ 50)%Q
    /\ (a <= 32767 ->
        (Qabs (vx - Stated.normal_x a) <= 1 # 2 ^ 44)%Q
        /\ (a <> 32761 -> (Qabs (vz - Stated.normal_z a) <= 1 # 2 ^ 50)%Q)).

(* ================================================================== *)
(** * Further functions of the parser module and their vocabulary *)

Unset Implicit Arguments.

(** [get_node_by_uid]: the first node with this uid, in preorder. *)
Fixpoint get_node_by_uid (root : TPLNode) (u : Z) : option TPLNode :=
  match root with
  | Build_TPLNode id _ _ _ _ cs _ =>
    if id =? u then Some root
    else
      (fix scan (l : list TPLNode) : option TPLNode :=
         match l with
         | [] => None
         | child :: rest =>
           match get_node_by_uid child u with
           | Some result => Some result
           | None => scan rest
           end
         end) cs
  end.

(** The nodes of a tree, in preorder. *)
Fixpoint nodes (node : TPLNode) : list TPLNode :=
  match node with
  | Build_TPLNode _ _ _ _ _ cs _ => node :: flat_map nodes cs
  end.

Definition has_mesh (n : TPLNode) : bool :=
  match mesh n with Some _ => true | None => false end.

(** Induction on trees, with the hypothesis on every child. *)
Fixpoint TPLNode_forall_ind (P : TPLNode -> Prop)
  (step : forall u s lm wm m cs my,
      Forall P cs -> P (Build_TPLNode u s lm wm m cs my))
  (n : TPLNode) : P n :=
  match n with
  | Build_TPLNode u s lm wm m cs my =>
    step u s lm wm m cs my
      ((fix all (l : list TPLNode) : Forall P l :=
          match l with
          | [] => Forall_nil P
          | c :: rest => Forall_cons c (TPLNode_forall_ind P step c) (all rest)
          end) cs)
  end.

Fixpoint bytes_eqb (x y : bytes) : bool :=
  match x, y with
  | [], [] => true
  | c :: x', d :: y' => Byte.eqb c d && bytes_eqb x' y'
  | _, _ => false
  end.

(** The [while True] loop of [read_cstring]; every round consumes a
    byte, so one round more than the bytes left is enough. *)
Fixpoint read_cstring_loop (fuel : nat) (chars : list bytes)
  : M BytesIO (list bytes) :=
  match fuel with
  | O => raise
  | Datatypes.S fuel' =>
    c <- read 1 ;;
    if bytes_eqb c [Byte.x00] || bytes_eqb c [] then ret chars
    else read_cstring_loop fuel' (chars ++ [c])
  end.

(** [read_cstring]: null-terminated string. *)
Definition read_cstring : M BytesIO str :=
  fun r =>
    (chars <- read_cstring_loop
                (Datatypes.S (Z.to_nat (len (buf r) - pos r))) [] ;;
     ret (decode_replace (List.concat chars))) r.

(** The bytes before the first NUL. *)
Fixpoint before_nul (bs : bytes) : bytes :=
  match bs with
  | [] => []
  | c :: rest => if Byte.eqb c Byte.x00 then [] else c :: before_nul rest
  end.

(** A length-prefixed string as the writer of the format lays it out. *)
Definition pack_string (s : str) : bytes :=
  map byte_of_Z [len s; len s / 256; len s / 65536; len s / 16777216]
  ++ map byte_of_Z s.

(** [snorm16_to_float]: [value / 32767.0]. *)
Definition snorm16_to_float (value : Z) : option float :=
  v <-? float_of_int value ;; Some (v / 32767)%float.

(** [snorm8_to_float]: [value / 127.0]. *)
Definition snorm8_to_float (value : Z) : option float :=
  v <-? float_of_int value ;; Some (v / 127)%float.

(** [unorm8_to_float]: [value / 255.0]. *)
Definition unorm8_to_float (value : Z) : option float :=
  v <-? float_of_int value ;; Some (v / 255)%float.

(** The float order puts [x] between [lo] and [hi]; false for NaN. *)
Definition fbetween (lo hi x : float) : bool :=
  ((lo <=? x) && (x <=? hi))%float.

(** [conv v] is a number between [lo] and [hi]. *)
Definition norm_ok (conv : Z -> option float) (lo hi : float) (v : Z)
  : bool :=
  match conv v with
  | Some f => fbetween lo hi f
  | None => false
  end.

(** What every face of a USF mesh looks like. *)
Definition usf_face (f : Face) : Prop :=
  0 <= a f < 536870912 /\ b f = 0 /\ c f = 0.

(** A colour with all four channels between 0 and 1. *)
Definition unit_color (col : float * float * float * float) : Prop :=
  let '(r, g, b, a) := col in
  fbetween 0 1 r = true /\ fbetween 0 1 g = true
  /\ fbetween 0 1 b = true /\ fbetween 0 1 a = true.

(** The assignment a line of a property section makes, if any: the
    trimmed key and the trimmed, unquoted value. *)
Definition assignment (line : str) : option (str * str) :=
  let line := strip line in
  if existsb (Z.eqb 61) line then
    let '(key, value) := partition_at 61 line in
    Some (strip key, PropertySection.unquote (strip value))
  else None.

Definition assigns (key : str) (line : str) : bool :=
  match assignment line with
  | Some (k, _) => str_eqb k key
  | None => false
  end.

(** The lines of a property section: split at [;] and newline. *)
Definition property_lines (data : str) : list str :=
  split_by (fun c => (c =? 59) || (c =? 10)) (strip data).

(** Neither end of [s] is white space. *)
Definition trimmed (s : str) : Prop :=
  match s with [] => True | c :: _ => isspace c = false end
  /\ match rev s with [] => True | c :: _ => isspace c = false end.

(** The key under which the vertex loop remembers a position: each
    component rounded to four decimals. *)
Definition pos_key (p : float * float * float) : float * float * float :=
  (py_round (fst (fst p)) 4, py_round (snd (fst p)) 4, py_round (snd p) 4).

(** No key equals a key that was recorded before it (the list has the
    most recent key first). *)
Fixpoint fresh_keys (seen : list (float * float * float)) : Prop :=
  match seen with
  | [] => True
  | k :: earlier =>
    existsb (SERParser.key_eqb k) earlier = false /\ fresh_keys earlier
  end.

(** The file that [SERParser.load] opens for [filepath]: a TPL can be a
    folder that holds a file of its own name. *)
Definition ser_tpl_file (fs : filesystem) (filepath : string) : string :=
  if is_dir fs (Path filepath)
  then path_join (Path filepath) (path_name (Path filepath))
  else Path filepath.

(* ------------------------------------------------------------------ *)
(** ** Reads inside the buffer *)

(** The reader over the same bytes with [more] appended. *)
Definition extend (more : bytes) (r : BytesIO) : BytesIO :=
  {| buf := buf r ++ more; pos := pos r |}.

Section Reads.

(** A state that holds a reader. *)
Variable S : Type.
Variable reader_of : S -> BytesIO.
Variable extended : bytes -> S -> S.

Definition in_buffer (s : S) : Prop :=
  0 <= pos (reader_of s) <= len (buf (reader_of s)).

Definition at_end (s : S) : Prop :=
  pos (reader_of s) = len (buf (reader_of s)).

(** The cursor moves forward inside the same buffer. *)
Definition advances (s s' : S) : Prop :=
  buf (reader_of s') = buf (reader_of s)
  /\ pos (reader_of s) <= pos (reader_of s') <= len (buf (reader_of s)).

(** Where [m] returns it has moved the cursor forward, and either it
    got every byte it asked for, so that bytes appended to the buffer
    change nothing, or it has left the cursor at the end. *)
Definition Stable {A} (m : M S A) : Prop :=
  forall s a s', in_buffer s -> m s = (Some a, s') ->
    advances s s'
    /\ ((forall more, m (extended more s) = (Some a, extended more s'))
        \/ at_end s').

(** Where [m] returns it got every byte it asked for. *)
Definition Strict {A} (m : M S A) : Prop :=
  forall s a s', in_buffer s -> m s = (Some a, s') ->
    advances s s'
    /\ forall more, m (extended more s) = (Some a, extended more s').

(** [m] raises when it starts at the end of the buffer. *)
Definition Hungry {A} (m : M S A) : Prop :=
  forall s, in_buffer s -> at_end s -> fst (m s) = None.

End Reads.

Arguments in_buffer {S} reader_of s.
Arguments at_end {S} reader_of s.
Arguments advances {S} reader_of s s'.
Arguments Stable {S} reader_of extended {A} m.
Arguments Strict {S} reader_of extended {A} m.
Arguments Hungry {S} reader_of {A} m.

(** A parser object with its reader. *)
Definition reader_of_parse (s : USFParser.t * BytesIO) : BytesIO := snd s.
Definition extended_parse (more : bytes) (s : USFParser.t * BytesIO)
  : USFParser.t * BytesIO := (fst s, extend more (snd s)).

(** The reader as its own state. *)
Definition same_reader (r : BytesIO) : BytesIO := r.

(** A read of [n] bytes whose continuation raises on any other number
    of bytes: the unpacking of a fixed-size format. *)
Definition wants {A} (n : Z) (k : bytes -> M BytesIO A) : Prop :=
  forall d r, len d <> n -> fst (k d r) = None.

(* ------------------------------------------------------------------ *)
(** ** Object-name recovery, in words *)

(** A candidate name at [pos]: a 4-byte little-endian length in
    (0, 256], then that many bytes of well-formed UTF-8 inside the
    buffer; the name is the decoded text without its trailing NULs. *)
Definition candidate (data : bytes) (pos : Z) (name : str) : Prop :=
  let length := le_uint (slice data pos (pos + 4)) in
  pos + 4 <= len data
  /\ 0 < length <= 256
  /\ pos + 4 + length <= len data
  /\ exists s, decode_strict (slice data (pos + 4) (pos + 4 + length)) = Some s
               /\ name = rstrip_nul s.

(** The names that the scan takes from the cursor [pos] on, in a region
    that ends at [stop]: while the cursor is more than 10 bytes before
    [stop], a candidate at the cursor whose name passes the test is taken
    and the cursor moves past its payload; otherwise the cursor moves by
    one byte. *)
Inductive scan (isalpha : Z -> bool) (data : bytes) (stop : Z)
  : Z -> list str -> Prop :=
| scan_end pos :
    stop - 10 <= pos -> scan isalpha data stop pos []
| scan_take pos name names :
    pos < stop - 10 ->
    candidate data pos name -> name_taken isalpha name ->
    scan isalpha data stop
         (pos + 4 + le_uint (slice data pos (pos + 4))) names ->
    scan isalpha data stop pos (name :: names)
| scan_retry pos names :
    pos < stop - 10 ->
    (forall name, candidate data pos name -> ~ name_taken isalpha name) ->
    scan isalpha data stop (pos + 1) names ->
    scan isalpha data stop pos names.

(** [needle] lies in [data] at index [i]. *)
Definition occurs_at (needle data : bytes) (i : Z) : Prop :=
  0 <= i /\ slice data i (i + len needle) = needle.

(** The end of the scanned region: the first [ANIM] marker, or the end
    of the buffer when there is none. *)
Definition region_end (data : bytes) (stop : Z) : Prop :=
  (occurs_at (blit "ANIM") data stop
   /\ forall j, occurs_at (blit "ANIM") data j -> stop <= j)
  \/ ((forall j, ~ occurs_at (blit "ANIM") data j) /\ stop = len data).

(* ------------------------------------------------------------------ *)
(** ** Further sample inputs *)

Module Inputs.

(** A reader at the start of the packed string [wood], two more bytes
  behind it. *)
Definition string_reader : BytesIO :=
BytesIO_new (pack_string (lit "wood") ++ Samples.zeros 2).

(** A reader with two bytes left. *)
Definition short_reader : BytesIO :=
{| buf := Samples.zeros 3; pos := 1 |}.

(** A reader at the start of [mesh], a NUL, and [xy]. *)
Definition cstring_reader : BytesIO :=
BytesIO_new (blit "mesh" ++ [Byte.x00] ++ blit "xy").

(** A mesh of version 0x100 with one colour and one face record. *)
Definition mesh_with_color : bytes :=
Samples.i32 256 ++ Samples.i32 0 ++ Samples.i32 0
++ Samples.i32 1 ++ Samples.i32 2164211744
++ Samples.i32 0
++ Samples.i32 1 ++ Samples.i32 5
++ Samples.i32 0 ++ Samples.i32 0 ++ Samples.i32 0 ++ Samples.i32 0.

Definition mesh_or_empty (res : option MeshData * BytesIO) : MeshData :=
match fst res with
| Some m => m
| None => MeshData_empty
end.

(** What [_parse_mesh] returns on [mesh_with_color]. *)
Definition parsed_mesh : MeshData :=
Eval vm_compute in
  mesh_or_empty (USFParser._parse_mesh (BytesIO_new mesh_with_color)).

Definition parsed_mesh_reader : BytesIO :=
Eval vm_compute in
  snd (USFParser._parse_mesh (BytesIO_new mesh_with_color)).

(** A reader at the start of an identity matrix. *)
Definition matrix_reader : BytesIO := BytesIO_new Samples.identity_bytes.

(** A reader at the start of a list of two vertices. *)
Definition vertices_reader : BytesIO :=
BytesIO_new (Samples.i32 2 ++ Samples.zeros 24).

(** The parser holding the two-name container and the sample blob, and
  the node its geometry pass builds. *)
Definition blob_parser : SERParser.t :=
Samples.ser_parser Samples.ser_two_names Samples.ser_blob.

Definition blob_node : TPLNode :=
Eval vm_compute in
  Samples.tree_or_leaf (SERParser.geometry_node blob_parser).

(** The parser object after the parse of the two-name container. *)
Definition two_names_parsed : SERParser.t :=
Eval vm_compute in
  snd (SERParser._parse Samples.ascii_isalpha
                        (Samples.ser_parser Samples.ser_two_names [])).

(** The parser object after loading the two-name container from
  [model.tpl]. *)
Definition two_names_loaded : SERParser.t :=
Eval vm_compute in
  snd (SERParser.load Samples.ascii_isalpha
                      (Samples.one_file "model.tpl" Samples.ser_two_names)
                      "model.tpl" SERParser.__init__).

(** A TPL folder: the directory [mdl], which its name followed by a
  separator reaches too, holding the two-name container as [mdl/mdl]. *)
Definition tpl_folder_entry (q : string) : option fs_entry :=
if String.eqb q "mdl" || String.eqb q "mdl/" then Some Directory
else if String.eqb q "mdl/mdl" then Some (File Samples.ser_two_names)
else None.

Definition tpl_folder_entry_Path :
forall q e, tpl_folder_entry q = Some e ->
            tpl_folder_entry (Path q) = Some e.
Proof.
unfold tpl_folder_entry. intros q e.
destruct (String.eqb q "mdl") eqn:E1.
{ apply String.eqb_eq in E1. subst q. intros H. exact H. }
destruct (String.eqb q "mdl/") eqn:E2.
{ apply String.eqb_eq in E2. subst q. intros H. exact H. }
destruct (String.eqb q "mdl/mdl") eqn:E3; [|discriminate].
apply String.eqb_eq in E3. subst q. intros H. exact H.
Qed.

Definition tpl_folder : filesystem :=
{| entry := tpl_folder_entry; entry_Path := tpl_folder_entry_Path |}.

(** The parser object after loading the folder through [mdl/]. *)
Definition folder_loaded : SERParser.t :=
Eval vm_compute in
  snd (SERParser.load Samples.ascii_isalpha tpl_folder "mdl/"
                      SERParser.__init__).

(** The two-name container with an [ANIM] marker after the names and
  one more name behind the marker. *)
Definition ser_with_anim : bytes :=
Samples.ser_container
  (Samples.ser_name "Body" ++ Samples.ser_name "arm_L" ++ Samples.zeros 16
   ++ blit "ANIM" ++ Samples.ser_name "Tail").

(** The same bytes with the marker spoiled. *)
Definition ser_without_anim : bytes :=
Samples.ser_container
  (Samples.ser_name "Body" ++ Samples.ser_name "arm_L" ++ Samples.zeros 16
   ++ blit "ANIN" ++ Samples.ser_name "Tail").

End Inputs.

Set Implicit Arguments.

(* ================================================================== *)
(** * Properties *)

(** ** Lists, slices and reads *)

Lemma len_nonneg {A} (l : list A) : 0 <= len l.
Proof. unfold len. lia. Qed.

Lemma len_firstn_le {A} (n : nat) (l : list A) :
  Z.of_nat n <= len l -> len (firstn n l) = Z.of_nat n.
Proof. unfold len. intros H. rewrite length_firstn. lia. Qed.

Lemma len_slice {A} (l : list A) (i j : Z) :
  0 <= i -> i <= j -> j <= len l -> len (slice l i j) = j - i.
Proof.
  intros Hi Hij Hj. unfold slice, len in *.
  rewrite length_firstn, length_skipn. lia.
Qed.

Lemma read_exact (n : Z) (r : BytesIO) :
  0 <= n -> 0 <= pos r -> pos r + n <= len (buf r) ->
  read n r = (Some (slice (buf r) (pos r) (pos r + n)),
              {| buf := buf r; pos := pos r + n |}).
Proof.
  intros Hn Hp Hfit. unfold read.
  destruct (n <? 0) eqn:E; [apply Z.ltb_lt in E; lia|].
  rewrite Z.min_l by lia. reflexivity.
Qed.

Lemma read_i_exact (r : BytesIO) :
  0 <= pos r -> pos r + 4 <= len (buf r) ->
  read_i r = (Some (to_signed 32 (le_uint (slice (buf r) (pos r) (pos r + 4)))),
              {| buf := buf r; pos := pos r + 4 |}).
Proof.
  intros Hp Hfit. unfold read_i, bind. rewrite read_exact by lia.
  unfold lift, unpack_i, unpack_uint.
  rewrite len_slice by lia.
  replace (pos r + 4 - pos r =? 4) with true by (symmetry; apply Z.eqb_eq; lia).
  reflexivity.
Qed.

(* ------------------------------------------------------------------ *)
(** ** [read_string] on a length out of bounds *)

(** C9.  When the four bytes at the cursor decode to a length that is at
    most 0 or above 10000, [read_string] returns the empty string without
    raising, and leaves the cursor just after the four bytes, inside the
    buffer. *)
Theorem read_string_bad_length (r : BytesIO) :
  0 <= pos r -> pos r + 4 <= len (buf r) ->
  let length := to_signed 32 (le_uint (slice (buf r) (pos r) (pos r + 4))) in
  length <= 0 \/ length > 10000 ->
  exists r', read_string r = (Some [], r')
             /\ buf r' = buf r /\ pos r' = pos r + 4 /\ pos r' <= len (buf r').
Proof.
  intros Hp Hfit length Hbad.
  exists {| buf := buf r; pos := pos r + 4 |}.
  split; [|cbn; auto].
  unfold read_string, bind. rewrite read_i_exact by assumption.
  fold length.
  replace ((length <=? 0) || (length >? 10000)) with true; [reflexivity|].
  symmetry. apply orb_true_iff. destruct Hbad as [H|H].
  - left. apply Z.leb_le. exact H.
  - right. apply Z.gtb_lt. lia.
Qed.

Lemma read_string_bad_length_witness :
  exists r', read_string Samples.bad_length_reader = (Some [], r')
             /\ buf r' = buf Samples.bad_length_reader
             /\ pos r' = pos Samples.bad_length_reader + 4
             /\ pos r' <= len (buf r').
Proof.
  apply (@read_string_bad_length Samples.bad_length_reader).
  - cbn. lia.
  - vm_compute. intros H. discriminate H.
  - right. vm_compute. reflexivity.
Defined.

(* ------------------------------------------------------------------ *)
(** ** A failed USF parse leaves no tree *)

Lemma keeps_root_on_reader {A} (m : M BytesIO A) :
  keeps_root (USFParser.on_reader m).
Proof.
  intros [self rd] r s'. unfold USFParser.on_reader. cbn.
  destruct (m rd) as [r' rd']. intros E. inversion E. reflexivity.
Qed.

Lemma keeps_root_update (f : USFParser.t -> USFParser.t) :
  (forall self, USFParser.root (f self) = USFParser.root self) ->
  keeps_root (USFParser.update f).
Proof.
  intros Hf [self rd] r s'. unfold USFParser.update, modify. cbn.
  intros E. inversion E. cbn. apply Hf.
Qed.

Lemma raise_keeps_root_bind {A B} (m : M (USFParser.t * BytesIO) A)
      (k : A -> M (USFParser.t * BytesIO) B) :
  keeps_root m -> (forall x, raise_keeps_root (k x)) ->
  raise_keeps_root (bind m k).
Proof.
  intros Hm Hk s s'. unfold bind.
  destruct (m s) as [[x|] s1] eqn:E.
  - intros E2. rewrite (Hk x _ _ E2). eapply Hm. exact E.
  - intros E2. inversion E2. subst. eapply Hm. exact E.
Qed.

Lemma raise_keeps_root_update (f : USFParser.t -> USFParser.t) :
  raise_keeps_root (USFParser.update f).
Proof. intros s s'. unfold USFParser.update, modify. discriminate. Qed.

Lemma raise_keeps_root_ret {A} (x : A) : @raise_keeps_root A (ret x).
Proof. intros s s'. unfold ret. discriminate. Qed.

(** The body of [_parse] assigns [root] in its last step only. *)
Lemma parse_body_raise (depth : nat) :
  raise_keeps_root (USFParser._parse_body depth).
Proof.
  unfold USFParser._parse_body.
  repeat first
    [ apply raise_keeps_root_bind;
      [ first [ apply keeps_root_on_reader
              | apply keeps_root_update; intros; reflexivity ] | intros ]
    | apply raise_keeps_root_update
    | apply raise_keeps_root_ret
    | match goal with
      | |- raise_keeps_root (if ?c then _ else _) => destruct c
      end ].
Qed.

Lemma usf_parse_failure_keeps_root depth self reader self' :
  USFParser._parse depth self reader = (false, self') ->
  USFParser.root self' = USFParser.root self.
Proof.
  unfold USFParser._parse.
  destruct (USFParser._parse_body depth (self, reader)) as [[u|] [s1 rd1]] eqn:E.
  - discriminate.
  - intros E2. inversion E2. subst.
    exact (@parse_body_raise depth (self, reader) (self', rd1) E).
Qed.

(* ------------------------------------------------------------------ *)
(** ** The runs of [load_tpl] *)

Lemma starts_with_tag_firstn (l : bytes) :
  starts_with (blit "1SER") (firstn 8 l) = starts_with (blit "1SER") l.
Proof.
  change (blit "1SER") with [Byte.x31; Byte.x53; Byte.x45; Byte.x52].
  destruct l as [|b0 [|b1 [|b2 [|b3 l]]]]; reflexivity.
Qed.

Lemma tagged_version (content : bytes) :
  header_is_1ser content = true -> header_version content = Some 1380274993.
Proof.
  unfold header_is_1ser, header_version.
  change (blit "1SER") with [Byte.x31; Byte.x53; Byte.x45; Byte.x52].
  destruct content as [|b0 [|b1 [|b2 [|b3 l]]]];
    cbn [starts_with firstn]; intros H;
    repeat rewrite andb_false_r in H; try discriminate H.
  repeat (apply andb_true_iff in H;
          let E := fresh "E" in
          destruct H as [E H]; apply Byte.byte_dec_bl in E; subst).
  reflexivity.
Qed.

Lemma is_dir_file fs p d : read_file fs p = Some d -> is_dir fs p = false.
Proof. unfold read_file, is_dir. destruct (entry fs p) as [[|]|]; congruence. Qed.

Lemma path_exists_file fs p d :
  read_file fs p = Some d -> path_exists fs p = true.
Proof.
  unfold read_file, path_exists. destruct (entry fs p) as [[|]|]; congruence.
Qed.

(** A file that a path string reaches is reached through the path's
    normal form too. *)
Lemma read_file_Path fs p d :
  read_file fs p = Some d -> read_file fs (Path p) = Some d.
Proof.
  unfold read_file. destruct (entry fs p) as [[c|]|] eqn:E; try discriminate.
  intros H. rewrite (entry_Path fs p E). exact H.
Qed.

(** Without the tag the 1SER parser gives up at the magic check. *)
Lemma ser_load_untagged isalpha fs p content self :
  read_file fs p = Some content ->
  header_is_1ser content = false ->
  fst (SERParser.load isalpha fs p self) = false.
Proof.
  intros Hr Ht. apply read_file_Path in Hr. unfold SERParser.load.
  rewrite (is_dir_file _ _ Hr). cbv beta iota.
  rewrite (path_exists_file _ _ Hr), Hr. cbv beta iota. unfold negb.
  unfold header_is_1ser in Ht. rewrite Ht. reflexivity.
Qed.

Section LoaderRuns.

Variable isalpha : Z -> bool.
Variable depth : nat.

(** A file with the tag: one call, of the 1SER parser. *)
Lemma load_tpl_run_tagged fs p content :
  read_file fs p = Some content ->
  header_is_1ser content = true ->
  load_tpl_run isalpha depth fs p =
    (Some (if fst (SERParser.load isalpha fs p SERParser.__init__)
           then SERParser.root
                  (snd (SERParser.load isalpha fs p SERParser.__init__))
           else None, FMT_1SER), [SER]).
Proof.
  intros Hr Ht. unfold load_tpl_run. rewrite Hr.
  unfold header_is_1ser in Ht. rewrite starts_with_tag_firstn, Ht.
  destruct (SERParser.load isalpha fs p SERParser.__init__) as [[|] ps];
    reflexivity.
Qed.

(** A file without the tag on which the USF parser fails. *)
Lemma load_tpl_run_untagged fs p content v :
  read_file fs p = Some content ->
  header_is_1ser content = false ->
  header_version content = Some v ->
  fst (USFParser.load fs depth p USFParser.__init__) = false ->
  load_tpl_run isalpha depth fs p =
    (Some (None, FMT_UNKNOWN),
     (if (0 <? v) && (v <? 1000) then [USF] else []) ++ [SER; USF]).
Proof.
  intros Hr Ht Hv Hu. unfold load_tpl_run. rewrite Hr.
  pose proof (@ser_load_untagged isalpha fs p content SERParser.__init__
                                 Hr Ht) as Hs.
  unfold header_is_1ser in Ht. rewrite starts_with_tag_firstn, Ht.
  unfold header_version in Hv. rewrite Hv.
  destruct (SERParser.load isalpha fs p SERParser.__init__) as [oks ps].
  destruct (USFParser.load fs depth p USFParser.__init__) as [oku pu].
  cbn in Hs, Hu. subst oks oku.
  destruct ((0 <? v) && (v <? 1000)); reflexivity.
Qed.

(** A file too short for the header: the unpacking raises. *)
Lemma load_tpl_run_short fs p content :
  read_file fs p = Some content ->
  header_is_1ser content = false ->
  header_version content = None ->
  load_tpl_run isalpha depth fs p = (None, []).
Proof.
  intros Hr Ht Hv. unfold load_tpl_run. rewrite Hr.
  unfold header_is_1ser in Ht. rewrite starts_with_tag_firstn, Ht.
  unfold header_version in Hv. rewrite Hv. reflexivity.
Qed.

Lemma header_version_some (content : bytes) :
  4 <= len content -> exists v, header_version content = Some v.
Proof.
  intros H. unfold header_version, unpack_i, unpack_uint.
  rewrite firstn_firstn. change (Nat.min 4 8) with 4%nat.
  rewrite len_firstn_le by (cbn; lia). cbn. eauto.
Qed.

(** C2, as the code has it.  Fallback goes one way.  When the header
    carries the 1SER tag and the 1SER parser fails, [load_tpl] returns
    no root with the tag ['1SER'] after that single call.  When the
    header reads as a version strictly between 0 and 1000 and the USF
    parser fails, [load_tpl] calls the 1SER parser next, then the USF
    parser once more, and reports ['UNKNOWN']. *)
Theorem fallback_only_from_usf fs filepath content :
  read_file fs filepath = Some content ->
  (header_is_1ser content = true ->
   fst (SERParser.load isalpha fs filepath SERParser.__init__) = false ->
   load_tpl_run isalpha depth fs filepath = (Some (None, FMT_1SER), [SER]))
  /\ (forall v, header_version content = Some v -> 0 < v < 1000 ->
      fst (USFParser.load fs depth filepath USFParser.__init__) = false ->
      load_tpl_run isalpha depth fs filepath
      = (Some (None, FMT_UNKNOWN), [USF; SER; USF])).
Proof.
  intros Hr. split.
  - intros Ht Hs. rewrite (load_tpl_run_tagged _ _ Hr Ht), Hs. reflexivity.
  - intros v Hv Hrange Hu.
    destruct (header_is_1ser content) eqn:Ht.
    + rewrite (tagged_version _ Ht) in Hv. inversion Hv. lia.
    + rewrite (load_tpl_run_untagged _ _ Hr Ht Hv Hu).
      replace ((0 <? v) && (v <? 1000)) with true; [reflexivity|].
      symmetry. apply andb_true_iff. split; apply Z.ltb_lt; lia.
Qed.

End LoaderRuns.

(** ** [load_tpl] on the sample files *)

(** On [usf_tagged_1ser] the USF parser would return a tree. *)
Lemma tagged_file_usf_would_parse :
  fst (USFParser.load (Samples.one_file "model.tpl" Samples.usf_tagged_1ser)
                      1000 "model.tpl" USFParser.__init__) = true.
Proof. vm_compute. reflexivity. Qed.

(** C2 as stated fails on [usf_tagged_1ser]: the header selects the 1SER
    parser, that parser fails, and the USF parser is never called. *)
Lemma tagged_file_no_fallback :
  ~ Stated.fallback_both_ways Samples.ascii_isalpha 1000
      (Samples.one_file "model.tpl" Samples.usf_tagged_1ser) "model.tpl"
      Samples.usf_tagged_1ser.
Proof.
  intros [H _].
  assert (Ht : header_is_1ser Samples.usf_tagged_1ser = true)
    by (vm_compute; reflexivity).
  assert (Hs : fst (SERParser.load Samples.ascii_isalpha
                      (Samples.one_file "model.tpl" Samples.usf_tagged_1ser)
                      "model.tpl" SERParser.__init__) = false)
    by (vm_compute; reflexivity).
  specialize (H Ht Hs). vm_compute in H.
  destruct H as [H|[]]. discriminate H.
Qed.

Lemma fallback_only_from_usf_witness :
  load_tpl_run Samples.ascii_isalpha 1000
               (Samples.one_file "model.tpl" Samples.usf_tagged_1ser)
               "model.tpl" = (Some (None, FMT_1SER), [SER])
  /\ load_tpl_run Samples.ascii_isalpha 1000
                  (Samples.one_file "model.tpl" Samples.usf_truncated)
                  "model.tpl" = (Some (None, FMT_UNKNOWN), [USF; SER; USF]).
Proof.
  split.
  - apply (proj1 (@fallback_only_from_usf Samples.ascii_isalpha 1000
                    (Samples.one_file "model.tpl" Samples.usf_tagged_1ser)
                    "model.tpl" Samples.usf_tagged_1ser eq_refl)).
    + vm_compute. reflexivity.
    + vm_compute. reflexivity.
  - apply (proj2 (@fallback_only_from_usf Samples.ascii_isalpha 1000
                    (Samples.one_file "model.tpl" Samples.usf_truncated)
                    "model.tpl" Samples.usf_truncated eq_refl) 150).
    + vm_compute. reflexivity.
    + lia.
    + vm_compute. reflexivity.
Defined.

(* ------------------------------------------------------------------ *)
(** ** The 1SER parser: records, names and the tree *)

Lemma unpack_from_H_fits data off :
  0 <= off -> off + 2 <= len data ->
  unpack_from_H data off = Some (le_uint (slice data off (off + 2))).
Proof.
  intros H0 H1. unfold unpack_from_H, unpack_from_uint.
  destruct (off <? 0) eqn:E0; [apply Z.ltb_lt in E0; lia|].
  destruct (len data <? off + 2) eqn:E1; [apply Z.ltb_lt in E1; lia|].
  reflexivity.
Qed.

Lemma unpack_from_HHH_fits data off :
  0 <= off -> off + 6 <= len data ->
  SERParser.unpack_from_HHH data off = Some (record_at data off).
Proof.
  intros H0 H1. unfold SERParser.unpack_from_HHH, record_at, obind.
  rewrite !unpack_from_H_fits by lia.
  replace (off + 2 + 2) with (off + 4) by lia.
  replace (off + 4 + 2) with (off + 6) by lia.
  reflexivity.
Qed.

Lemma fits_iff data p (i : nat) :
  (p + Z.of_nat i * 6 + 6 >? len data) = false <-> (i < avail data p)%nat.
Proof.
  unfold avail. rewrite Z.gtb_ltb, Z.ltb_ge. split; intros H.
  - assert (Z.of_nat i + 1 <= (len data - p) / 6)
      by (apply Z.div_le_lower_bound; lia).
    lia.
  - assert (Hq : Z.of_nat i + 1 <= (len data - p) / 6) by lia.
    assert (6 * ((len data - p) / 6) <= len data - p)
      by (apply Z.mul_div_le; lia).
    lia.
Qed.

Lemma records_step data p (n i : nat) :
  (i < avail data p)%nat ->
  seq i (Nat.min (Datatypes.S n) (avail data p - i))
  = i :: seq (Datatypes.S i) (Nat.min n (avail data p - Datatypes.S i)).
Proof.
  intros H.
  replace (avail data p - i)%nat with (Datatypes.S (avail data p - Datatypes.S i)) by lia.
  reflexivity.
Qed.

Lemma parse_faces_spec data fo maxv (n i : nat) acc :
  0 <= fo ->
  SERParser.parse_faces data fo maxv n (Z.of_nat i) acc
  = Some (acc ++ map face_of
                     (filter (face_kept maxv)
                             (map (fun k => record_at data (fo + Z.of_nat k * 6))
                                  (seq i (Nat.min n (avail data fo - i)))))).
Proof.
  intros Hfo. revert i acc. induction n as [|n IH]; intros i acc.
  - cbn. rewrite app_nil_r. reflexivity.
  - cbn [SERParser.parse_faces].
    destruct (fo + Z.of_nat i * 6 + 6 >? len data) eqn:E.
    + assert (~ (i < avail data fo)%nat)
        by (intros C; apply fits_iff in C; congruence).
      replace (avail data fo - i)%nat with 0%nat by lia.
      rewrite Nat.min_0_r. cbn. rewrite app_nil_r. reflexivity.
    + pose proof (proj1 (fits_iff data fo i) E) as Hi.
      rewrite Z.gtb_ltb, Z.ltb_ge in E.
      rewrite unpack_from_HHH_fits by lia. cbn [obind].
      rewrite (records_step data fo n Hi). cbn [map filter].
      destruct (record_at data (fo + Z.of_nat i * 6)) as [[a b] c] eqn:R.
      replace (Z.of_nat i + 1) with (Z.of_nat (Datatypes.S i)) by lia.
      rewrite IH. cbn [face_kept].
      destruct ((a <? maxv) && (b <? maxv) && (c <? maxv)); cbn [map face_of].
      * rewrite <- app_assoc. reflexivity.
      * reflexivity.
Qed.

Lemma face_kept_in_range maxv abc :
  face_kept maxv abc = true ->
  a (face_of abc) < maxv /\ b (face_of abc) < maxv /\ c (face_of abc) < maxv.
Proof.
  destruct abc as [[x y] z]. cbn. rewrite !andb_true_iff, !Z.ltb_lt. tauto.
Qed.

Lemma count_valid_spec data p (n i : nat) vc :
  0 <= p ->
  SERParser.count_valid data p n (Z.of_nat i) vc
  = Some (vc + len (filter SERParser.looks_valid
                     (map (fun k => record_at data (p + Z.of_nat k * 6))
                          (seq i (Nat.min n (avail data p - i)))))).
Proof.
  intros Hp. revert i vc. induction n as [|n IH]; intros i vc.
  - cbn. f_equal. unfold len. cbn. lia.
  - cbn [SERParser.count_valid].
    destruct (p + Z.of_nat i * 6 + 6 >? len data) eqn:E.
    + assert (~ (i < avail data p)%nat)
        by (intros C; apply fits_iff in C; congruence).
      replace (avail data p - i)%nat with 0%nat by lia.
      rewrite Nat.min_0_r. cbn. f_equal. unfold len. cbn. lia.
    + pose proof (proj1 (fits_iff data p i) E) as Hi.
      rewrite Z.gtb_ltb, Z.ltb_ge in E.
      rewrite unpack_from_HHH_fits by lia. cbn [obind].
      rewrite (records_step data p n Hi). cbn [map filter].
      replace (Z.of_nat i + 1) with (Z.of_nat (Datatypes.S i)) by lia.
      rewrite IH.
      destruct (SERParser.looks_valid (record_at data (p + Z.of_nat i * 6)));
        f_equal; unfold len; cbn [List.length]; lia.
Qed.

Lemma count_valid_score data p :
  0 <= p -> SERParser.count_valid data p 100 0 0 = Some (score data p).
Proof.
  intros Hp. pose proof (@count_valid_spec data p 100 0 0 Hp) as H.
  cbn [Z.of_nat] in H. rewrite H.
  unfold score, fitting, avail. f_equal.
  rewrite Nat.sub_0_r.
  replace (Z.to_nat (Z.min 100 ((len data - p) / 6)))
    with (Nat.min 100 (Z.to_nat ((len data - p) / 6))).
  - lia.
  - rewrite Z2Nat.inj_min. reflexivity.
Qed.
Lemma frame_refl s : frame s s.
Proof. unfold frame. auto. Qed.

Lemma frame_trans s1 s2 s3 : frame s1 s2 -> frame s2 s3 -> frame s1 s3.
Proof. unfold frame. intros (A & B & C) (D & E & F). repeat split; congruence. Qed.

Lemma numbered_nil : numbered [].
Proof. split; constructor. Qed.

Lemma numbered_app objs nm :
  numbered objs -> numbered (objs ++ [TPLNode_new (len objs) nm]).
Proof.
  intros [Hu Hc]. split.
  - rewrite map_app, length_app, Hu. cbn [List.length map].
    rewrite Nat.add_1_r, seq_S, map_app. reflexivity.
  - apply Forall_app. split; [exact Hc|]. constructor; [|constructor].
    cbn. auto.
Qed.

Lemma names_loop_inv isalpha fuel : forall ogm1_end pos s r s',
  numbered (SERParser.objects s) ->
  SERParser._parse_object_names_loop isalpha fuel ogm1_end pos s = (r, s') ->
  numbered (SERParser.objects s') /\ frame s s'.
Proof.
  induction fuel as [|fuel IH]; intros ogm1_end pos s r s' Hn.
  - cbn. intros E. inversion E. subst. split; [exact Hn | apply frame_refl].
  - cbn [SERParser._parse_object_names_loop].
    destruct (pos <? ogm1_end - 10).
    + unfold bind at 1. unfold get at 1.
      destruct (SERParser._read_string s pos) as [nm new_pos].
      destruct (SERParser.name_ok isalpha nm).
      * unfold bind, modify. intros E.
        apply IH in E.
        -- destruct E as [E1 E2]. split; [exact E1|].
           eapply frame_trans; [|exact E2]. unfold frame. cbn. auto.
        -- cbn. apply numbered_app. exact Hn.
      * intros E. apply IH in E; assumption.
    + cbn. intros E. inversion E. subst. split; [exact Hn | apply frame_refl].
Qed.

Lemma parse_tpl1_inv s r s' :
  SERParser._parse_tpl1 s = (r, s') -> SERParser.objects s' = SERParser.objects s /\ frame s s'.
Proof.
  unfold SERParser._parse_tpl1, bind, get, lift, modify, ret.
  destruct (find (SERParser.tpl_data s) (blit "TPL1") <? 0).
  - intros E. inversion E. subst. split; [reflexivity | apply frame_refl].
  - destruct (unpack_from_I (SERParser.tpl_data s) _).
    + destruct (unpack_from_I (SERParser.tpl_data s) _);
        intros E; inversion E; subst; cbn; unfold frame; cbn; auto.
    + intros E; inversion E; subst. split; [reflexivity | apply frame_refl].
Qed.

Lemma parse_ogm1_inv isalpha s r s' :
  numbered (SERParser.objects s) ->
  SERParser._parse_ogm1 isalpha s = (r, s') -> numbered (SERParser.objects s') /\ frame s s'.
Proof.
  intros Hn. unfold SERParser._parse_ogm1, bind at 1. unfold get at 1.
  destruct (find (SERParser.tpl_data s) (blit "OGM1") <? 0).
  - intros E. inversion E. subst. split; [exact Hn | apply frame_refl].
  - unfold bind, lift, modify, ret.
    repeat match goal with
           | |- context [unpack_from_H ?d ?p] =>
             destruct (unpack_from_H d p);
               [| intros E; inversion E; subst; cbn;
                  split; [exact Hn | unfold frame; cbn; auto]]
           end.
    unfold SERParser._parse_object_names, bind, get.
    match goal with
    | |- context [SERParser._parse_object_names_loop ?i ?f ?e ?p ?st] =>
      destruct (SERParser._parse_object_names_loop i f e p st) as [r1 s1] eqn:EL
    end.
    apply names_loop_inv in EL; [|cbn; exact Hn].
    destruct EL as [E1 E2].
    assert (frame s s1) by (eapply frame_trans; [|exact E2]; unfold frame; cbn; auto).
    destruct r1; intros E; inversion E; subst; auto.
Qed.

Lemma parse_geometry_inv s r s' :
  SERParser._parse_geometry s = (r, s') ->
  frame s s'
  /\ (SERParser.objects s' = SERParser.objects s
      \/ exists node, SERParser.objects s' = node :: SERParser.objects s
                      /\ SERParser.tpl_geom_data s <> []
                      /\ SERParser.geometry_node s = Some node).
Proof.
  unfold SERParser._parse_geometry, bind, get, lift, modify, ret.
  destruct (SERParser.tpl_geom_data s) as [|b0 g] eqn:G.
  - intros E. inversion E. subst. split; [apply frame_refl | auto].
  - destruct (SERParser.geometry_node s) as [node|] eqn:N.
    + destruct (SERParser.has_geometry node); intros E; inversion E; subst.
      * split; [unfold frame; cbn; auto|]. right. exists node. cbn.
        repeat split; congruence.
      * split; [apply frame_refl | auto].
    + intros E. inversion E. subst. split; [apply frame_refl | auto].
Qed.

Lemma build_hierarchy_inv s :
  SERParser._build_hierarchy s
  = (Some tt, match SERParser.objects s with
              | [] => s
              | objs => SERParser.set_root (Some (ser_root objs)) s
              end).
Proof.
  unfold SERParser._build_hierarchy, bind, get, modify, ret.
  destruct (SERParser.objects s); reflexivity.
Qed.

Lemma with_hierarchy_objects s : SERParser.objects (with_hierarchy s) = SERParser.objects s.
Proof. unfold with_hierarchy. destruct (SERParser.objects s) eqn:E; cbn; congruence. Qed.

Lemma with_hierarchy_root s :
  SERParser.root (with_hierarchy s) = match SERParser.objects s with
                              | [] => SERParser.root s
                              | os => Some (ser_root os)
                              end.
Proof. unfold with_hierarchy. destruct (SERParser.objects s) eqn:E; cbn; congruence. Qed.

(** The tree a successful parse leaves: the named objects, numbered from
    0, behind the geometry node when there is one. *)
Lemma ser_parse_shape isalpha s0 s' :
  SERParser.objects s0 = [] -> SERParser.root s0 = None ->
  SERParser._parse isalpha s0 = (true, s') ->
  exists objs extra,
    numbered objs
    /\ SERParser.objects s' = extra ++ objs
    /\ (extra = []
        \/ exists node s1, extra = [node] /\ SERParser.tpl_geom_data s0 <> []
                           /\ SERParser.geometry_node s1 = Some node)
    /\ SERParser.root s' = match SERParser.objects s' with
                   | [] => None
                   | os => Some (ser_root os)
                   end.
Proof.
  intros Ho Hr. unfold SERParser._parse, SERParser._parse_body.
  unfold bind at 1.
  destruct (SERParser._parse_tpl1 s0) as [[ok1|] s1] eqn:E1;
    [|intros E; inversion E].
  apply parse_tpl1_inv in E1. destruct E1 as [O1 F1].
  destruct ok1; cbn [negb]; [|intros E; inversion E].
  unfold bind at 1.
  destruct (SERParser._parse_ogm1 isalpha s1) as [[ok2|] s2] eqn:E2;
    [|intros E; inversion E].
  apply parse_ogm1_inv in E2; [|rewrite O1, Ho; apply numbered_nil].
  destruct E2 as [N2 F2].
  destruct ok2; cbn [negb]; [|intros E; inversion E].
  unfold bind at 1.
  destruct (SERParser._parse_geometry s2) as [[u3|] s3] eqn:E3;
    [|intros E; inversion E].
  apply parse_geometry_inv in E3. destruct E3 as [F3 O3].
  unfold bind. rewrite build_hierarchy_inv. fold (with_hierarchy s3).
  unfold ret. intros E. inversion E. subst s'. clear E.
  assert (F : frame s0 s3)
    by (eapply frame_trans; [eapply frame_trans|]; eassumption).
  destruct F as (FG & FR & FD).
  rewrite with_hierarchy_objects, with_hierarchy_root.
  exists (SERParser.objects s2).
  destruct O3 as [O3 | (node & O3 & G3 & N3)].
  - exists []. split; [exact N2|]. split; [exact O3|]. split; [auto|].
    destruct (SERParser.objects s3); [congruence | reflexivity].
  - exists [node]. split; [exact N2|]. split; [exact O3|]. split.
    + right. exists node, s2. repeat split; try assumption.
      destruct F1 as (A1 & _), F2 as (A2 & _). congruence.
    + rewrite O3. reflexivity.
Qed.

Lemma uids_leaf n : children n = [] -> uids n = [uid n].
Proof. destruct n. cbn. intros ->. reflexivity. Qed.

Lemma uids_numbered objs :
  numbered objs -> flat_map uids objs = map Z.of_nat (seq 0 (List.length objs)).
Proof.
  intros [Hu Hc]. rewrite <- Hu. clear Hu.
  induction Hc as [|n objs [Hn _] _ IH]; [reflexivity|].
  cbn [flat_map map]. rewrite (uids_leaf _ Hn), IH. reflexivity.
Qed.

Lemma NoDup_numbers (n : nat) : NoDup (-1 :: map Z.of_nat (seq 0 n)).
Proof.
  constructor.
  - rewrite in_map_iff. intros (k & Hk & _). lia.
  - apply Injective_map_NoDup; [|apply seq_NoDup].
    intros x y H. lia.
Qed.

Lemma mesh_nodes_leaf n :
  children n = [] -> mesh n = None -> get_all_mesh_nodes n = [].
Proof. destruct n. cbn. intros -> ->. reflexivity. Qed.

Lemma mesh_nodes_numbered objs :
  numbered objs -> flat_map get_all_mesh_nodes objs = [].
Proof.
  intros [_ Hc]. induction Hc as [|n objs [Hn Hm] _ IH]; [reflexivity|].
  cbn [flat_map]. rewrite (mesh_nodes_leaf _ Hn Hm), IH. reflexivity.
Qed.

Lemma parse_faces_sound data fo maxv (n : nat) : forall i acc fs,
  Forall (fun f => a f < maxv /\ b f < maxv /\ c f < maxv) acc ->
  SERParser.parse_faces data fo maxv n i acc = Some fs ->
  Forall (fun f => a f < maxv /\ b f < maxv /\ c f < maxv) fs.
Proof.
  induction n as [|n IH]; intros i acc fs Hacc.
  - cbn. intros E. inversion E. subst. exact Hacc.
  - cbn [SERParser.parse_faces].
    destruct (fo + i * 6 + 6 >? len data).
    + intros E. inversion E. subst. exact Hacc.
    + destruct (SERParser.unpack_from_HHH data (fo + i * 6)) as [[[x y] z]|];
        cbn [obind]; [|discriminate].
      destruct ((x <? maxv) && (y <? maxv) && (z <? maxv)) eqn:K.
      * apply IH. apply Forall_app. split; [exact Hacc|].
        constructor; [|constructor]. cbn.
        rewrite !andb_true_iff, !Z.ltb_lt in K. tauto.
      * apply IH. exact Hacc.
Qed.

Lemma geometry_node_faces s node :
  SERParser.geometry_node s = Some node ->
  exists m, node = Build_TPLNode 0 (lit "mesh") Matrix4_identity
                                 Matrix4_identity (Some m) [] []
            /\ faces_in_range m.
Proof.
  unfold SERParser.geometry_node.
  destruct (SERParser.boundaries s) as [[vde fo]|]; cbn [obind]; [|discriminate].
  destruct (SERParser.parse_vertices _ _ _ _ _) as [m|]; cbn [obind]; [|discriminate].
  destruct (SERParser.parse_faces _ _ _ _ _ _) as [fs|] eqn:F; cbn [obind];
    [|discriminate].
  intros E. inversion E. subst. eexists. split; [reflexivity|].
  unfold faces_in_range. cbn.
  eapply parse_faces_sound; [|exact F]. constructor.
Qed.

(* ------------------------------------------------------------------ *)
(** ** Uids *)

(** C3 as stated fails on [usf_twins]: the USF parser keeps the uids of
    the file, and here the root and its child both carry 7. *)
Lemma usf_twins_share_uid :
  USFParser._parse 1000 USFParser.__init__ (BytesIO_new Samples.usf_twins)
  = (true, {| USFParser.version := 150; USFParser.source_path := [];
              USFParser.file_type := [];
              USFParser.root := Some Samples.usf_twins_tree |})
  /\ uids Samples.usf_twins_tree = [7; 7]
  /\ ~ NoDup (uids Samples.usf_twins_tree).
Proof.
  split; [vm_compute; reflexivity|].
  split; [vm_compute; reflexivity|].
  change (uids Samples.usf_twins_tree) with [7; 7].
  intros H. inversion H as [|x l Hin _]. apply Hin. left. reflexivity.
Qed.

(** With a geometry blob the 1SER tree repeats uid 0: the mesh node and
    the first named object both carry it. *)
Remark ser_mesh_node_shares_uid :
  SERParser.root (snd (SERParser._parse Samples.ascii_isalpha
                         (Samples.ser_parser Samples.ser_two_names
                                             Samples.ser_blob)))
  = Some Samples.ser_with_blob_tree
  /\ uids Samples.ser_with_blob_tree = [-1; 0; 0; 1].
Proof. split; vm_compute; reflexivity. Qed.

(** C3, as the code has it.  In the tree that the 1SER parser returns for
    a container without geometry blob the uids are pairwise distinct: -1
    for the synthetic root and 0, 1, 2, ... for the named objects, in the
    order of their discovery. *)
Theorem ser_names_have_distinct_uids isalpha (d : bytes) (t : TPLNode) :
  let run := SERParser._parse isalpha (Samples.ser_parser d []) in
  fst run = true ->
  SERParser.root (snd run) = Some t ->
  NoDup (uids t)
  /\ uids t = -1 :: map Z.of_nat (seq 0 (List.length (children t))).
Proof.
  intros run Hok Hroot.
  destruct run as [ok s'] eqn:R. cbn in Hok, Hroot. subst ok.
  apply ser_parse_shape in R; [|reflexivity|reflexivity].
  destruct R as (objs & extra & Hn & Ho & He & Hr).
  destruct He as [-> | (node & s1 & _ & G & _)]; [|cbn in G; congruence].
  cbn [app] in Ho. rewrite Ho, Hroot in Hr.
  destruct objs as [|o objs]; [discriminate|].
  inversion Hr. subst t. clear Hr.
  assert (E : uids (ser_root (o :: objs))
              = -1 :: map Z.of_nat (seq 0 (List.length (o :: objs)))).
  { unfold ser_root. cbn [uids]. rewrite (uids_numbered Hn). reflexivity. }
  split; [rewrite E; apply NoDup_numbers | exact E].
Qed.

Lemma ser_names_have_distinct_uids_witness :
  NoDup (uids Samples.ser_two_names_tree)
  /\ uids Samples.ser_two_names_tree
     = -1 :: map Z.of_nat
                 (seq 0 (List.length (children Samples.ser_two_names_tree))).
Proof.
  apply (@ser_names_have_distinct_uids Samples.ascii_isalpha
           Samples.ser_two_names Samples.ser_two_names_tree).
  - vm_compute. reflexivity.
  - vm_compute. reflexivity.
Defined.

(* ------------------------------------------------------------------ *)
(** ** Face indices *)

(** C7 as stated fails on [usf_twins]: the USF parser stores the material
    index 5 as index [a] of a face in a mesh that has no vertex. *)
Lemma usf_face_index_unchecked :
  USFParser.root
    (snd (USFParser._parse 1000 USFParser.__init__
                           (BytesIO_new Samples.usf_twins)))
  = Some Samples.usf_twins_tree
  /\ ~ Forall faces_in_range (all_meshes Samples.usf_twins_tree).
Proof.
  split; [vm_compute; reflexivity|].
  intros H. vm_compute in H.
  inversion H as [|m l Hm _]. inversion Hm as [|f fs Hf _].
  cbn in Hf. destruct Hf as [Ha _]. discriminate Ha.
Qed.

(** C7, as the code has it.  In every mesh of a tree that the 1SER
    parser returns, the indices of every face are below the number of
    vertices; and the face loop never aborts: it keeps, in order, exactly
    the records whose three indices are below that number and drops the
    others. *)
Theorem ser_faces_in_range isalpha (d g : bytes) (t : TPLNode) :
  let run := SERParser._parse isalpha (Samples.ser_parser d g) in
  fst run = true ->
  SERParser.root (snd run) = Some t ->
  Forall faces_in_range (all_meshes t)
  /\ (forall data face_offset max_vertex_idx n,
         0 <= face_offset ->
         SERParser.parse_faces data face_offset max_vertex_idx n 0 []
         = Some (map face_of
                     (filter (face_kept max_vertex_idx)
                             (face_records data face_offset n)))).
Proof.
  intros run Hok Hroot. split.
  - destruct run as [ok s'] eqn:R. cbn in Hok, Hroot. subst ok.
    apply ser_parse_shape in R; [|reflexivity|reflexivity].
    destruct R as (objs & extra & Hn & Ho & He & Hr).
    rewrite Ho, Hroot in Hr.
    destruct He as [-> | (node & s1 & -> & _ & G)].
    + cbn [app] in Hr. destruct objs as [|o objs]; [discriminate|].
      inversion Hr. subst t. unfold all_meshes, ser_root.
      cbn [get_all_mesh_nodes app]. rewrite (mesh_nodes_numbered Hn).
      constructor.
    + cbn [app] in Hr. inversion Hr. subst t.
      apply geometry_node_faces in G. destruct G as (m & -> & Hm).
      unfold all_meshes, ser_root. cbn [get_all_mesh_nodes app flat_map].
      rewrite (mesh_nodes_numbered Hn). cbn.
      constructor; [exact Hm | constructor].
  - intros data fo maxv n Hfo.
    pose proof (@parse_faces_spec data fo maxv n 0 [] Hfo) as H.
    cbn [Z.of_nat app] in H. rewrite H. unfold face_records, avail.
    rewrite Nat.sub_0_r. reflexivity.
Qed.

Lemma ser_faces_in_range_witness :
  Forall faces_in_range (all_meshes Samples.ser_with_blob_tree)
  /\ (forall data face_offset max_vertex_idx n,
         0 <= face_offset ->
         SERParser.parse_faces data face_offset max_vertex_idx n 0 []
         = Some (map face_of
                     (filter (face_kept max_vertex_idx)
                             (face_records data face_offset n)))).
Proof.
  apply (@ser_faces_in_range Samples.ascii_isalpha Samples.ser_two_names
           Samples.ser_blob Samples.ser_with_blob_tree).
  - vm_compute. reflexivity.
  - vm_compute. reflexivity.
Defined.

(* ------------------------------------------------------------------ *)
(** ** Face-offset discovery *)

Lemma align6_nonneg p : 0 <= p -> 0 <= align6 p.
Proof.
  intros H. unfold align6.
  assert (0 <= p / 6) by (apply Z.div_pos; lia). lia.
Qed.

(** The candidate loop returns the first candidate, in list order, whose
    aligned offset scores above 80, and 0 when there is none. *)
Lemma try_positions_spec data (ps : list Z) :
  Forall (fun p => 0 <= p) ps ->
  SERParser.try_positions data ps
  = Some (match List.find (fun p => 80 <? score data (align6 p)) ps with
          | Some p => align6 p
          | None => 0
          end).
Proof.
  induction 1 as [|p ps Hp _ IH]; [reflexivity|].
  cbn [SERParser.try_positions List.find]. fold (align6 p).
  rewrite (count_valid_score data (align6_nonneg Hp)). cbn [obind].
  rewrite Z.gtb_ltb.
  destruct (80 <? score data (align6 p)); [reflexivity | exact IH].
Qed.

(** C5, as the code has it.  With [p1], [p2], [p3], [p4] the integer
    parts of the binary64 products of the blob length with 0.8, 0.85, 0.9
    and 0.7, the candidates are these offsets aligned down to a multiple
    of 6, tried in this order; the score of a candidate counts, among the
    at most 100 successive 6-byte records from it that fit in the blob,
    those whose three unsigned 16-bit indices are pairwise distinct (and
    below 100000); the first candidate that scores more than 80 is the
    face-region start; with no such candidate the search yields 0 and
    the vertex/face boundary is [p3], 90% of the blob length. *)
Theorem face_offset_discovery (self : SERParser.t) (p1 p2 p3 p4 : Z) :
  let data := SERParser.tpl_geom_data self in
  SERParser.int_scaled (len data) 0.8 = Some p1 ->
  SERParser.int_scaled (len data) 0.85 = Some p2 ->
  SERParser.int_scaled (len data) 0.9 = Some p3 ->
  SERParser.int_scaled (len data) 0.7 = Some p4 ->
  0 <= p1 -> 0 <= p2 -> 0 <= p3 -> 0 <= p4 ->
  let found :=
    match List.find (fun p => 80 <? score data (align6 p)) [p1; p2; p3; p4] with
    | Some p => align6 p
    | None => 0
    end in
  SERParser._find_face_data_offset self = Some found
  /\ SERParser.boundaries self
     = Some (if found >? 0 then (found, found) else (p3, p3)).
Proof.
  intros data H1 H2 H3 H4 G1 G2 G3 G4 found.
  assert (E : SERParser._find_face_data_offset self = Some found).
  { unfold SERParser._find_face_data_offset. fold data.
    rewrite H1, H2, H3, H4. cbn [obind].
    apply try_positions_spec. repeat constructor; assumption. }
  split; [exact E|].
  unfold SERParser.boundaries. rewrite E. cbn [obind]. fold data.
  destruct (found >? 0); [reflexivity|]. rewrite H3. reflexivity.
Qed.

Lemma face_offset_discovery_witness :
  SERParser._find_face_data_offset
    (Samples.with_geom (Samples.blob_with_valid 81)) = Some 4800
  /\ SERParser.boundaries (Samples.with_geom (Samples.blob_with_valid 81))
     = Some (4800, 4800).
Proof.
  apply (@face_offset_discovery
           (Samples.with_geom (Samples.blob_with_valid 81))
           4800 5100 5400 4200);
    first [ vm_compute; reflexivity | lia ].
Defined.

(** C5 as stated fails on a blob whose candidate at 80% of the length has
    exactly 80 valid records: the stated rule takes offset 4800, the code
    takes none and falls back to 5400. *)
Lemma exactly_80_valid_not_accepted :
  score (Samples.blob_with_valid 80) 4800 = 80
  /\ Stated.find_face_data_offset (Samples.blob_with_valid 80) = Some 4800
  /\ SERParser._find_face_data_offset
       (Samples.with_geom (Samples.blob_with_valid 80)) = Some 0
  /\ SERParser.boundaries (Samples.with_geom (Samples.blob_with_valid 80))
     = Some (5400, 5400)
  /\ SERParser._find_face_data_offset
       (Samples.with_geom (Samples.blob_with_valid 80))
     <> Stated.find_face_data_offset (Samples.blob_with_valid 80).
Proof.
  assert (E1 : Stated.find_face_data_offset (Samples.blob_with_valid 80)
               = Some 4800) by (vm_compute; reflexivity).
  assert (E2 : SERParser._find_face_data_offset
                 (Samples.with_geom (Samples.blob_with_valid 80)) = Some 0)
    by (vm_compute; reflexivity).
  split; [vm_compute; reflexivity|].
  split; [exact E1|].
  split; [exact E2|].
  split; [vm_compute; reflexivity|].
  rewrite E1, E2. discriminate.
Qed.

(* ------------------------------------------------------------------ *)
(** ** Object-name recovery *)

(** What [_read_string] returns with a non-empty name: a 4-byte length in
    (0, 256], then that many bytes of well-formed UTF-8 inside the
    buffer; the name is the text without its trailing NULs and the
    position is the one after the payload. *)
Lemma read_string_candidate self pos name new_pos :
  SERParser._read_string self pos = (name, new_pos) ->
  name <> [] ->
  let data := SERParser.tpl_data self in
  let length := le_uint (slice data pos (pos + 4)) in
  pos + 4 <= len data
  /\ 0 < length <= 256
  /\ new_pos = pos + 4 + length
  /\ new_pos <= len data
  /\ exists s, decode_strict (slice data (pos + 4) (pos + 4 + length)) = Some s
               /\ name = rstrip_nul s.
Proof.
  intros E Hne data length. unfold SERParser._read_string in E.
  fold data in E. fold length in E.
  destruct (pos + 4 >? len data) eqn:E1;
    [inversion E; subst; contradiction|].
  destruct ((length >? 256) || (length =? 0)) eqn:E2;
    [inversion E; subst; contradiction|].
  destruct (pos + 4 + length >? len data) eqn:E3;
    [inversion E; subst; contradiction|].
  destruct (decode_strict (slice data (pos + 4) (pos + 4 + length)))
    as [s|] eqn:E4; [|inversion E; subst; contradiction].
  inversion E. subst. clear E.
  apply orb_false_iff in E2. destruct E2 as [E2a E2b].
  rewrite Z.gtb_ltb, Z.ltb_ge in E1, E2a, E3.
  apply Z.eqb_neq in E2b.
  assert (0 <= length).
  { unfold length. generalize (slice data pos (pos + 4)).
    induction l as [|x l IH]; cbn [le_uint]; [lia|].
    unfold byte_val. lia. }
  repeat split; try lia. exists s. auto.
Qed.

Lemma name_ok_iff isalpha name :
  SERParser.name_ok isalpha name = true <-> name_taken isalpha name.
Proof.
  unfold SERParser.name_ok, name_taken.
  destruct name as [|c0 name'].
  - split; [discriminate|]. cbn. lia.
  - rewrite !andb_true_iff, Z.gtb_ltb, !Z.ltb_lt, existsb_exists. tauto.
Qed.

(** C8 as stated fails on [ser_one_letter]: the candidate at offset 130
    is the one-letter name "A", whose length lies in (0, 100) and which
    is alphabetic, yet the round moves on by one byte and the parse
    recovers no object. *)
Lemma one_letter_name_not_taken :
  SERParser._read_string (Samples.ser_parser Samples.ser_one_letter []) 130
  = (lit "A", 135)
  /\ Stated.name_ok Samples.ascii_isalpha (lit "A") = true
  /\ SERParser.name_ok Samples.ascii_isalpha (lit "A") = false
  /\ SERParser._parse_object_names_loop
       Samples.ascii_isalpha 1 151 130
       (Samples.ser_parser Samples.ser_one_letter [])
     = SERParser._parse_object_names_loop
         Samples.ascii_isalpha 0 151 131
         (Samples.ser_parser Samples.ser_one_letter [])
  /\ SERParser.objects
       (snd (SERParser._parse Samples.ascii_isalpha
               (Samples.ser_parser Samples.ser_one_letter []))) = [].
Proof. repeat split; vm_compute; reflexivity. Qed.

(** The fuel that [_parse_object_names] gives its loop is enough: more
    fuel changes nothing, so the loop is the [while] of the source. *)
Lemma names_loop_fuel isalpha (f1 : nat) : forall (f2 : nat) ogm1_end pos s,
  (Z.to_nat (ogm1_end - 10 - pos) <= f1)%nat ->
  (Z.to_nat (ogm1_end - 10 - pos) <= f2)%nat ->
  SERParser._parse_object_names_loop isalpha f1 ogm1_end pos s
  = SERParser._parse_object_names_loop isalpha f2 ogm1_end pos s.
Proof.
  induction f1 as [|f1 IH]; intros f2 ogm1_end pos s H1 H2.
  - destruct f2 as [|f2]; [reflexivity|].
    cbn [SERParser._parse_object_names_loop].
    destruct (pos <? ogm1_end - 10) eqn:E; [|reflexivity].
    apply Z.ltb_lt in E. lia.
  - destruct f2 as [|f2].
    + cbn [SERParser._parse_object_names_loop].
      destruct (pos <? ogm1_end - 10) eqn:E; [|reflexivity].
      apply Z.ltb_lt in E. lia.
    + cbn [SERParser._parse_object_names_loop].
      destruct (pos <? ogm1_end - 10) eqn:E; [|reflexivity].
      apply Z.ltb_lt in E.
      unfold bind at 1 3. unfold get at 1 2.
      destruct (SERParser._read_string s pos) as [nm np] eqn:R.
      destruct (SERParser.name_ok isalpha nm) eqn:K.
      * assert (Hne : nm <> []) by (intros ->; discriminate K).
        destruct (read_string_candidate _ _ R Hne) as (_ & B & C & _).
        unfold bind, modify. apply IH; lia.
      * apply IH; lia.
Qed.

(* ================================================================== *)
(** * Rounding to binary64 *)

Unset Implicit Arguments.

Lemma fexp_eq e : fexp prec emax e = Z.max (e - 53) (-1074).
Proof. reflexivity. Qed.

Lemma digits2_pos_bounds (m : positive) :
  2 ^ (Z.pos (digits2_pos m) - 1) <= Z.pos m < 2 ^ Z.pos (digits2_pos m).
Proof.
  induction m as [m IH|m IH|]; cbn [digits2_pos].
  - rewrite Pos2Z.inj_succ.
    replace (Z.succ (Z.pos (digits2_pos m)) - 1) with (Z.succ (Z.pos (digits2_pos m) - 1)) by lia.
    rewrite !Z.pow_succ_r by lia. rewrite (Pos2Z.inj_xI m). plia.
  - rewrite Pos2Z.inj_succ.
    replace (Z.succ (Z.pos (digits2_pos m)) - 1) with (Z.succ (Z.pos (digits2_pos m) - 1)) by lia.
    rewrite !Z.pow_succ_r by lia. rewrite (Pos2Z.inj_xO m). plia.
  - cbn. lia.
Qed.

Lemma digits_pos m : 0 < m -> 2 ^ (digits m - 1) <= m < 2 ^ digits m /\ 0 < digits m.
Proof.
  destruct m as [|p|p]; try lia. intros _. unfold digits. cbn [Zdigits2].
  split; [apply digits2_pos_bounds | lia].
Qed.

(** [digits] is determined by the bracket of powers of two. *)
Lemma digits_unique m d : 0 < d -> 2 ^ (d - 1) <= m < 2 ^ d -> digits m = d.
Proof.
  intros Hd [Hlo Hhi].
  assert (0 < m) by (assert (0 < 2 ^ (d - 1)) by (apply Z.pow_pos_nonneg; lia); lia).
  destruct (digits_pos m H) as [[Dlo Dhi] Dp].
  destruct (Z.lt_trichotomy (digits m) d) as [L|[E|G]]; [|exact E|].
  - assert (2 ^ digits m <= 2 ^ (d - 1)) by (apply Z.pow_le_mono_r; lia). lia.
  - assert (2 ^ d <= 2 ^ (digits m - 1)) by (apply Z.pow_le_mono_r; lia). lia.
Qed.

Lemma digits_mul_pow2 m k : 0 < m -> 0 <= k -> digits (m * 2 ^ k) = digits m + k.
Proof.
  intros Hm Hk. destruct (digits_pos m Hm) as [[Dlo Dhi] Dp].
  apply digits_unique; [lia|].
  replace (digits m + k - 1) with ((digits m - 1) + k) by lia.
  rewrite !Z.pow_add_r by lia.
  assert (0 < 2 ^ k) by (apply Z.pow_pos_nonneg; lia).
  split; [apply Z.mul_le_mono_nonneg_r; lia | apply Z.mul_lt_mono_pos_r; lia].
Qed.

Lemma digits_div_pow2 m k :
  0 <= k -> 2 ^ k <= m -> digits (m / 2 ^ k) = digits m - k.
Proof.
  intros Hk Hm.
  assert (P : 0 < 2 ^ k) by (apply Z.pow_pos_nonneg; lia).
  assert (Hm0 : 0 < m) by lia.
  destruct (digits_pos m Hm0) as [[Dlo Dhi] Dp].
  assert (k < digits m).
  { destruct (Z.lt_ge_cases k (digits m)) as [L|G]; [exact L|].
    assert (2 ^ digits m <= 2 ^ k) by (apply Z.pow_le_mono_r; lia). lia. }
  apply digits_unique; [lia|]. split.
  - apply Z.div_le_lower_bound; [exact P|].
    rewrite <- Z.pow_add_r by lia. replace (k + (digits m - k - 1)) with (digits m - 1) by lia.
    exact Dlo.
  - apply Z.div_lt_upper_bound; [exact P|].
    rewrite <- Z.pow_add_r by lia. replace (k + (digits m - k)) with (digits m) by lia.
    exact Dhi.
Qed.

Lemma iter_pos_nat {A} (f : A -> A) (p : positive) : forall x,
  iter_pos f p x = Nat.iter (Pos.to_nat p) f x.
Proof.
  induction p as [p IH|p IH|]; intros x; cbn [iter_pos].
  - rewrite !IH, Pos2Nat.inj_xI, <- Nat.iter_add, <- Nat.iter_succ_r.
    f_equal. lia.
  - rewrite !IH, Pos2Nat.inj_xO, <- Nat.iter_add. f_equal. lia.
  - reflexivity.
Qed.

Lemma shr_1_nonneg mrs :
  0 <= shr_m mrs ->
  shr_1 mrs = {| shr_m := shr_m mrs / 2; shr_r := Z.odd (shr_m mrs);
                 shr_s := shr_r mrs || shr_s mrs |}.
Proof.
  destruct mrs as [m r s]. cbn [shr_m shr_r shr_s]. intros Hm.
  rewrite <- Z.div2_div.
  destruct m as [|[p|p|]|]; try lia; reflexivity.
Qed.

Lemma shr_iter (k : nat) m :
  0 <= m ->
  shr_m (shr_n k m) = m / 2 ^ Z.of_nat k
  /\ (m mod 2 ^ Z.of_nat k = 0 ->
      shr_r (shr_n k m) = false /\ shr_s (shr_n k m) = false).
Proof.
  intros Hm. induction k as [|k IH].
  - cbn. rewrite Z.div_1_r. auto.
  - unfold shr_n in *. rewrite Nat.iter_succ. destruct IH as [IHm IHrs].
    set (r := Nat.iter k shr_1 _) in *.
    assert (Hk : 0 < 2 ^ Z.of_nat k) by (apply Z.pow_pos_nonneg; lia).
    assert (Hr : 0 <= shr_m r) by (rewrite IHm; apply Z.div_pos; lia).
    rewrite (shr_1_nonneg r Hr). cbn [shr_m shr_r shr_s].
    rewrite Nat2Z.inj_succ, Z.pow_succ_r by lia.
    split.
    + rewrite IHm, Z.div_div by lia. f_equal. lia.
    + intros Hmod.
      apply Z.mod_divide in Hmod; [|lia]. destruct Hmod as [q Hq].
      assert (Hm' : m = (2 * q) * 2 ^ Z.of_nat k) by lia.
      assert (Hmod' : m mod 2 ^ Z.of_nat k = 0).
      { rewrite Hm'. apply Z.mod_mul. lia. }
      destruct (IHrs Hmod') as [-> ->]. split; [|reflexivity].
      rewrite IHm, Hm', Z.div_mul by lia.
      rewrite Z.odd_mul. reflexivity.
Qed.

(** The first step of rounding: [shr_fexp] on an exact mantissa that has
    at least the digits of its format. *)
Lemma shr_fexp_exact m e :
  0 <= m ->
  let n := fexp prec emax (digits m + e) - e in
  0 <= n ->
  let '(r, e') := shr_fexp prec emax m e loc_Exact in
  e' = e + n /\ shr_m r = m / 2 ^ n
  /\ (m mod 2 ^ n = 0 -> loc_of_shr_record r = loc_Exact).
Proof.
  intros Hm n Hn. unfold shr_fexp, shr. fold (digits m). fold n.
  cbn [shr_record_of_loc].
  destruct n as [|p|p] eqn:En; try lia.
  - rewrite Z.add_0_r, Z.div_1_r. cbn. auto.
  - rewrite iter_pos_nat.
    pose proof (shr_iter (Pos.to_nat p) m Hm) as H. unfold shr_n in H.
    rewrite positive_nat_Z in H. destruct H as [H1 H2].
    split; [reflexivity|]. split; [exact H1|].
    intros Hmod. destruct (H2 Hmod) as [Hr Hs].
    destruct (Nat.iter _ _ _) as [m' r' s']. cbn in Hr, Hs. subst. reflexivity.
Qed.

Lemma round_nearest_even_bounds m l :
  m <= round_nearest_even m l <= m + 1.
Proof.
  unfold round_nearest_even.
  destruct l as [|[| |]]; try lia. destruct (Z.even m); lia.
Qed.

Lemma pow2_pos k : 0 <= k -> 0 < 2 ^ k.
Proof. intros. apply Z.pow_pos_nonneg; lia. Qed.

(** A mantissa whose low [n] bits are clear, with the exponent that
    [fexp] asks for after [n] shifts: the second step of rounding is
    exact and ends on a canonical pair. *)
Lemma shr_fexp_clean m e :
  0 < m ->
  let n := fexp prec emax (digits m + e) - e in
  0 <= n -> m mod 2 ^ n = 0 ->
  exists r, shr_fexp prec emax m e loc_Exact = (r, e + n)
            /\ shr_m r = m / 2 ^ n /\ 0 < m / 2 ^ n
            /\ m / 2 ^ n * 2 ^ n = m
            /\ fexp prec emax (digits (m / 2 ^ n) + (e + n)) = e + n.
Proof.
  intros Hm n Hn Hmod.
  pose proof (shr_fexp_exact m e (Z.lt_le_incl _ _ Hm)) as H. cbn zeta in H.
  fold n in H. specialize (H Hn).
  destruct (shr_fexp prec emax m e loc_Exact) as [r e'].
  destruct H as (He & Hr & _). subst e'.
  exists r. split; [reflexivity|]. split; [exact Hr|].
  pose proof (pow2_pos n Hn) as Hp.
  assert (Hmul : m / 2 ^ n * 2 ^ n = m).
  { pose proof (Z.div_mod m (2 ^ n)) as D. rewrite Hmod in D. lia. }
  assert (Hq : 0 < m / 2 ^ n).
  { assert (0 <= m / 2 ^ n) by (apply Z.div_pos; lia).
    assert (m / 2 ^ n <> 0) by (intros Q; rewrite Q in Hmul; lia). lia. }
  split; [exact Hq|]. split; [exact Hmul|].
  assert (2 ^ n <= m).
  { set (q := m / 2 ^ n) in *. clearbody q. set (p := 2 ^ n) in *. clearbody p. nia. }
  rewrite digits_div_pow2 by lia.
  replace (digits m - n + (e + n)) with (digits m + e) by lia.
  unfold n. lia.
Qed.

Lemma first_shift_settled mx ex :
  0 < mx ->
  let n := fexp prec emax (digits mx + ex) - ex in
  0 <= n -> settled (mx / 2 ^ n) (ex + n).
Proof.
  intros Hm n Hn. pose proof (pow2_pos n Hn) as Hp.
  destruct (digits_pos mx Hm) as [[Dlo Dhi] Dp].
  destruct (Z.le_gt_cases (2 ^ n) mx) as [L|G].
  - left. split; [apply Z.div_str_pos; lia|].
    rewrite digits_div_pow2 by lia.
    replace (digits mx - n + (ex + n)) with (digits mx + ex) by lia.
    unfold n. lia.
  - right. split; [apply Z.div_small; lia|].
    assert (digits mx <= n).
    { destruct (Z.le_gt_cases (digits mx) n) as [A|B]; [exact A|].
      assert (2 ^ n <= 2 ^ (digits mx - 1)) by (apply Z.pow_le_mono_r; lia).
      lia. }
    unfold n in *. rewrite fexp_eq in *. lia.
Qed.

(** Rounding up by at most one keeps the pair within reach of a clean
    second shift. *)
Lemma round_up_clean m1 e1 m2 :
  settled m1 e1 -> m1 <= m2 <= m1 + 1 -> 0 < m2 ->
  let n := fexp prec emax (digits m2 + e1) - e1 in
  0 <= n /\ m2 mod 2 ^ n = 0.
Proof.
  intros [[Hm1 Hc] | [-> ->]] Hm2 Hpos n.
  - destruct (digits_pos m1 Hm1) as [[Dlo Dhi] Dp].
    rewrite fexp_eq in Hc.
    destruct (Z.eq_dec m2 (2 ^ digits m1)) as [E|NE].
    + (* the mantissa reached the next power of two *)
      assert (Hd : digits m2 = digits m1 + 1).
      { apply digits_unique; [lia|].
        replace (digits m1 + 1 - 1) with (digits m1) by lia.
        rewrite Z.pow_add_r by lia. rewrite E.
        pose proof (pow2_pos (digits m1) (Z.lt_le_incl _ _ Dp)). lia. }
      unfold n. rewrite Hd, fexp_eq.
      destruct (Z.eq_dec (digits m1) 53) as [E53|N53].
      * replace (Z.max (digits m1 + 1 + e1 - 53) (-1074) - e1) with 1 by lia.
        split; [lia|]. rewrite E, E53. reflexivity.
      * replace (Z.max (digits m1 + 1 + e1 - 53) (-1074) - e1) with 0 by lia.
        split; [lia|]. apply Z.mod_1_r.
    + assert (Hd : digits m2 = digits m1) by (apply digits_unique; lia).
      unfold n. rewrite Hd, fexp_eq.
      replace (Z.max (digits m1 + e1 - 53) (-1074) - e1) with 0 by lia.
      split; [lia|]. apply Z.mod_1_r.
  - assert (m2 = 1) by lia. subst m2. unfold n. cbn. split; [lia|reflexivity].
Qed.

Lemma pow2_split a b : 0 <= a <= b -> 2 ^ b = 2 ^ (b - a) * 2 ^ a.
Proof. intros H. rewrite <- Z.pow_add_r by lia. f_equal. lia. Qed.

Lemma pow2_le a b : 0 <= a <= b -> 2 ^ a <= 2 ^ b.
Proof. intros H. apply Z.pow_le_mono_r; lia. Qed.

Lemma pow2_lt a b : 0 <= a < b -> 2 ^ a < 2 ^ b.
Proof. intros H. apply Z.pow_lt_mono_r; lia. Qed.

Lemma shr_fexp_zero e : shr_m (fst (shr_fexp prec emax 0 e loc_Exact)) = 0.
Proof.
  unfold shr_fexp, shr. cbn [shr_record_of_loc Zdigits2].
  destruct (fexp prec emax (0 + e) - e) as [|p|p]; try reflexivity.
  cbn [fst]. rewrite iter_pos_nat.
  pose proof (shr_iter (Pos.to_nat p) 0 (Z.le_refl 0)) as [H _].
  unfold shr_n in H. rewrite H. apply Z.div_0_l.
  pose proof (pow2_pos (Z.of_nat (Pos.to_nat p))). lia.
Qed.

(** Rounding an exact positive value that is at most [2^E]: the result is
    a valid number of the same sign and of magnitude at most [2^E]. *)
Lemma binary_round_aux_upper s mx ex E :
  0 < mx ->
  ex <= fexp prec emax (digits mx + ex) ->
  ex <= E -> mx <= 2 ^ (E - ex) -> -1074 <= E <= 1023 ->
  valid_binary (binary_round_aux prec emax s mx ex loc_Exact) = true
  /\ sign_is s (binary_round_aux prec emax s mx ex loc_Exact)
  /\ le_pow2 E (binary_round_aux prec emax s mx ex loc_Exact).
Proof.
  intros Hm HP HexE Hval HE.
  set (n := fexp prec emax (digits mx + ex) - ex).
  assert (Hn : 0 <= n) by (unfold n; lia).
  destruct (digits_pos mx Hm) as [[Dlo Dhi] Dp].
  (* the exponent after the first shift *)
  assert (He1 : ex + n <= E).
  { unfold n. rewrite fexp_eq.
    assert (digits mx - 1 <= E - ex).
    { destruct (Z.le_gt_cases (digits mx - 1) (E - ex)) as [A|B]; [exact A|].
      assert (2 ^ (E - ex) < 2 ^ (digits mx - 1)) by (apply pow2_lt; lia).
      lia. }
    lia. }
  pose proof (pow2_pos n Hn) as Hpn.
  pose proof (pow2_pos (E - (ex + n)) ltac:(lia)) as Hpe.
  assert (Hsplit : 2 ^ (E - ex) = 2 ^ (E - (ex + n)) * 2 ^ n).
  { rewrite (pow2_split n (E - ex)) by lia. f_equal. f_equal. lia. }
  unfold binary_round_aux.
  pose proof (shr_fexp_exact mx ex (Z.lt_le_incl _ _ Hm)) as H1.
  cbn zeta in H1. fold n in H1. specialize (H1 Hn).
  destruct (shr_fexp prec emax mx ex loc_Exact) as [r1 e1].
  destruct H1 as (-> & Hr1 & Hex1).
  set (m1 := shr_m r1) in *.
  set (m2 := round_nearest_even m1 (loc_of_shr_record r1)).
  pose proof (round_nearest_even_bounds m1 (loc_of_shr_record r1)) as Hb.
  fold m2 in Hb.
  pose proof (first_shift_settled mx ex Hm) as Hset. cbn zeta in Hset.
  fold n in Hset. specialize (Hset Hn). rewrite <- Hr1 in Hset.
  assert (Hm1 : 0 <= m1) by (rewrite Hr1; apply Z.div_pos; lia).
  (* the rounded mantissa stays below the power of two *)
  assert (Hm2 : m2 <= 2 ^ (E - (ex + n))).
  { assert (Hle : m1 <= 2 ^ (E - (ex + n))).
    { rewrite Hr1. apply Z.div_le_upper_bound; [lia|]. lia. }
    destruct (Z.eq_dec m1 (2 ^ (E - (ex + n)))) as [Eq|Ne]; [|lia].
    assert (Hmx : mx = 2 ^ (E - (ex + n)) * 2 ^ n).
    { assert (m1 * 2 ^ n <= mx).
      { rewrite Hr1. rewrite Z.mul_comm. apply Z.mul_div_le. lia. }
      rewrite Eq in H. lia. }
    assert (Hmod : mx mod 2 ^ n = 0) by (rewrite Hmx; apply Z.mod_mul; lia).
    unfold m2. rewrite (Hex1 Hmod). cbn. lia. }
  destruct (Z.eq_dec m2 0) as [Z2|NZ2].
  - (* everything was shifted out *)
    rewrite Z2.
    pose proof (shr_fexp_zero (ex + n)) as H0.
    destruct (shr_fexp prec emax 0 (ex + n) loc_Exact) as [r3 e3].
    cbn [fst] in H0. rewrite H0. cbn. auto.
  - assert (Hpos : 0 < m2) by lia.
    pose proof (round_up_clean m1 (ex + n) m2 Hset Hb Hpos) as Hc.
    cbn zeta in Hc. destruct Hc as [Hn2 Hmod2].
    pose proof (shr_fexp_clean m2 (ex + n) Hpos) as H3. cbn zeta in H3.
    specialize (H3 Hn2 Hmod2).
    set (n2 := fexp prec emax (digits m2 + (ex + n)) - (ex + n)) in *.
    destruct H3 as (r3 & -> & Hr3 & Hq & Hmul & Hcan).
    rewrite Hr3.
    set (m3 := m2 / 2 ^ n2) in *.
    set (e3 := ex + n + n2) in *.
    pose proof (pow2_pos n2 Hn2) as Hpn2.
    destruct (digits_pos m3 Hq) as [[D3lo D3hi] D3p].
    rewrite fexp_eq in Hcan.
    (* the final exponent is at most E *)
    assert (He3 : e3 <= E).
    { destruct (Z.le_gt_cases e3 E) as [A|B]; [exact A|].
      assert (digits m3 = 53) by lia.
      assert (2 ^ 52 <= m3) by (replace 52 with (digits m3 - 1) by lia; exact D3lo).
      assert (2 ^ (E - (ex + n)) < 2 ^ n2) by (apply pow2_lt; unfold e3 in B; lia).
      assert (1 <= m3) by lia.
      assert (2 ^ n2 <= m2) by (rewrite <- Hmul; nia).
      lia. }
    assert (Hm3 : m3 <= 2 ^ (E - e3)).
    { assert (Hs2 : 2 ^ (E - (ex + n)) = 2 ^ (E - e3) * 2 ^ n2).
      { rewrite (pow2_split n2 (E - (ex + n))) by (unfold e3 in He3; lia).
        f_equal. f_equal. unfold e3. lia. }
      rewrite Hs2, <- Hmul in Hm2.
      apply Z.mul_le_mono_pos_r in Hm2; assumption. }
    assert (He971 : e3 <= 971).
    { destruct (Z.eq_dec (digits m3) 53) as [E53|N53]; [|lia].
      assert (2 ^ 52 <= m3) by (replace 52 with (digits m3 - 1) by lia; exact D3lo).
      destruct (Z.le_gt_cases 52 (E - e3)) as [A|B]; [lia|].
      assert (2 ^ (E - e3) < 2 ^ 52) by (apply pow2_lt; lia). lia. }
    destruct m3 as [|p3|p3] eqn:Em3; try lia.
    replace (e3 <=? emax - prec) with true
      by (symmetry; apply Z.leb_le; exact He971).
    cbn [valid_binary sign_is le_pow2]. unfold bounded, canonical_mantissa.
    split; [|split; [reflexivity | split; assumption]].
    apply andb_true_iff. split.
    + apply Z.eqb_eq. rewrite fexp_eq. unfold digits in Hcan. cbn [Zdigits2] in Hcan.
      exact Hcan.
    + apply Z.leb_le. exact He971.
Qed.

Lemma iter_xO m d : Z.pos (Pos.iter xO m d) = Z.pos m * 2 ^ Z.pos d.
Proof.
  induction d as [|d IH] using Pos.peano_ind.
  - cbn [Pos.iter]. rewrite (Pos2Z.inj_xO m). change (2 ^ 1) with 2. lia.
  - rewrite Pos.iter_succ, Pos2Z.inj_succ, Z.pow_succ_r by lia.
    rewrite (Pos2Z.inj_xO (Pos.iter xO m d)), IH. lia.
Qed.

(** [shl_align] moves to the lower exponent and keeps the value. *)
Lemma shl_align_spec m e e' :
  snd (shl_align m e e') = Z.min e e'
  /\ Z.pos (fst (shl_align m e e')) = Z.pos m * 2 ^ (e - Z.min e e').
Proof.
  unfold shl_align. destruct (e' - e) as [|d|d] eqn:E; cbn [fst snd].
  - rewrite Z.min_l by lia. rewrite Z.sub_diag. lia.
  - rewrite Z.min_l by lia. rewrite Z.sub_diag. lia.
  - rewrite Z.min_r by lia. split; [reflexivity|].
    rewrite iter_xO. f_equal. f_equal. lia.
Qed.

Lemma binary_round_upper s m e E :
  e <= E -> Z.pos m <= 2 ^ (E - e) -> -1074 <= E <= 1023 ->
  valid_binary (binary_round prec emax s m e) = true
  /\ sign_is s (binary_round prec emax s m e)
  /\ le_pow2 E (binary_round prec emax s m e).
Proof.
  intros HeE Hval HE. unfold binary_round.
  change (Z.pos (digits2_pos m)) with (digits (Z.pos m)).
  set (e' := fexp prec emax (digits (Z.pos m) + e)).
  destruct (shl_align_spec m e e') as [He Hm].
  destruct (shl_align m e e') as [mz ez]. cbn [fst snd] in He, Hm.
  assert (Hk : 0 <= e - Z.min e e') by lia.
  assert (Hd : digits (Z.pos mz) = digits (Z.pos m) + (e - Z.min e e')).
  { rewrite Hm. apply digits_mul_pow2; lia. }
  apply binary_round_aux_upper; try lia.
  - rewrite Hd, He.
    replace (digits (Z.pos m) + (e - Z.min e e') + Z.min e e')
      with (digits (Z.pos m) + e) by lia.
    fold e'. lia.
  - rewrite Hm, He.
    rewrite (pow2_split (e - Z.min e e') (E - Z.min e e')) by lia.
    replace (E - Z.min e e' - (e - Z.min e e')) with (E - e) by lia.
    apply Z.mul_le_mono_nonneg_r; [|exact Hval].
    pose proof (pow2_pos (e - Z.min e e') Hk). lia.
Qed.

(** A value that fits its format is returned as it is, whatever zeros
    trail its mantissa. *)
Lemma binary_round_aux_exact s (m : positive) e k :
  0 <= k -> fexp prec emax (digits (Z.pos m) + e) = e -> e <= 971 ->
  binary_round_aux prec emax s (Z.pos m * 2 ^ k) (e - k) loc_Exact
  = S754_finite s m e.
Proof.
  intros Hk Hcan He.
  pose proof (pow2_pos k Hk) as Hpk.
  assert (Hmx : 0 < Z.pos m * 2 ^ k) by lia.
  assert (Hd : digits (Z.pos m * 2 ^ k) = digits (Z.pos m) + k)
    by (apply digits_mul_pow2; lia).
  assert (Hn : fexp prec emax (digits (Z.pos m * 2 ^ k) + (e - k)) - (e - k) = k).
  { rewrite Hd. replace (digits (Z.pos m) + k + (e - k)) with (digits (Z.pos m) + e) by lia.
    lia. }
  unfold binary_round_aux.
  pose proof (shr_fexp_exact (Z.pos m * 2 ^ k) (e - k) (Z.lt_le_incl _ _ Hmx)) as H1.
  cbn zeta in H1. rewrite Hn in H1. specialize (H1 Hk).
  destruct (shr_fexp prec emax (Z.pos m * 2 ^ k) (e - k) loc_Exact) as [r1 e1].
  destruct H1 as (-> & Hr1 & Hex1).
  assert (Hne : 2 ^ k <> 0) by lia.
  rewrite Z.div_mul in Hr1 by exact Hne.
  rewrite (Hex1 (Z.mod_mul (Z.pos m) (2 ^ k) Hne)), Hr1.
  cbn [round_nearest_even].
  replace (e - k + k) with e by lia.
  pose proof (shr_fexp_clean (Z.pos m) e ltac:(lia)) as H3. cbn zeta in H3.
  rewrite Hcan, Z.sub_diag in H3.
  specialize (H3 (Z.le_refl 0) (Z.mod_1_r _)).
  destruct H3 as (r3 & -> & Hr3 & _).
  rewrite Hr3, Z.div_1_r.
  replace (e + 0 <=? emax - prec) with true
    by (symmetry; apply Z.leb_le; change (emax - prec) with 971; lia).
  f_equal. lia.
Qed.

(** The conversion of a non-zero integer below [2^53] in magnitude is
    exact. *)
Lemma binary_normalize_small (n : Z) :
  n <> 0 -> Z.abs n < 2 ^ 53 ->
  exists m e, binary_normalize prec emax n 0 false = S754_finite (n <? 0) m e
              /\ bounded prec emax m e = true
              /\ -52 <= e <= 0
              /\ Z.pos m = Z.abs n * 2 ^ (- e).
Proof.
  intros Hn Hb.
  assert (Hgen : forall (s : bool) (p : positive),
             Z.pos p < 2 ^ 53 ->
             exists m e, binary_round prec emax s p 0 = S754_finite s m e
                         /\ bounded prec emax m e = true
                         /\ -52 <= e <= 0 /\ Z.pos m = Z.pos p * 2 ^ (- e)).
  { intros s p Hp. unfold binary_round.
    change (Z.pos (digits2_pos p)) with (digits (Z.pos p)).
    destruct (digits_pos (Z.pos p) ltac:(lia)) as [[Dlo Dhi] Dp].
    assert (Hd : digits (Z.pos p) <= 53).
    { destruct (Z.le_gt_cases (digits (Z.pos p)) 53) as [A|B]; [exact A|].
      assert (2 ^ 53 <= 2 ^ (digits (Z.pos p) - 1)) by (apply pow2_le; lia).
      lia. }
    set (e' := fexp prec emax (digits (Z.pos p) + 0)).
    assert (He' : e' = digits (Z.pos p) - 53) by (unfold e'; rewrite fexp_eq; lia).
    destruct (shl_align_spec p 0 e') as [He Hm].
    destruct (shl_align p 0 e') as [mz ez]. cbn [fst snd] in He, Hm.
    rewrite Z.min_r in He, Hm by lia. subst ez.
    replace (0 - e') with (- e') in Hm by lia.
    assert (Hdz : digits (Z.pos mz) = 53).
    { rewrite Hm, digits_mul_pow2 by lia. lia. }
    assert (Hcan : fexp prec emax (digits (Z.pos mz) + e') = e').
    { rewrite Hdz, fexp_eq. lia. }
    pose proof (binary_round_aux_exact s mz e' 0 (Z.le_refl 0) Hcan ltac:(lia)) as Hx.
    rewrite Z.mul_1_r, Z.sub_0_r in Hx.
    exists mz, e'. split; [exact Hx|]. split; [|split; [lia | exact Hm]].
    unfold bounded, canonical_mantissa. apply andb_true_iff. split.
    - apply Z.eqb_eq. exact Hcan.
    - apply Z.leb_le. change (emax - prec) with 971. lia. }
  destruct n as [|p|p]; [contradiction| |]; cbn [binary_normalize Z.ltb Z.compare Z.abs] in *.
  - apply Hgen. exact Hb.
  - apply Hgen. exact Hb.
Qed.

(** What a valid finite number says about its mantissa and exponent. *)
Lemma bounded_inv m e :
  bounded prec emax m e = true ->
  fexp prec emax (digits (Z.pos m) + e) = e /\ -1074 <= e <= 971
  /\ Z.pos m < 2 ^ 53 /\ (e <> -1074 -> 2 ^ 52 <= Z.pos m).
Proof.
  unfold bounded, canonical_mantissa. rewrite andb_true_iff, Z.eqb_eq, Z.leb_le.
  change (emax - prec) with 971. change (Z.pos (digits2_pos m)) with (digits (Z.pos m)).
  intros [Hc He]. split; [exact Hc|].
  destruct (digits_pos (Z.pos m) ltac:(lia)) as [[Dlo Dhi] Dp].
  rewrite fexp_eq in Hc.
  assert (digits (Z.pos m) <= 53) by lia.
  split; [lia|]. split.
  - assert (2 ^ digits (Z.pos m) <= 2 ^ 53) by (apply pow2_le; lia). lia.
  - intros Hne. assert (digits (Z.pos m) = 53) by lia.
    replace 52 with (digits (Z.pos m) - 1) by lia. exact Dlo.
Qed.

(** The subtraction of two finite numbers rounds the exact difference of
    the aligned mantissas. *)
Lemma SFsub_finite s1 m1 e1 s2 m2 e2 :
  let ez := Z.min e1 e2 in
  SFsub prec emax (S754_finite s1 m1 e1) (S754_finite s2 m2 e2)
  = binary_normalize prec emax
      (cond_Zopp s1 (Z.pos m1 * 2 ^ (e1 - ez))
       - cond_Zopp s2 (Z.pos m2 * 2 ^ (e2 - ez))) ez false.
Proof.
  intros ez. cbn [SFsub]. fold ez.
  destruct (shl_align_spec m1 e1 ez) as [_ H1].
  destruct (shl_align_spec m2 e2 ez) as [_ H2].
  rewrite H1, H2.
  replace (Z.min e1 ez) with ez by (unfold ez; lia).
  replace (Z.min e2 ez) with ez by (unfold ez; lia).
  reflexivity.
Qed.

Lemma SFadd_finite s1 m1 e1 s2 m2 e2 :
  let ez := Z.min e1 e2 in
  SFadd prec emax (S754_finite s1 m1 e1) (S754_finite s2 m2 e2)
  = binary_normalize prec emax
      (cond_Zopp s1 (Z.pos m1 * 2 ^ (e1 - ez))
       + cond_Zopp s2 (Z.pos m2 * 2 ^ (e2 - ez))) ez false.
Proof.
  intros ez. cbn [SFadd]. fold ez.
  destruct (shl_align_spec m1 e1 ez) as [_ H1].
  destruct (shl_align_spec m2 e2 ez) as [_ H2].
  rewrite H1, H2.
  replace (Z.min e1 ez) with ez by (unfold ez; lia).
  replace (Z.min e2 ez) with ez by (unfold ez; lia).
  reflexivity.
Qed.

(** Rounding an exact value [t 2^ez] of magnitude at most [2^E]. *)
Lemma binary_normalize_upper t ez E :
  ez <= E -> Z.abs t <= 2 ^ (E - ez) -> -1074 <= E <= 1023 ->
  valid_binary (binary_normalize prec emax t ez false) = true
  /\ le_pow2 E (binary_normalize prec emax t ez false)
  /\ (0 <= t -> sign_is false (binary_normalize prec emax t ez false)).
Proof.
  intros He Ht HE. destruct t as [|p|p]; cbn [binary_normalize].
  - cbn. auto.
  - destruct (binary_round_upper false p ez E He Ht HE) as (A & B & C). auto.
  - destruct (binary_round_upper true p ez E He Ht HE) as (A & B & C).
    split; [exact A|]. split; [exact C|]. lia.
Qed.

Lemma unit_of_upper x :
  valid_binary x = true -> le_pow2 0 x -> sign_is false x -> unit_sf x.
Proof.
  intros Hv Hl Hs. split; [exact Hv|].
  destruct x as [s|s| |s m e]; cbn in *; try contradiction; [exact I|].
  subst s. exact Hl.
Qed.

(** A valid integer-valued number converts back to itself. *)
Lemma binary_normalize_integer s m e :
  bounded prec emax m e = true -> 0 <= e ->
  binary_normalize prec emax (cond_Zopp s (Z.pos m * 2 ^ e)) 0 false
  = S754_finite s m e.
Proof.
  intros Hb He. destruct (bounded_inv m e Hb) as (Hc & Hr & Hm & Hn).
  pose proof (pow2_pos e He) as Hp.
  assert (Hgen : forall p, Z.pos p = Z.pos m * 2 ^ e ->
                           binary_round prec emax s p 0 = S754_finite s m e).
  { intros p Hp'. unfold binary_round.
    change (Z.pos (digits2_pos p)) with (digits (Z.pos p)).
    assert (Hd : digits (Z.pos p) = digits (Z.pos m) + e)
      by (rewrite Hp'; apply digits_mul_pow2; lia).
    set (e' := fexp prec emax (digits (Z.pos p) + 0)).
    assert (He' : e' = e).
    { unfold e'. rewrite Hd, Z.add_0_r. exact Hc. }
    destruct (shl_align_spec p 0 e') as [A B].
    destruct (shl_align p 0 e') as [mz ez]. cbn [fst snd] in A, B.
    rewrite Z.min_l in A, B by lia. subst ez.
    rewrite Z.sub_diag, Z.mul_1_r in B. rewrite B, Hp'.
    pose proof (binary_round_aux_exact s m e e He Hc ltac:(lia)) as Hx.
    rewrite Z.sub_diag in Hx. exact Hx. }
  destruct s; cbn [cond_Zopp].
  - destruct (Z.pos m * 2 ^ e) as [|p|p] eqn:E; try lia.
    cbn [Z.opp binary_normalize]. apply Hgen. reflexivity.
  - destruct (Z.pos m * 2 ^ e) as [|p|p] eqn:E; try lia.
    cbn [binary_normalize]. apply Hgen. reflexivity.
Qed.

(** [x - floor x] on valid finite numbers: the integer converts exactly
    and the difference lies in the closed unit interval. *)
Lemma frac_sf (V : spec_float) :
  valid_binary V = true -> finite_sf V ->
  exists n, SF_floor V = Some n
            /\ valid_binary (binary_normalize prec emax n 0 false) = true
            /\ finite_sf (binary_normalize prec emax n 0 false)
            /\ unit_sf (SFsub prec emax V (binary_normalize prec emax n 0 false)).
Proof.
  intros Hv Hf. destruct V as [s|s| |s m e]; cbn in Hf; try contradiction.
  - exists 0. cbn. repeat split; auto. all: destruct s; cbn; auto.
  - cbn [valid_binary] in Hv.
    destruct (bounded_inv m e Hv) as (Hc & Hr & Hm & Hn).
    cbn [SF_floor].
    set (v := if s then Z.neg m else Z.pos m).
    assert (Hv' : v = cond_Zopp s (Z.pos m)) by (destruct s; reflexivity).
    destruct (0 <=? e) eqn:Ee.
    + (* an integer *)
      apply Z.leb_le in Ee. exists (v * 2 ^ e). split; [reflexivity|].
      assert (E : v * 2 ^ e = cond_Zopp s (Z.pos m * 2 ^ e)).
      { rewrite Hv'. destruct s; cbn [cond_Zopp]; lia. }
      rewrite E, (binary_normalize_integer s m e Hv Ee).
      split; [exact Hv|]. split; [exact I|].
      rewrite (SFsub_finite s m e s m e). cbn zeta.
      rewrite Z.sub_diag. cbn [binary_normalize]. split; [reflexivity | exact I].
    + apply Z.leb_gt in Ee.
      set (k := - e). assert (Hk : 0 < k) by (unfold k; lia).
      pose proof (pow2_pos k (Z.lt_le_incl _ _ Hk)) as Hpk.
      set (n := v / 2 ^ k). exists n. split; [reflexivity|].
      pose proof (Z.div_mod v (2 ^ k) ltac:(lia)) as Hdm.
      pose proof (Z.mod_pos_bound v (2 ^ k) Hpk) as Hmod.
      fold n in Hdm.
      assert (Hvb : Z.abs v < 2 ^ 53) by (rewrite Hv'; destruct s; cbn; lia).
      assert (H2k : 2 <= 2 ^ k).
      { change 2 with (2 ^ 1) at 1. apply pow2_le. lia. }
      assert (Hnb : Z.abs n < 2 ^ 53) by nia.
      destruct (Z.eq_dec n 0) as [Hn0|Hn0].
      * rewrite Hn0. cbn [binary_normalize].
        split; [reflexivity|]. split; [exact I|].
        assert (Hs : s = false).
        { destruct s; [|reflexivity]. unfold v in *. rewrite Hn0 in Hdm. lia. }
        subst s. cbn. split; [exact Hv|]. unfold v in *. rewrite Hn0 in Hdm.
        fold k. lia.
      * destruct (binary_normalize_small n Hn0 Hnb) as (mn & en & HFN & Hbn & Hen & Hmn).
        rewrite HFN. split; [exact Hbn|]. split; [exact I|].
        assert (Hsign : (n <? 0) = s).
        { destruct s; unfold v in *.
          - apply Z.ltb_lt. nia.
          - apply Z.ltb_ge. nia. }
        rewrite Hsign, SFsub_finite. cbn zeta.
        set (ez := Z.min e en).
        assert (Hez : ez <= 0) by (unfold ez; lia).
        pose proof (pow2_pos (e - ez) ltac:(unfold ez; lia)) as Hp1.
        assert (Hsp : 2 ^ (- ez) = 2 ^ k * 2 ^ (e - ez)).
        { rewrite <- Z.pow_add_r by (unfold ez, k; lia). f_equal. unfold k. lia. }
        assert (Hmn' : Z.pos mn * 2 ^ (en - ez) = Z.abs n * 2 ^ (- ez)).
        { rewrite Hmn, <- Z.mul_assoc, <- Z.pow_add_r by (unfold ez; lia).
          f_equal. f_equal. lia. }
        assert (HT : cond_Zopp s (Z.pos m * 2 ^ (e - ez))
                     - cond_Zopp s (Z.pos mn * 2 ^ (en - ez))
                     = (v mod 2 ^ k) * 2 ^ (e - ez)).
        { rewrite Hmn', Hsp.
          assert (Hvn : v mod 2 ^ k = v - 2 ^ k * n) by lia.
          rewrite Hvn.
          destruct s; cbn [cond_Zopp]; unfold v in *.
          - assert (Z.abs n = - n) by (apply Z.ltb_lt in Hsign; lia). nia.
          - assert (Z.abs n = n) by (apply Z.ltb_ge in Hsign; lia). nia. }
        rewrite HT.
        assert (HTb : 0 <= v mod 2 ^ k * 2 ^ (e - ez) <= 2 ^ (0 - ez)).
        { cbn [Z.sub Z.add Z.opp]. replace (0 - ez) with (- ez) by lia.
          rewrite Hsp. split; [nia|].
          apply Z.mul_le_mono_nonneg_r; lia. }
        destruct (binary_normalize_upper (v mod 2 ^ k * 2 ^ (e - ez)) ez 0
                    Hez ltac:(rewrite Z.abs_eq by lia; lia) ltac:(lia))
          as (A & B & C).
        apply unit_of_upper; auto. apply C. lia.
Qed.

Lemma is_finite_sf x : is_finite x = true -> finite_sf (Prim2SF x).
Proof. unfold is_finite. destruct (Prim2SF x); cbn; auto; discriminate. Qed.

Lemma finite_sf_is_finite x : finite_sf (Prim2SF x) -> is_finite x = true.
Proof. unfold is_finite. destruct (Prim2SF x); cbn; auto; contradiction. Qed.

Lemma le_pow2_finite E x : le_pow2 E x -> finite_sf x.
Proof. destruct x; cbn; auto. Qed.

Lemma unit_sf_finite x : unit_sf x -> finite_sf x.
Proof. intros [_ H]. destruct x as [| | |[] ? ?]; cbn in *; auto. Qed.

(** A finite number is not reported as an infinity after the round trip. *)
Lemma not_infinity_of_finite (V : spec_float) :
  valid_binary V = true -> finite_sf V ->
  PrimFloat.is_infinity (SF2Prim V) = false.
Proof.
  intros Hv Hf. unfold PrimFloat.is_infinity.
  rewrite eqb_spec, abs_spec, (Prim2SF_SF2Prim _ Hv).
  replace (Prim2SF infinity) with (S754_infinity false) by reflexivity.
  destruct V as [s|s| |s m e]; cbn in Hf; try contradiction; reflexivity.
Qed.

(** [frac] returns on every finite number, with a result in [0, 1]. *)
Lemma frac_unit (x : float) :
  is_finite x = true ->
  exists f, frac x = Some f /\ unit_sf (Prim2SF f).
Proof.
  intros Hx.
  destruct (frac_sf (Prim2SF x) (Prim2SF_valid x) (is_finite_sf x Hx))
    as (n & Hn & Hv & Hf & Hu).
  exists (x - SF2Prim (binary_normalize prec emax n 0 false))%float.
  unfold frac, math_floor, float_of_int. rewrite Hn. cbn [obind].
  rewrite (not_infinity_of_finite _ Hv Hf). cbn [obind].
  split; [reflexivity|].
  rewrite sub_spec, (Prim2SF_SF2Prim _ Hv). exact Hu.
Qed.

Lemma SFmul_finite s1 m1 e1 s2 m2 e2 :
  SFmul prec emax (S754_finite s1 m1 e1) (S754_finite s2 m2 e2)
  = binary_round_aux prec emax (xorb s1 s2) (Z.pos m1 * Z.pos m2) (e1 + e2) loc_Exact.
Proof. reflexivity. Qed.

Lemma sign_is_nonneg x : sign_is false x -> nonneg_sf x.
Proof. destruct x; cbn; auto. Qed.

(** Doubling a number of the unit interval stays below 2. *)
Lemma double_unit (F : spec_float) :
  unit_sf F ->
  let G := SFmul prec emax (S754_finite false 4503599627370496 (-51)) F in
  valid_binary G = true /\ nonneg_sf G /\ le_pow2 1 G.
Proof.
  intros [Hv Hu]. destruct F as [s|s| |s m e]; try contradiction.
  - cbn. auto.
  - destruct s; [contradiction|]. destruct Hu as [He Hm].
    cbn zeta. rewrite SFmul_finite. cbn [xorb].
    cbn [valid_binary] in Hv.
    destruct (bounded_inv m e Hv) as (Hc & Hr & Hm' & Hn).
    change (Z.pos 4503599627370496) with (2 ^ 52).
    assert (Hd : digits (2 ^ 52 * Z.pos m) = digits (Z.pos m) + 52).
    { rewrite Z.mul_comm. apply digits_mul_pow2; lia. }
    pose proof (digits_pos (Z.pos m) ltac:(lia)) as [_ Hdp].
    destruct (binary_round_aux_upper false (2 ^ 52 * Z.pos m) (-51 + e) 1)
      as (A & B & C).
    + lia.
    + rewrite Hd. rewrite fexp_eq in *. lia.
    + lia.
    + replace (1 - (-51 + e)) with (52 + - e) by lia.
      rewrite Z.pow_add_r by lia. apply Z.mul_le_mono_nonneg_l; lia.
    + lia.
    + auto using sign_is_nonneg.
Qed.

(** [-1 + G] for [0 <= G <= 2] lies in [-1, 1]. *)
Lemma minus_one_plus (G : spec_float) :
  valid_binary G = true -> nonneg_sf G -> le_pow2 1 G ->
  let C := SFadd prec emax (S754_finite true 4503599627370496 (-52)) G in
  valid_binary C = true /\ le_pow2 0 C.
Proof.
  intros Hv Hs Hl. destruct G as [s|s| |s m e]; try contradiction.
  - cbn. split; [reflexivity|]. split; [lia|]. reflexivity.
  - cbn in Hs. subst s. destruct Hl as [He Hm].
    cbn zeta. rewrite SFadd_finite. cbn zeta. cbn [cond_Zopp].
    change (Z.pos 4503599627370496) with (2 ^ 52).
    set (ez := Z.min (-52) e).
    assert (Hez : ez <= -52) by (unfold ez; lia).
    assert (H1 : 2 ^ 52 * 2 ^ (-52 - ez) = 2 ^ (- ez)).
    { rewrite <- Z.pow_add_r by lia. f_equal. lia. }
    assert (H2 : Z.pos m * 2 ^ (e - ez) <= 2 * 2 ^ (- ez)).
    { replace (2 * 2 ^ (- ez)) with (2 ^ (1 - e) * 2 ^ (e - ez)).
      - apply Z.mul_le_mono_nonneg_r; [|exact Hm].
        apply Z.lt_le_incl, pow2_pos. unfold ez. lia.
      - rewrite <- Z.pow_add_r by (unfold ez; lia).
        replace (1 - e + (e - ez)) with (1 + - ez) by lia.
        rewrite Z.pow_add_r by lia. reflexivity. }
    pose proof (pow2_pos (e - ez) ltac:(unfold ez; lia)) as Hp.
    rewrite H1.
    destruct (binary_normalize_upper (- 2 ^ (- ez) + Z.pos m * 2 ^ (e - ez)) ez 0)
      as (A & B & _); [lia| |lia|auto].
    replace (0 - ez) with (- ez) by lia.
    pose proof (pow2_pos (- ez) ltac:(lia)). nia.
Qed.

(** A component [-1 + 2 * f] with [f] in the unit interval. *)
Lemma component_bound (f : float) :
  unit_sf (Prim2SF f) -> le_pow2 0 (Prim2SF (-1 + 2 * f)%float).
Proof.
  intros Hu. rewrite add_spec, mul_spec.
  replace (Prim2SF 2) with (S754_finite false 4503599627370496 (-51)) by reflexivity.
  replace (Prim2SF (-1)) with (S754_finite true 4503599627370496 (-52)) by reflexivity.
  destruct (double_unit _ Hu) as (A & B & C).
  exact (proj2 (minus_one_plus _ A B C)).
Qed.

(** Scaling a finite number down by a power of two keeps it finite. *)
Lemma scale_down_finite (W : spec_float) (j : Z) :
  valid_binary W = true -> finite_sf W -> 1 <= j <= 1000 ->
  finite_sf (SFmul prec emax (S754_finite false 4503599627370496 (-52 - j)) W).
Proof.
  intros Hv Hf Hj. destruct W as [s|s| |s m e]; try contradiction.
  - exact I.
  - rewrite SFmul_finite. cbn [valid_binary] in Hv.
    destruct (bounded_inv m e Hv) as (Hc & Hr & Hm' & Hn).
    change (Z.pos 4503599627370496) with (2 ^ 52).
    assert (Hd : digits (2 ^ 52 * Z.pos m) = digits (Z.pos m) + 52).
    { rewrite Z.mul_comm. apply digits_mul_pow2; lia. }
    pose proof (digits_pos (Z.pos m) ltac:(lia)) as [_ Hdp].
    destruct (binary_round_aux_upper (xorb false s) (2 ^ 52 * Z.pos m)
                (-52 - j + e) 1023) as (_ & _ & L).
    + lia.
    + rewrite Hd. rewrite fexp_eq in *. lia.
    + lia.
    + apply Z.le_trans with (2 ^ 105).
      * change (2 ^ 105) with (2 ^ 52 * 2 ^ 53). apply Z.mul_le_mono_nonneg_l; lia.
      * apply pow2_le. lia.
    + lia.
    + exact (le_pow2_finite _ _ L).
Qed.

Lemma divisors_scale (w : float) :
  is_finite w = true ->
  let '(d0, d1, d2) := divisors in
  is_finite (d0 * w)%float = true
  /\ is_finite (d1 * w)%float = true
  /\ is_finite (d2 * w)%float = true.
Proof.
  intros Hw. cbn [divisors].
  pose proof (Prim2SF_valid w) as Hv. pose proof (is_finite_sf w Hw) as Hf.
  split; [|split]; apply finite_sf_is_finite; rewrite mul_spec.
  - replace (Prim2SF 0.00390625) with (S754_finite false 4503599627370496 (-52 - 8)) by reflexivity.
    apply scale_down_finite; auto; lia.
  - replace (Prim2SF 0.0000152587890625) with (S754_finite false 4503599627370496 (-52 - 16)) by reflexivity.
    apply scale_down_finite; auto; lia.
  - replace (Prim2SF 0.000000059604644775390625) with (S754_finite false 4503599627370496 (-52 - 24)) by reflexivity.
    apply scale_down_finite; auto; lia.
Qed.

(** The exact value of a number bounded by [2 ^ 0]. *)
Lemma le_pow2_between (c : float) :
  le_pow2 0 (Prim2SF c) -> between (-1) 1 c.
Proof.
  unfold between, F2Q. destruct (Prim2SF c) as [s|s| |s m e]; cbn [le_pow2 SF2Q];
    try contradiction.
  - intros _. exists 0%Q. split; [reflexivity|]. split; discriminate.
  - intros [He Hm]. eexists. split; [reflexivity|].
    destruct e as [|k|k]; try lia.
    + cbn in Hm. unfold Qle; cbn. destruct s; lia.
    + replace (0 - Z.neg k) with (Z.pos k) in Hm by lia.
      unfold Qle; cbn [Qnum Qden]. rewrite Pos2Z.inj_pow.
      destruct s; lia.
Qed.

(* ================================================================== *)
(** * Normals packed in a float *)

Lemma float_parts_between (w : float) :
  is_finite w = true ->
  exists x y z,
    decompress_normal_from_float w = Some (x, y, z)
    /\ between (-1) 1 x /\ between (-1) 1 y /\ between (-1) 1 z.
Proof.
  intros Hw. pose proof (divisors_scale w Hw) as Hd.
  unfold decompress_normal_from_float. cbn [divisors] in *.
  destruct Hd as (H0 & H1 & H2).
  destruct (frac_unit _ H0) as (fx & Ex & Ux).
  destruct (frac_unit _ H1) as (fy & Ey & Uy).
  destruct (frac_unit _ H2) as (fz & Ez & Uz).
  rewrite Ex, Ey, Ez. cbn [obind].
  do 3 eexists. split; [reflexivity|].
  repeat split; apply le_pow2_between, component_bound; assumption.
Qed.

(** C10 (amended): for every finite [w], [decompress_normal_from_float]
    returns a vector, and the exact value of each component lies in the
    closed interval from -1 to 1. *)
Theorem float_normal_components (w : float) :
  is_finite w = true ->
  exists x y z,
    decompress_normal_from_float w = Some (x, y, z)
    /\ between (-1) 1 x /\ between (-1) 1 y /\ between (-1) 1 z.
Proof. exact (float_parts_between w). Qed.

Lemma float_normal_components_witness :
  is_finite 1000.5 = true
  /\ exists x y z,
       decompress_normal_from_float 1000.5 = Some (x, y, z)
       /\ between (-1) 1 x /\ between (-1) 1 y /\ between (-1) 1 z.
Proof.
  split; [reflexivity|].
  apply (float_normal_components 1000.5). reflexivity.
Defined.

(** C10 (as stated) fails: on the finite input -1e-20 the fractional
    parts round to 1.0, so every component is exactly 1. *)
Lemma float_normal_reaches_one :
  is_finite (-1e-20) = true
  /\ decompress_normal_from_float (-1e-20) = Some (1, 1, 1)%float
  /\ ~ Stated.half_open 1.
Proof.
  split; [vm_compute; reflexivity|].
  split; [vm_compute; reflexivity|].
  intros (v & Hv & _ & Hlt).
  vm_compute in Hv. injection Hv as <-.
  revert Hlt. unfold Qlt. cbn. lia.
Qed.

(* ================================================================== *)
(** * Normals packed in 16 bits *)

Lemma float_of_int_fast_eq z : float_of_int_fast z = float_of_int z.
Proof.
  unfold float_of_int_fast, float_of_int.
  destruct ((0 <=? z) && (z <? 4611686018427387904)) eqn:E; [|reflexivity].
  apply andb_true_iff in E. destruct E as [E1 E2].
  apply Z.leb_le in E1. apply Z.ltb_lt in E2.
  assert (H : SF2Prim (binary_normalize prec emax z 0 false)
              = PrimFloat.of_uint63 (Uint63.of_Z z)).
  { rewrite <- (SF2Prim_Prim2SF (PrimFloat.of_uint63 (Uint63.of_Z z))).
    rewrite of_uint63_spec, Uint63.of_Z_spec.
    rewrite Z.mod_small; [reflexivity|].
    change Uint63.wB with 9223372036854775808. lia. }
  cbv zeta. rewrite H. reflexivity.
Qed.

Lemma SF_floor_fast_eq x : SF_floor_fast x = SF_floor x.
Proof.
  destruct x as [s|s| |s m e]; try reflexivity.
  cbn [SF_floor_fast SF_floor]. cbv zeta.
  destruct (0 <=? e) eqn:E.
  - apply Z.leb_le in E. rewrite Z.shiftl_mul_pow2 by lia. reflexivity.
  - apply Z.leb_gt in E. rewrite Z.shiftr_div_pow2 by lia. reflexivity.
Qed.

Lemma frac_fast_eq x : frac_fast x = frac x.
Proof.
  unfold frac_fast, frac, math_floor. rewrite SF_floor_fast_eq.
  destruct (SF_floor (Prim2SF x)); [|reflexivity]. cbn [obind].
  rewrite float_of_int_fast_eq. reflexivity.
Qed.

Lemma normal_parts_fast_eq a : normal_parts_fast a = normal_parts a.
Proof.
  unfold normal_parts_fast, normal_parts.
  rewrite float_of_int_fast_eq.
  destruct (float_of_int a); [|reflexivity]. cbn [obind].
  rewrite !frac_fast_eq. reflexivity.
Qed.

Lemma decompress_parts w :
  decompress_normal_from_int16 w
  = let w' := if w =? -32768 then 0 else w in
    obind (normal_parts (Z.abs w')) (fun p =>
      let '(x, r, z) := p in Some (x, (sign_f w' * r)%float, z)).
Proof.
  unfold decompress_normal_from_int16, normal_parts. cbv zeta.
  destruct (float_of_int _); [|reflexivity]. cbn [obind].
  destruct (frac _); [|reflexivity]. cbn [obind].
  destruct (frac _); [|reflexivity]. cbn [obind].
  destruct (math_sqrt _); reflexivity.
Qed.

Lemma all_from_spec check n : forall a,
  all_from check n a = true ->
  forall b, a <= b < a + Z.of_nat n -> check b = true.
Proof.
  induction n as [|n IH]; intros a H b Hb.
  - cbn in Hb. lia.
  - cbn [all_from] in H. destruct (check a) eqn:H1; [|discriminate].
    destruct (Z.eq_dec b a) as [->|Hne]; [exact H1|]. rename H into H2.
    apply (IH (a + 1) H2). lia.
Qed.

(** The exact value over the denominator [2 ^ K]. *)
Lemma SF2Q_scaled X d K :
  dy X = Some d -> 0 <= K -> 0 <= snd d + K ->
  exists v, SF2Q X = Some v
            /\ (v == scaled K d # Z.to_pos (2 ^ K))%Q.
Proof.
  intros Hd HK He.
  assert (HP : Z.pos (Z.to_pos (2 ^ K)) = 2 ^ K).
  { apply Z2Pos.id. apply Z.pow_pos_nonneg; lia. }
  destruct X as [s|s| |s m e]; try discriminate; cbn in Hd;
    injection Hd as <-; cbn [SF2Q]; eexists; (split; [reflexivity|]);
    unfold scaled, Qeq; cbn [fst snd Qnum Qden inject_Z] in *; rewrite HP.
  - rewrite Z.shiftl_0_l. lia.
  - set (v := if s then Z.neg m else Z.pos m).
    rewrite Z.shiftl_mul_pow2 by lia.
    destruct e as [|k|k].
    + unfold inject_Z. cbn [Qnum Qden]. rewrite Z.add_0_l. lia.
    + unfold inject_Z. cbn [Qnum Qden].
      rewrite Pos2Z.inj_pow, Z.pow_add_r by lia. lia.
    + cbn [Qnum Qden]. rewrite Pos2Z.inj_pow.
      rewrite <- Z.mul_assoc, <- Z.pow_add_r by lia.
      f_equal. f_equal. lia.
Qed.

Lemma sumsq_scaled A B C P :
  ((A # P) * (A # P) + (B # P) * (B # P) + (C # P) * (C # P)
   == (A * A + B * B + C * C) # (P * P))%Q.
Proof.
  unfold Qeq, Qplus, Qmult. cbn [Qnum Qden]. rewrite ?Pos2Z.inj_mul. ring.
Qed.

Lemma unit_minus_scaled A C P :
  (1 - (A # P) * (A # P) - (C # P) * (C # P)
   == (Z.pos P * Z.pos P - (A * A + C * C)) # (P * P))%Q.
Proof.
  unfold Qeq, Qminus, Qplus, Qopp, Qmult. cbn [Qnum Qden].
  rewrite ?Pos2Z.inj_mul. ring.
Qed.

Lemma clamp01_scaled (t : Q) n PP :
  (t == n # PP)%Q ->
  (Stated.clamp01 t == clampZ 0 (Z.pos PP) n # PP)%Q.
Proof.
  intros Ht. unfold Stated.clamp01, clampZ.
  assert (H1 : (1 == Z.pos PP # PP)%Q) by (unfold Qeq; cbn; lia).
  assert (H0 : (0 == 0 # PP)%Q) by (unfold Qeq; cbn; lia).
  destruct (Q.min_spec 1 t) as [[Hlt Hm]|[Hle Hm]];
    destruct (Q.max_spec 0 (Qmin 1 t)) as [[Hlt' HM]|[Hle' HM]];
    rewrite HM; rewrite ?Hm in *; rewrite Ht in *;
    unfold Qlt, Qle, Qeq in *; cbn [Qnum Qden] in *; nia.
Qed.

Lemma normal_x_closed a :
  0 <= a ->
  (Stated.normal_x a == 181 * (2 * (a mod 181) - 181) # (181 * 179))%Q.
Proof.
  intros Ha. unfold Stated.normal_x, Stated.fracQ.
  rewrite Z.abs_eq by lia.
  pose proof (Z.div_mod a 181 ltac:(lia)) as Hdm.
  assert (Hf : Qfloor (inject_Z a / 181) = a / 181).
  { unfold Qdiv. change (/ 181)%Q with (1 # 181)%Q.
    unfold Qfloor, Qmult, inject_Z. cbn [Qnum Qden].
    rewrite Z.mul_1_r. reflexivity. }
  rewrite Hf. set (q := a / 181) in *. set (r := a mod 181) in *.
  unfold Qdiv. change (/ 181)%Q with (1 # 181)%Q.
  change (/ 179)%Q with (1 # 179)%Q.
  unfold Qeq, Qminus, Qplus, Qopp, Qmult, inject_Z.
  cbn [Qnum Qden]. lia.
Qed.

Lemma normal_z_closed a :
  0 <= a ->
  (Stated.normal_z a == 181 * (2 * (a mod 32761) - 32761) # (32761 * 180))%Q.
Proof.
  intros Ha. unfold Stated.normal_z, Stated.fracQ.
  rewrite Z.abs_eq by lia.
  pose proof (Z.div_mod a 32761 ltac:(lia)) as Hdm.
  assert (Hf : Qfloor (inject_Z a / (181 * 181)) = a / 32761).
  { unfold Qdiv. change (/ (181 * 181))%Q with (1 # 32761)%Q.
    unfold Qfloor, Qmult, inject_Z. cbn [Qnum Qden].
    rewrite Z.mul_1_r. reflexivity. }
  rewrite Hf. set (q := a / 32761) in *. set (r := a mod 32761) in *.
  unfold Qdiv. change (/ (181 * 181))%Q with (1 # 32761)%Q.
  change (/ 180)%Q with (1 # 180)%Q.
  unfold Qeq, Qminus, Qplus, Qopp, Qmult, inject_Z.
  cbn [Qnum Qden]. lia.
Qed.

(** [near] on the exact value. *)
Lemma near_spec X d n dd t (q : Q) :
  dy X = Some d -> near d n (Z.pos dd) t = true -> 0 <= t ->
  (q == n # dd)%Q ->
  exists v, SF2Q X = Some v
            /\ (Qabs (v - q) <= 1 # Z.to_pos (2 ^ t))%Q.
Proof.
  intros Hd Hn Ht Hq. unfold near in Hn.
  set (K := Z.max 0 (- snd d)) in *.
  destruct (SF2Q_scaled X d K Hd) as (v & Hv & Ev); [lia|lia|].
  exists v. split; [exact Hv|].
  apply Z.leb_le in Hn.
  rewrite !Z.shiftl_mul_pow2 in Hn by lia.
  assert (HP : Z.pos (Z.to_pos (2 ^ K)) = 2 ^ K).
  { apply Z2Pos.id. apply Z.pow_pos_nonneg; lia. }
  assert (HT : Z.pos (Z.to_pos (2 ^ t)) = 2 ^ t).
  { apply Z2Pos.id. apply Z.pow_pos_nonneg; lia. }
  rewrite Ev, Hq.
  unfold Qle, Qabs, Qminus, Qplus, Qopp. cbn [Qnum Qden].
  rewrite Pos2Z.inj_mul, HP, HT.
  set (sc := scaled K d) in *.
  replace (sc * Z.pos dd + - n * 2 ^ K) with (Z.pos dd * sc - n * 2 ^ K) by ring.
  lia.
Qed.

(** Multiplying by the sign changes only the sign of the exact value. *)
Lemma sign_mul_value w r vr :
  F2Q r = Some vr ->
  exists vy, F2Q (sign_f w * r)%float = Some vy
             /\ (vy == inject_Z (Z.sgn w) * vr)%Q.
Proof.
  unfold F2Q. intros Hr. rewrite mul_spec. unfold SF64mul.
  pose proof (Prim2SF_valid r) as Hv.
  assert (Hs : Prim2SF (sign_f w)
               = match w ?= 0 with
                 | Gt => S754_finite false 4503599627370496 (-52)
                 | Lt => S754_finite true 4503599627370496 (-52)
                 | Eq => S754_zero false
                 end).
  { unfold sign_f. destruct (Z.compare_spec w 0) as [->|H|H].
    - reflexivity.
    - destruct (w >? 0) eqn:E1; [apply Z.gtb_lt in E1; lia|].
      destruct (w <? 0) eqn:E2; [reflexivity|apply Z.ltb_ge in E2; lia].
    - destruct (w >? 0) eqn:E1; [reflexivity|].
      rewrite Z.gtb_ltb in E1. apply Z.ltb_ge in E1. lia. }
  rewrite Hs.
  assert (Hone : forall sc s m e,
             bounded prec emax m e = true ->
             SFmul prec emax (S754_finite sc 4503599627370496 (-52))
                   (S754_finite s m e)
             = S754_finite (xorb sc s) m e).
  { intros sc s m e Hb. rewrite SFmul_finite.
    destruct (bounded_inv m e Hb) as (Hc & Hr' & _).
    change (Z.pos 4503599627370496) with (2 ^ 52).
    replace (2 ^ 52 * Z.pos m) with (Z.pos m * 2 ^ 52) by ring.
    replace (-52 + e) with (e - 52) by ring.
    apply binary_round_aux_exact; lia. }
  destruct (Prim2SF r) as [s|s| |s m e]; try discriminate.
  - cbn in Hr. injection Hr as <-.
    exists 0%Q. split.
    + destruct (w ?= 0); reflexivity.
    + ring.
  - cbn [valid_binary] in Hv.
    destruct (Z.compare_spec w 0) as [->|H|H].
    + exists 0%Q. split; [reflexivity|]. cbn. ring.
    + cbv iota. rewrite (Hone true s m e Hv).
      replace (Z.sgn w) with (-1) by lia.
      cbn [SF2Q] in *. injection Hr as <-. eexists. split; [reflexivity|].
      destruct s, e; unfold Qeq, Qmult, inject_Z; cbn [Qnum Qden xorb]; lia.
    + cbv iota. rewrite (Hone false s m e Hv).
      replace (Z.sgn w) with 1 by lia.
      cbn [SF2Q] in *. injection Hr as <-. eexists. split; [reflexivity|].
      destruct s, e; unfold Qeq, Qmult, inject_Z; cbn [Qnum Qden xorb]; lia.
Qed.

Lemma sq_spec m : sq m = m * m.
Proof.
  unfold sq.
  destruct ((0 <=? m) && (m <? 4611686018427387904)) eqn:E; [|reflexivity].
  apply andb_true_iff in E. destruct E as [E1 E2].
  apply Z.leb_le in E1. apply Z.ltb_lt in E2.
  pose proof (Uint63.mulc_spec (Uint63.of_Z m) (Uint63.of_Z m)) as H.
  destruct (Uint63.mulc (Uint63.of_Z m) (Uint63.of_Z m)) as [h l].
  cbn [fst snd] in H.
  rewrite Uint63.of_Z_spec, Z.mod_small in H
    by (change Uint63.wB with 9223372036854775808; lia).
  rewrite Z.shiftl_mul_pow2 by lia.
  change (2 ^ 63) with Uint63.wB. lia.
Qed.

Lemma scaled_sq_spec K d :
  0 <= snd d + K -> scaled_sq K d = scaled K d * scaled K d.
Proof.
  intros H. unfold scaled_sq, scaled. rewrite sq_spec.
  rewrite !Z.shiftl_mul_pow2 by lia.
  replace (2 * (snd d + K)) with ((snd d + K) + (snd d + K)) by ring.
  rewrite Z.pow_add_r by lia.
  rewrite <- Z.abs_mul, Z.abs_eq by apply Z.square_nonneg. ring.
Qed.

Lemma square_scaled A P : ((A # P) * (A # P) == (A * A) # (P * P))%Q.
Proof. reflexivity. Qed.

Lemma frac_close a c PP (t : positive) :
  Z.abs (a - c) * Z.pos t <= Z.pos PP ->
  (Qabs ((a # PP) - (c # PP)) <= 1 # t)%Q.
Proof.
  intros H. unfold Qle, Qabs, Qminus, Qplus, Qopp. cbn [Qnum Qden].
  replace (a * Z.pos PP + - c * Z.pos PP) with ((a - c) * Z.pos PP) by ring.
  rewrite Z.abs_mul, (Z.abs_eq (Z.pos PP)), Pos2Z.inj_mul by lia. nia.
Qed.

Lemma parts_ok_spec a :
  0 <= a -> parts_ok a = true ->
  exists p, normal_parts a = Some p /\ parts_exact a p.
Proof.
  intros Ha. unfold parts_ok. rewrite normal_parts_fast_eq.
  destruct (normal_parts a) as [[[x r] z]|]; [|discriminate].
  destruct (dy (Prim2SF x)) as [dx|] eqn:Ex; [|discriminate].
  destruct (dy (Prim2SF r)) as [dr|] eqn:Er; [|discriminate].
  destruct (dy (Prim2SF z)) as [dz|] eqn:Ez; [|discriminate].
  cbv zeta.
  set (K := Z.max 0 (Z.max (- snd dx) (Z.max (- snd dr) (- snd dz)))).
  assert (HK : 0 <= K) by (unfold K; lia).
  assert (Kx : 0 <= snd dx + K) by (unfold K; lia).
  assert (Kr : 0 <= snd dr + K) by (unfold K; lia).
  assert (Kz : 0 <= snd dz + K) by (unfold K; lia).
  rewrite !scaled_sq_spec by assumption.
  destruct (SF2Q_scaled _ _ K Ex HK Kx) as (vx & Hvx & Evx).
  destruct (SF2Q_scaled _ _ K Er HK Kr) as (vr & Hvr & Evr).
  destruct (SF2Q_scaled _ _ K Ez HK Kz) as (vz & Hvz & Evz).
  set (P := Z.to_pos (2 ^ K)) in *.
  assert (HP : Z.pos P = 2 ^ K).
  { apply Z2Pos.id. apply Z.pow_pos_nonneg; lia. }
  assert (Hone : Z.shiftl 1 (2 * K) = Z.pos (P * P)).
  { rewrite Z.shiftl_mul_pow2, Pos2Z.inj_mul, HP by lia.
    replace (2 * K) with (K + K) by ring. rewrite Z.pow_add_r by lia. ring. }
  rewrite Hone.
  set (X := scaled K dx) in *. set (R := scaled K dr) in *.
  set (Zz := scaled K dz) in *.
  destruct (0 <=? fst dr) eqn:C0; [|discriminate].
  apply Z.leb_le in C0.
  assert (HR : 0 <= R).
  { unfold R, scaled. apply Z.shiftl_nonneg. exact C0. }
  assert (HR0 : fst dr = 0 -> R = 0).
  { intros E. unfold R, scaled. rewrite E. apply Z.shiftl_0_l. }
  match goal with |- (if ?c then _ else _) = true -> _ =>
    destruct c eqn:C1; [|discriminate] end.
  match goal with |- (if ?c then _ else _) = true -> _ =>
    destruct c eqn:C2; [|discriminate] end.
  intros C3.
  rewrite !Z.shiftl_mul_pow2 in * by lia.
  change (2 ^ 50) with 1125899906842624 in *.
  apply Z.leb_le in C2.
  assert (Hsum : (vx * vx + vr * vr + vz * vz
                  == (X * X + R * R + Zz * Zz) # (P * P))%Q).
  { rewrite Evx, Evr, Evz. apply sumsq_scaled. }
  assert (Hbig : (1 + (1 # 2 ^ 50) <= 33 # 16)%Q) by (vm_compute; discriminate).
  assert (Hsmall : fst dr <> 0 ->
                   (vx * vx + vr * vr + vz * vz <= 1 + (1 # 2 ^ 50))%Q).
  { intros Hne. apply Z.eqb_neq in Hne. rewrite Hne in C1.
    apply Z.leb_le in C1. rewrite Hsum.
    unfold Qle, Qplus. cbn [Qnum Qden].
    change (Z.pos (2 ^ 50)) with 1125899906842624.
    change (Z.pos (1 * 2 ^ 50)) with 1125899906842624. lia. }
  exists (x, r, z). split; [reflexivity|].
  exists vx, vr, vz. unfold F2Q.
  split; [exact Hvx|]. split; [exact Hvr|]. split; [exact Hvz|].
  split; [|split; [|split; [|split]]].
  - rewrite Evr. unfold Qle. cbn [Qnum Qden]. lia.
  - destruct (Z.eq_dec (fst dr) 0) as [E0|Hne].
    + rewrite E0 in C1. cbn [Z.eqb] in C1. apply Z.leb_le in C1.
      rewrite Hsum, (HR0 E0). unfold Qle. cbn [Qnum Qden]. lia.
    + apply Qle_trans with (1 + (1 # 2 ^ 50))%Q; auto.
  - intros Hnz. apply Hsmall. intros E0. apply Hnz.
    rewrite Evr, (HR0 E0). reflexivity.
  - assert (Ht : (1 - vx * vx - vz * vz
                  == (Z.pos (P * P) - (X * X + Zz * Zz)) # (P * P))%Q).
    { rewrite Evx, Evz, unit_minus_scaled, Pos2Z.inj_mul. reflexivity. }
    rewrite (clamp01_scaled _ _ _ Ht), Evr, square_scaled.
    apply frac_close. exact C2.
  - intros Hle. destruct (32767 <? a) eqn:C4; [apply Z.ltb_lt in C4; lia|].
    match type of C3 with (if ?c then _ else _) = true =>
      destruct c eqn:C5; [|discriminate] end.
    split.
    + destruct (near_spec _ _ _ (181 * 179)%positive 44 _ Ex C5 ltac:(lia)
                  (normal_x_closed a Ha)) as (v & Hv & Hv').
      rewrite Hvx in Hv. injection Hv as <-. exact Hv'.
    + intros Hne. apply Z.eqb_neq in Hne. rewrite Hne in C3.
      destruct (near_spec _ _ _ (32761 * 180)%positive 50 _ Ez C3 ltac:(lia)
                  (normal_z_closed a Ha)) as (v & Hv & Hv').
      rewrite Hvz in Hv. injection Hv as <-. exact Hv'.
Qed.

Lemma parts_sweep : all_from parts_ok 65536 0 = true.
Proof. vm_compute. reflexivity. Qed.

Lemma parts_checked a :
  0 <= a <= 65535 ->
  exists p, normal_parts a = Some p /\ parts_exact a p.
Proof.
  intros Ha. apply parts_ok_spec; [lia|].
  assert (E : Z.of_nat 65536 = 65536) by (vm_compute; reflexivity).
  apply (all_from_spec parts_ok 65536 0 parts_sweep). rewrite E. lia.
Qed.

Lemma normal_x_abs w : Stated.normal_x (Z.abs w) = Stated.normal_x w.
Proof. unfold Stated.normal_x. rewrite Z.abs_idemp. reflexivity. Qed.

Lemma normal_z_abs w : Stated.normal_z (Z.abs w) = Stated.normal_z w.
Proof. unfold Stated.normal_z. rewrite Z.abs_idemp. reflexivity. Qed.

(** The result of the 16-bit variant in terms of the parts. *)
Lemma decompress_checked w :
  -32767 <= w <= 65535 ->
  exists x r z vy vr,
    normal_parts (Z.abs w) = Some (x, r, z)
    /\ parts_exact (Z.abs w) (x, r, z)
    /\ decompress_normal_from_int16 w = Some (x, (sign_f w * r)%float, z)
    /\ F2Q r = Some vr
    /\ F2Q (sign_f w * r)%float = Some vy
    /\ (vy == inject_Z (Z.sgn w) * vr)%Q.
Proof.
  intros Hw.
  assert (Ha : 0 <= Z.abs w <= 65535) by lia.
  destruct (parts_checked (Z.abs w) Ha) as ([[x r] z] & Hp & He).
  pose proof He as He'. destruct He' as (vx & vr & vz & Hx & Hr & _).
  destruct (sign_mul_value w r vr Hr) as (vy & Hy & Ey).
  exists x, r, z, vy, vr. repeat (split; [assumption|]).
  split; [|split; [assumption|split; assumption]].
  rewrite decompress_parts.
  destruct (w =? -32768) eqn:E; [apply Z.eqb_eq in E; lia|].
  cbv zeta. rewrite Hp. reflexivity.
Qed.

Lemma sq_le_one (v : Q) : (-1 <= v)%Q -> (v <= 1)%Q -> (v * v <= 1)%Q.
Proof. intros. nra. Qed.

Lemma sgn_sq (w : Z) (vy vr : Q) :
  (vy == inject_Z (Z.sgn w) * vr)%Q ->
  (w = 0 /\ (vy == 0)%Q) \/ (w <> 0 /\ (vy * vy == vr * vr)%Q).
Proof.
  intros H. destruct (Z.sgn_spec w) as [[Hw E]|[[Hw E]|[Hw E]]]; rewrite E in H;
    unfold inject_Z in H.
  - right. split; [lia|]. rewrite H. ring.
  - left. split; [lia|]. rewrite H. ring.
  - right. split; [lia|]. rewrite H.
    unfold Qeq, Qmult. cbn [Qnum Qden]. rewrite ?Pos2Z.inj_mul. ring.
Qed.

(* ================================================================== *)
(** * The decompressed normal *)

(** At [|w| = 32761 = 181 * 181] the returned [z] is next to [+181/180]. *)
Lemma normal_z_at_32761 :
  match normal_parts 32761 with
  | Some (_, _, z) =>
    match F2Q z with
    | Some vz => Qle_bool (Qabs (vz - (181 # 180))) (1 # 2 ^ 50)
    | None => false
    end
  | None => false
  end = true.
Proof. vm_compute. reflexivity. Qed.

(** C1 (amended): for every 16-bit [w] other than -32768,
    [decompress_normal_from_int16 w] returns [(x, y, z)] where the exact
    value of [x] is within [2 ^ -44] of the stated formula, [y] is
    [sign w] times a non-negative number whose square is within
    [2 ^ -50] of [clamp (1 - x^2 - z^2, 0, 1)], and the exact value of
    [z] is within [2 ^ -50] of the stated formula unless [|w| = 32761],
    where it is within [2 ^ -50] of [+181/180]; and -32768 decompresses
    as 0 does. *)
Theorem int16_normal_formula (w : Z) :
  -32767 <= w <= 32767 ->
  exists x y z vx vy vz s,
    decompress_normal_from_int16 w = Some (x, y, z)
    /\ F2Q x = Some vx /\ F2Q y = Some vy /\ F2Q z = Some vz
    /\ (Qabs (vx - Stated.normal_x w) <= 1 # 2 ^ 44)%Q
    /\ (Z.abs w <> 32761 ->
        (Qabs (vz - Stated.normal_z w) <= 1 # 2 ^ 50)%Q)
    /\ (Z.abs w = 32761 -> (Qabs (vz - (181 # 180)) <= 1 # 2 ^ 50)%Q)
    /\ (vy == inject_Z (Z.sgn w) * s)%Q
    /\ (0 <= s)%Q
    /\ (Qabs (s * s - Stated.clamp01 (1 - vx * vx - vz * vz)) <= 1 # 2 ^ 50)%Q
    /\ decompress_normal_from_int16 (-32768) = decompress_normal_from_int16 0.
Proof.
  intros Hw.
  assert (Hw' : -32767 <= w <= 65535) by lia.
  destruct (decompress_checked w Hw')
    as (x & r & z & vy & vr & Hp & He & Hd & Hr & Hy & Ey).
  destruct He as (vx & vr' & vz & Hx & Hr' & Hz & Hpos & _ & _ & Hc & Hn).
  rewrite Hr in Hr'. injection Hr' as <-.
  assert (Ha : Z.abs w <= 32767) by lia.
  destruct (Hn Ha) as [Hnx Hnz].
  rewrite normal_x_abs in Hnx. rewrite normal_z_abs in Hnz.
  exists x, (sign_f w * r)%float, z, vx, vy, vz, vr.
  repeat (split; [assumption|]).
  split.
  { intros E. rewrite E in Hp. pose proof normal_z_at_32761 as H.
    rewrite Hp, Hz in H. apply Qle_bool_iff. exact H. }
  repeat (split; [assumption|]). reflexivity.
Qed.

Lemma int16_normal_formula_witness :
  -32767 <= -12345 <= 32767
  /\ exists x y z vx vy vz s,
    decompress_normal_from_int16 (-12345) = Some (x, y, z)
    /\ F2Q x = Some vx /\ F2Q y = Some vy /\ F2Q z = Some vz
    /\ (Qabs (vx - Stated.normal_x (-12345)) <= 1 # 2 ^ 44)%Q
    /\ (Z.abs (-12345) <> 32761 ->
        (Qabs (vz - Stated.normal_z (-12345)) <= 1 # 2 ^ 50)%Q)
    /\ (Z.abs (-12345) = 32761 -> (Qabs (vz - (181 # 180)) <= 1 # 2 ^ 50)%Q)
    /\ (vy == inject_Z (Z.sgn (-12345)) * s)%Q
    /\ (0 <= s)%Q
    /\ (Qabs (s * s - Stated.clamp01 (1 - vx * vx - vz * vz)) <= 1 # 2 ^ 50)%Q
    /\ decompress_normal_from_int16 (-32768) = decompress_normal_from_int16 0.
Proof.
  split; [lia|].
  apply (int16_normal_formula (-12345)); lia.
Defined.

(** C1 (as stated) fails at [w = 32761 = 181 * 181]: the product
    [(1/181/181) * 32761] is just below 1 in binary64, so the returned
    [z] is above 1 while the stated formula gives [-181/180] (and so does
    the same formula with [|w| / (181 * 181)] computed in binary64). *)
Lemma int16_normal_z_at_32761 :
  exists x y z vz zb vb,
    decompress_normal_from_int16 32761 = Some (x, y, z)
    /\ F2Q z = Some vz /\ (1 < vz)%Q
    /\ (Stated.normal_z 32761 == - (181 # 180))%Q
    /\ Stated.normal_z_binary64 32761 = Some zb
    /\ F2Q zb = Some vb /\ (vb < -1)%Q.
Proof.
  assert (H : match decompress_normal_from_int16 32761,
                    Stated.normal_z_binary64 32761 with
              | Some (_, _, z), Some zb =>
                match F2Q z, F2Q zb with
                | Some vz, Some vb =>
                  negb (Qle_bool vz 1) && negb (Qle_bool (-1) vb)
                | _, _ => false
                end
              | _, _ => false
              end = true) by (vm_compute; reflexivity).
  destruct (decompress_normal_from_int16 32761) as [[[x y] z]|];
    [|discriminate].
  destruct (Stated.normal_z_binary64 32761) as [zb|]; [|discriminate].
  destruct (F2Q z) as [vz|]eqn:Ez; [|discriminate].
  destruct (F2Q zb) as [vb|] eqn:Eb; [|discriminate].
  apply andb_true_iff in H. destruct H as [H1 H2].
  exists x, y, z, vz, zb, vb.
  split; [reflexivity|]. split; [exact Ez|].
  split.
  { apply Qnot_le_lt. intros Hle. apply Qle_bool_iff in Hle.
    rewrite Hle in H1. discriminate. }
  split; [vm_compute; reflexivity|].
  split; [reflexivity|]. split; [exact Eb|].
  apply Qnot_le_lt. intros Hle. apply Qle_bool_iff in Hle.
  rewrite Hle in H2. discriminate.
Qed.

Lemma norm2_parts x y z vx vy vz :
  F2Q x = Some vx -> F2Q y = Some vy -> F2Q z = Some vz ->
  norm2 (x, y, z) = Some (vx * vx + vy * vy + vz * vz)%Q.
Proof. intros Hx Hy Hz. unfold norm2. rewrite Hx, Hy, Hz. reflexivity. Qed.

(** The squared length after the 16-bit variant. *)
Lemma int16_length_checked w :
  -32767 <= w <= 65535 ->
  exists x y z vy n,
    decompress_normal_from_int16 w = Some (x, y, z)
    /\ F2Q y = Some vy
    /\ norm2 (x, y, z) = Some n
    /\ (n <= 33 # 16)%Q
    /\ (~ (vy == 0)%Q -> (n <= 1 + (1 # 2 ^ 50))%Q).
Proof.
  intros Hw.
  destruct (decompress_checked w Hw)
    as (x & r & z & vy & vr & _ & He & Hd & Hr & Hy & Ey).
  destruct He as (vx & vr' & vz & Hx & Hr' & Hz & Hpos & Hb & Hs & _).
  rewrite Hr in Hr'. injection Hr' as <-.
  exists x, (sign_f w * r)%float, z, vy, (vx * vx + vy * vy + vz * vz)%Q.
  split; [exact Hd|]. split; [exact Hy|].
  split; [apply norm2_parts; assumption|].
  pose proof (Qmult_le_0_compat vr vr Hpos Hpos) as Hsq.
  destruct (sgn_sq w vy vr Ey) as [[_ H0]|[_ Hq]].
  - split.
    + rewrite H0. lra.
    + intros Hnz. contradiction.
  - split.
    + rewrite Hq. exact Hb.
    + intros Hnz. rewrite Hq. apply Hs. intros Hr0. apply Hnz.
      rewrite Ey, Hr0. ring.
Qed.

(** C6 (amended): the squared length of the decompressed vector is at
    most [33/16] for every 16-bit [w], signed or unsigned, and at most
    [1 + 2 ^ -50] whenever [y] is not zero; after the float variant it is
    at most 3 for every finite [f]. *)
Theorem normal_length_bound (w : Z) (f : float) :
  -32768 <= w <= 65535 -> is_finite f = true ->
  (exists x y z vy n,
      decompress_normal_from_int16 w = Some (x, y, z)
      /\ F2Q y = Some vy
      /\ norm2 (x, y, z) = Some n
      /\ (n <= 33 # 16)%Q
      /\ (~ (vy == 0)%Q -> (n <= 1 + (1 # 2 ^ 50))%Q))
  /\ (exists v n,
         decompress_normal_from_float f = Some v
         /\ norm2 v = Some n /\ (n <= 3)%Q).
Proof.
  intros Hw Hf. split.
  - destruct (Z.eq_dec w (-32768)) as [->|Hne].
    + replace (decompress_normal_from_int16 (-32768))
        with (decompress_normal_from_int16 0) by reflexivity.
      apply int16_length_checked. lia.
    + apply int16_length_checked. lia.
  - destruct (float_parts_between f Hf)
      as (x & y & z & Hd & (vx & Hx & Hx1 & Hx2) & (vy & Hy & Hy1 & Hy2)
          & (vz & Hz & Hz1 & Hz2)).
    exists (x, y, z), (vx * vx + vy * vy + vz * vz)%Q.
    split; [exact Hd|]. split; [apply norm2_parts; assumption|].
    pose proof (sq_le_one vx Hx1 Hx2). pose proof (sq_le_one vy Hy1 Hy2).
    pose proof (sq_le_one vz Hz1 Hz2). lra.
Qed.

Lemma normal_length_bound_witness :
  -32768 <= 40000 <= 65535 /\ is_finite 1000.5 = true
  /\ (exists x y z vy n,
      decompress_normal_from_int16 40000 = Some (x, y, z)
      /\ F2Q y = Some vy
      /\ norm2 (x, y, z) = Some n
      /\ (n <= 33 # 16)%Q
      /\ (~ (vy == 0)%Q -> (n <= 1 + (1 # 2 ^ 50))%Q))
  /\ (exists v n,
         decompress_normal_from_float 1000.5 = Some v
         /\ norm2 v = Some n /\ (n <= 3)%Q).
Proof.
  split; [lia|]. split; [reflexivity|].
  apply (normal_length_bound 40000 1000.5); [lia|reflexivity].
Defined.

(** C6 (as stated) fails at [w = 0]: the 16-bit variant returns a vector
    of squared length above 2, the float variant [(-1, -1, -1)] of squared
    length 3; neither is within [1 + eps] for any [eps <= 1]. *)
Lemma normal_length_exceeds_one :
  exists v,
    decompress_normal_from_int16 0 = Some v
    /\ decompress_normal_from_float 0 = Some (-1, -1, -1)%float
    /\ forall eps, (eps <= 1)%Q ->
         ~ Stated.nearly_unit eps v
         /\ ~ Stated.nearly_unit eps (-1, -1, -1)%float.
Proof.
  destruct (decompress_normal_from_int16 0) as [v|] eqn:E;
    [|vm_compute in E; discriminate].
  exists v. split; [reflexivity|]. split; [vm_compute; reflexivity|].
  intros eps Heps. split; intros (n & Hn & Hle).
  - vm_compute in E. injection E as <-. vm_compute in Hn. injection Hn as <-.
    assert (H2 : (2 < 1 + eps)%Q).
    { eapply Qlt_le_trans; [|exact Hle]. vm_compute. reflexivity. }
    lra.
  - vm_compute in Hn. injection Hn as <-. lra.
Qed.

(* ================================================================== *)
(** * Tree utilities *)


Lemma find_app {A} (f : A -> bool) l1 l2 :
  List.find f (l1 ++ l2)
  = match List.find f l1 with Some x => Some x | None => List.find f l2 end.
Proof.
  induction l1 as [|x l1 IH]; [reflexivity|].
  cbn. destruct (f x); [reflexivity|exact IH].
Qed.

Lemma get_node_by_uid_find (root : TPLNode) (u : Z) :
  get_node_by_uid root u = List.find (fun n => uid n =? u) (nodes root).
Proof.
  induction root as [id s lm wm m cs my IH] using TPLNode_forall_ind.
  cbn [get_node_by_uid nodes List.find uid].
  destruct (id =? u); [reflexivity|].
  induction IH as [|c rest Hc _ IHrest]; [reflexivity|].
  cbn [flat_map]. rewrite find_app, <- Hc.
  destruct (get_node_by_uid c u); [reflexivity|exact IHrest].
Qed.

(** X1.  [get_node_by_uid] returns the first node, in preorder, whose
    uid is the one asked for. *)
Theorem get_node_by_uid_first (root : TPLNode) (u : Z) :
  get_node_by_uid root u = List.find (fun n => uid n =? u) (nodes root).
Proof. exact (get_node_by_uid_find root u). Qed.

(** X2.  [get_node_by_uid] returns [None] exactly when no node of the
    tree has the uid; a node it returns has the uid and belongs to the
    tree. *)
Theorem get_node_by_uid_none (root : TPLNode) (u : Z) :
  (get_node_by_uid root u = None <-> ~ In u (uids root))
  /\ (forall n, get_node_by_uid root u = Some n ->
                uid n = u /\ In n (nodes root)).
Proof.
  rewrite get_node_by_uid_find.
  assert (Hu : uids root = map uid (nodes root)).
  { induction root as [id s lm wm m cs my IH] using TPLNode_forall_ind.
    cbn [uids nodes map uid]. f_equal.
    induction IH as [|c rest Hc _ IHrest]; [reflexivity|].
    cbn [flat_map]. rewrite map_app, Hc, IHrest. reflexivity. }
  rewrite Hu. split.
  - split.
    + intros H Hin. apply in_map_iff in Hin. destruct Hin as (n & En & Hn).
      apply (find_none _ _ H) in Hn. apply Z.eqb_neq in Hn. contradiction.
    + intros H. destruct (List.find _ _) as [n|] eqn:E; [|reflexivity].
      apply find_some in E. destruct E as [Hin E]. apply Z.eqb_eq in E.
      exfalso. apply H. apply in_map_iff. exists n. split; assumption.
  - intros n H. apply find_some in H. destruct H as [Hin E].
    apply Z.eqb_eq in E. split; assumption.
Qed.

(** X3.  [get_all_mesh_nodes] returns, in preorder, exactly the nodes
    that carry a mesh. *)
Theorem get_all_mesh_nodes_filter (root : TPLNode) :
  get_all_mesh_nodes root = filter has_mesh (nodes root).
Proof.
  induction root as [id s lm wm m cs my IH] using TPLNode_forall_ind.
  cbn [get_all_mesh_nodes nodes filter has_mesh mesh].
  assert (E : flat_map get_all_mesh_nodes cs
              = filter has_mesh (flat_map nodes cs)).
  { induction IH as [|c rest Hc _ IHrest]; [reflexivity|].
    cbn [flat_map]. rewrite filter_app, Hc, IHrest. reflexivity. }
  rewrite E. destruct m; reflexivity.
Qed.

(* ================================================================== *)
(** * String readers *)

Lemma read_string_in_range (r : BytesIO) :
  0 <= pos r -> pos r + 4 <= len (buf r) ->
  let length := to_signed 32 (le_uint (slice (buf r) (pos r) (pos r + 4))) in
  0 < length <= 10000 ->
  let stop := Z.min (pos r + 4 + length) (len (buf r)) in
  read_string r
  = (Some (decode_replace (slice (buf r) (pos r + 4) stop)),
     {| buf := buf r; pos := stop |}).
Proof.
  intros Hp Hfit length Hl stop.
  unfold read_string, bind. rewrite read_i_exact by assumption.
  fold length.
  replace ((length <=? 0) || (length >? 10000)) with false.
  2:{ symmetry. apply orb_false_iff. split.
      - apply Z.leb_gt. lia.
      - rewrite Z.gtb_ltb. apply Z.ltb_ge. lia. }
  unfold read. cbn [buf pos].
  destruct (length <? 0) eqn:E; [apply Z.ltb_lt in E; lia|].
  assert (Hs : pos r + 4 + Z.min length (len (buf r) - (pos r + 4)) = stop)
    by (unfold stop; lia).
  rewrite Hs. reflexivity.
Qed.

(** X4.  With a length between 1 and 10000 [read_string] returns the
    bytes after the prefix, decoded, up to the declared length or the end
    of the buffer, whichever comes first, and leaves the cursor there. *)
Theorem read_string_payload (r : BytesIO) :
  0 <= pos r -> pos r + 4 <= len (buf r) ->
  let length := to_signed 32 (le_uint (slice (buf r) (pos r) (pos r + 4))) in
  0 < length <= 10000 ->
  let stop := Z.min (pos r + 4 + length) (len (buf r)) in
  read_string r
  = (Some (decode_replace (slice (buf r) (pos r + 4) stop)),
     {| buf := buf r; pos := stop |}).
Proof. exact (read_string_in_range r). Qed.

(** X5.  With fewer than four bytes left [read_string] raises (the
    length cannot be unpacked), the cursor at the end of the buffer. *)
Theorem read_string_short_prefix (r : BytesIO) :
  0 <= pos r <= len (buf r) -> len (buf r) < pos r + 4 ->
  read_string r = (None, {| buf := buf r; pos := len (buf r) |}).
Proof.
  intros Hp Hshort. unfold read_string, read_i, bind, read.
  destruct (4 <? 0) eqn:E; [discriminate|].
  rewrite Z.min_r by lia.
  replace (pos r + (len (buf r) - pos r)) with (len (buf r)) by lia.
  unfold lift, unpack_i, unpack_uint.
  rewrite len_slice by lia.
  destruct (len (buf r) - pos r =? 4) eqn:E4; [apply Z.eqb_eq in E4; lia|].
  reflexivity.
Qed.


Lemma byte_val_range (b : byte) : 0 <= byte_val b < 256.
Proof.
  unfold byte_val. pose proof (Byte.to_N_bounded b) as H. lia.
Qed.

Lemma byte_val_of_Z (c : Z) : 0 <= c < 256 -> byte_val (byte_of_Z c) = c.
Proof.
  intros Hc. unfold byte_val, byte_of_Z. rewrite Z.mod_small by lia.
  destruct (Byte.of_N (Z.to_N c)) as [b|] eqn:E.
  - apply Byte.to_of_N in E. rewrite E. lia.
  - apply Byte.of_N_None_iff in E. lia.
Qed.

Lemma byte_of_Z_mod (z : Z) : byte_val (byte_of_Z z) = z mod 256.
Proof.
  unfold byte_of_Z. pose proof (Z.mod_pos_bound z 256 ltac:(lia)) as H.
  fold (byte_of_Z (z mod 256)).
  replace (match Byte.of_N (Z.to_N (z mod 256)) with
           | Some b => b | None => Byte.x00 end)
    with (byte_of_Z (z mod 256)).
  - apply byte_val_of_Z. exact H.
  - unfold byte_of_Z. rewrite Z.mod_mod by lia. reflexivity.
Qed.

Lemma le_uint_i32 (n : Z) :
  0 <= n < 4294967296 ->
  le_uint (map byte_of_Z [n; n / 256; n / 65536; n / 16777216]) = n.
Proof.
  intros Hn. cbn [map le_uint]. rewrite !byte_of_Z_mod.
  pose proof (Z.div_mod n 256 ltac:(lia)).
  pose proof (Z.div_mod (n / 256) 256 ltac:(lia)).
  pose proof (Z.div_mod (n / 256 / 256) 256 ltac:(lia)).
  rewrite !Z.div_div in * by lia.
  change (256 * 256) with 65536 in *. change (65536 * 256) with 16777216 in *.
  assert (n / 16777216 < 256) by (apply Z.div_lt_upper_bound; lia).
  assert (0 <= n / 16777216) by (apply Z.div_pos; lia).
  rewrite (Z.mod_small (n / 16777216)) by lia. lia.
Qed.

Lemma utf8_decode_ascii (s : str) :
  Forall (fun c => 0 <= c < 128) s -> utf8_decode true s = Some s.
Proof.
  induction 1 as [|c s Hc _ IH]; [reflexivity|].
  cbn [utf8_decode].
  destruct (c <? 128) eqn:E; [|apply Z.ltb_ge in E; lia].
  rewrite IH. reflexivity.
Qed.

Lemma decode_replace_ascii (s : str) :
  Forall (fun c => 0 <= c < 128) s ->
  decode_replace (map byte_of_Z s) = s.
Proof.
  intros H. unfold decode_replace.
  assert (E : map byte_val (map byte_of_Z s) = s).
  { induction H as [|c s Hc _ IH]; [reflexivity|].
    cbn [map]. rewrite byte_val_of_Z by lia. f_equal. exact IH. }
  rewrite E, utf8_decode_ascii by assumption. reflexivity.
Qed.

Lemma slice_app_left {A} (l1 l2 : list A) (n : Z) :
  n = len l1 -> slice (l1 ++ l2) 0 n = l1.
Proof.
  intros ->. unfold slice, len. cbn [Z.to_nat skipn].
  rewrite Z.sub_0_r, Nat2Z.id, firstn_app, Nat.sub_diag, firstn_all.
  cbn. apply app_nil_r.
Qed.

Lemma slice_app_mid {A} (l1 l2 l3 : list A) (i j : Z) :
  i = len l1 -> j = len l1 + len l2 -> slice (l1 ++ l2 ++ l3) i j = l2.
Proof.
  intros -> ->. unfold slice, len.
  rewrite Nat2Z.id, skipn_app, skipn_all, Nat.sub_diag. cbn [app skipn].
  replace (Z.to_nat (Z.of_nat (List.length l1) + Z.of_nat (List.length l2)
                     - Z.of_nat (List.length l1))) with (List.length l2) by lia.
  rewrite firstn_app, Nat.sub_diag, firstn_all. cbn. apply app_nil_r.
Qed.

(** X6.  A length-prefixed ASCII string of 1 to 10000 characters is
    read back as it was written, the cursor just after it. *)
Theorem read_string_round_trip (s : str) (rest : bytes) :
  Forall (fun c => 0 <= c < 128) s -> 0 < len s <= 10000 ->
  read_string (BytesIO_new (pack_string s ++ rest))
  = (Some s, {| buf := pack_string s ++ rest; pos := 4 + len s |}).
Proof.
  intros Ha Hl.
  set (hd := map byte_of_Z [len s; len s / 256; len s / 65536; len s / 16777216]).
  assert (Hbuf : pack_string s ++ rest = hd ++ map byte_of_Z s ++ rest).
  { unfold pack_string. fold hd. rewrite <- app_assoc. reflexivity. }
  assert (Hhd : len hd = 4) by reflexivity.
  assert (Hms : len (map byte_of_Z s) = len s)
    by (unfold len; rewrite length_map; reflexivity).
  assert (Hlen : len (pack_string s ++ rest) = 4 + len s + len rest).
  { rewrite Hbuf. unfold len in *. rewrite !length_app. lia. }
  pose proof (len_nonneg rest) as Hr.
  assert (Hpre : slice (pack_string s ++ rest) 0 4 = hd).
  { rewrite Hbuf. apply slice_app_left. symmetry. exact Hhd. }
  assert (Hn : to_signed 32 (le_uint hd) = len s).
  { unfold hd. rewrite le_uint_i32 by lia. unfold to_signed.
    destruct (len s <? 2 ^ (32 - 1)) eqn:E; [reflexivity|].
    apply Z.ltb_ge in E. change (2 ^ (32 - 1)) with 2147483648 in E. lia. }
  pose proof (read_string_in_range (BytesIO_new (pack_string s ++ rest))) as H.
  cbn [BytesIO_new buf pos] in H. rewrite !Z.add_0_l in H.
  rewrite Hpre, Hn in H.
  specialize (H ltac:(lia) ltac:(lia) Hl). cbv zeta in H.
  rewrite H. rewrite Z.min_l by lia.
  rewrite Hbuf at 1.
  rewrite (slice_app_mid hd (map byte_of_Z s) rest) by lia.
  rewrite decode_replace_ascii by assumption. reflexivity.
Qed.


Lemma skipn_succ {A} (n : nat) (l : list A) (x : A) (rest : list A) :
  skipn n l = x :: rest -> skipn (S n) l = rest.
Proof.
  revert l. induction n as [|n IH]; intros l H.
  - cbn in H. subst l. reflexivity.
  - destruct l as [|y l]; [discriminate|]. cbn in H. apply (IH l H).
Qed.

Lemma concat_singletons {A} (l : list A) :
  List.concat (map (fun x => [x]) l) = l.
Proof. induction l as [|x l IH]; [reflexivity|]. cbn. f_equal. exact IH. Qed.

Lemma read_cstring_loop_spec (rem : bytes) :
  forall (r : BytesIO) (chars : list bytes) (fuel : nat),
    0 <= pos r <= len (buf r) ->
    skipn (Z.to_nat (pos r)) (buf r) = rem ->
    (List.length (before_nul rem) < fuel)%nat ->
    read_cstring_loop fuel chars r
    = (Some (chars ++ map (fun b => [b]) (before_nul rem)),
       {| buf := buf r;
          pos := Z.min (pos r + len (before_nul rem) + 1) (len (buf r)) |}).
Proof.
  induction rem as [|b rem IH]; intros r chars fuel Hp Hrem Hfuel.
  - destruct fuel as [|fuel]; [cbn in Hfuel; lia|].
    assert (Hlen : len (buf r) = pos r).
    { apply (f_equal (@List.length _)) in Hrem.
      rewrite length_skipn in Hrem. cbn in Hrem. unfold len in *. lia. }
    cbn [read_cstring_loop before_nul map]. unfold bind, read.
    destruct (1 <? 0) eqn:E; [discriminate|].
    rewrite Z.min_r by lia.
    unfold slice. rewrite Hrem, firstn_nil. cbn [bytes_eqb orb].
    unfold ret. rewrite app_nil_r. f_equal. f_equal.
    change (len (@nil byte)) with 0. lia.
  - destruct fuel as [|fuel]; [cbn in Hfuel; lia|].
    assert (Hlen : pos r < len (buf r)).
    { apply (f_equal (@List.length _)) in Hrem.
      rewrite length_skipn in Hrem. cbn in Hrem. unfold len in *. lia. }
    cbn [read_cstring_loop]. unfold bind at 1. unfold read at 1.
    destruct (1 <? 0) eqn:E; [discriminate|].
    rewrite Z.min_l by lia.
    unfold slice.
    replace (Z.to_nat (pos r + 1 - pos r)) with 1%nat by lia.
    rewrite Hrem. cbn [firstn bytes_eqb]. rewrite andb_true_r, orb_false_r.
    cbn [before_nul].
    destruct (Byte.eqb b Byte.x00) eqn:Eb.
    + unfold ret. cbn [map]. rewrite app_nil_r. f_equal. f_equal.
      change (len (@nil byte)) with 0. lia.
    + cbv iota.
      etransitivity;
        [apply (IH {| buf := buf r; pos := pos r + 1 |} (chars ++ [[b]]) fuel)|].
      * cbn [buf pos]. lia.
      * cbn [buf pos].
        replace (Z.to_nat (pos r + 1)) with (S (Z.to_nat (pos r))) by lia.
        apply (skipn_succ _ _ b). exact Hrem.
      * cbn [before_nul] in Hfuel. rewrite Eb in Hfuel. cbn in Hfuel. lia.
      * cbn [buf pos map]. rewrite <- app_assoc. cbn [app].
        f_equal. f_equal.
        replace (len (b :: before_nul rem)) with (len (before_nul rem) + 1)
          by (unfold len; cbn [List.length]; lia).
        lia.
Qed.

Lemma before_nul_length (bs : bytes) :
  (List.length (before_nul bs) <= List.length bs)%nat.
Proof.
  induction bs as [|b bs IH]; [reflexivity|].
  cbn. destruct (Byte.eqb b Byte.x00); cbn; lia.
Qed.

(** X7.  [read_cstring] never raises: it returns the decoded bytes before the
    first NUL (all that is left when there is none) and leaves the cursor
    after the NUL, or at the end of the buffer. *)
Theorem read_cstring_spec (r : BytesIO) :
  0 <= pos r <= len (buf r) ->
  let s := before_nul (skipn (Z.to_nat (pos r)) (buf r)) in
  read_cstring r
  = (Some (decode_replace s),
     {| buf := buf r; pos := Z.min (pos r + len s + 1) (len (buf r)) |}).
Proof.
  intros Hp s. unfold read_cstring, bind.
  rewrite (read_cstring_loop_spec (skipn (Z.to_nat (pos r)) (buf r)) r []
             _ Hp eq_refl).
  - cbn [app]. unfold ret. rewrite concat_singletons. reflexivity.
  - pose proof (before_nul_length (skipn (Z.to_nat (pos r)) (buf r))) as H.
    rewrite length_skipn in H. unfold len in *. lia.
Qed.

(* ================================================================== *)
(** * Normalised integers, colours and USF meshes *)

Lemma SFltb_leb x y : SFltb x y = true -> SFleb x y = true.
Proof.
  unfold SFltb, SFleb. destruct (SFcompare x y) as [[| |]|]; auto.
Qed.

Lemma ltb_leb (x y : float) : (x <? y)%float = true -> (x <=? y)%float = true.
Proof. rewrite ltb_spec, leb_spec. apply SFltb_leb. Qed.

(** X8.  [saturate] returns a number between 0 and 1 for every float,
    infinities and NaN included. *)
Theorem saturate_unit (x : float) : fbetween 0 1 (saturate x) = true.
Proof.
  unfold saturate, fbetween.
  destruct (x <? 1)%float eqn:E1.
  - destruct (0 <? x)%float eqn:E0.
    + rewrite (ltb_leb _ _ E0), (ltb_leb _ _ E1). reflexivity.
    + reflexivity.
  - reflexivity.
Qed.

Lemma unorm8_sweep : all_from (norm_ok unorm8_to_float 0 1) 256 0 = true.
Proof. vm_compute. reflexivity. Qed.

Lemma snorm8_sweep : all_from (norm_ok snorm8_to_float (-1) 1) 255 (-127) = true.
Proof. vm_compute. reflexivity. Qed.

Lemma snorm16_sweep :
  all_from (norm_ok snorm16_to_float (-1) 1) 65535 (-32767) = true.
Proof. vm_compute. reflexivity. Qed.

Lemma norm_ok_some conv lo hi v :
  norm_ok conv lo hi v = true ->
  exists f, conv v = Some f /\ fbetween lo hi f = true.
Proof.
  unfold norm_ok. destruct (conv v) as [f|]; [|discriminate].
  intros H. exists f. split; [reflexivity|exact H].
Qed.

(** X9.  [unorm8_to_float] maps every byte into [0, 1], 0 to 0.0 and 255 to
    1.0. *)
Theorem unorm8_to_float_range (v : Z) :
  0 <= v <= 255 ->
  (exists f, unorm8_to_float v = Some f /\ fbetween 0 1 f = true)
  /\ unorm8_to_float 0 = Some 0%float
  /\ unorm8_to_float 255 = Some 1%float.
Proof.
  intros Hv. split; [|split; reflexivity].
  apply norm_ok_some.
  apply (all_from_spec _ 256 0 unorm8_sweep).
  change (Z.of_nat 256) with 256. lia.
Qed.

(** X10.  [snorm8_to_float] maps [-127 .. 127] into [-1, 1] with the ends on
    -1.0 and 1.0; -128 falls below -1. *)
Theorem snorm8_to_float_range (v : Z) :
  -127 <= v <= 127 ->
  (exists f, snorm8_to_float v = Some f /\ fbetween (-1) 1 f = true)
  /\ snorm8_to_float (-127) = Some (-1)%float
  /\ snorm8_to_float 127 = Some 1%float
  /\ (exists g, snorm8_to_float (-128) = Some g /\ (g <? -1)%float = true).
Proof.
  intros Hv. split; [|split; [reflexivity|split; [reflexivity|]]].
  - apply norm_ok_some.
    apply (all_from_spec _ 255 (-127) snorm8_sweep).
    change (Z.of_nat 255) with 255. lia.
  - eexists. split; reflexivity.
Qed.

(** X11.  [snorm16_to_float] maps [-32767 .. 32767] into [-1, 1] with the ends
    on -1.0 and 1.0; -32768 falls below -1. *)
Theorem snorm16_to_float_range (v : Z) :
  -32767 <= v <= 32767 ->
  (exists f, snorm16_to_float v = Some f /\ fbetween (-1) 1 f = true)
  /\ snorm16_to_float (-32767) = Some (-1)%float
  /\ snorm16_to_float 32767 = Some 1%float
  /\ (exists g, snorm16_to_float (-32768) = Some g /\ (g <? -1)%float = true).
Proof.
  intros Hv. split; [|split; [reflexivity|split; [reflexivity|]]].
  - apply norm_ok_some.
    assert (E : Z.of_nat 65535 = 65535) by (vm_compute; reflexivity).
    apply (all_from_spec _ 65535 (-32767) snorm16_sweep). rewrite E. lia.
  - eexists. split; reflexivity.
Qed.


Lemma bind_some {S A B} (m : M S A) (k : A -> M S B) s y s' :
  bind m k s = (Some y, s') ->
  exists x s1, m s = (Some x, s1) /\ k x s1 = (Some y, s').
Proof.
  unfold bind. destruct (m s) as [[x|] s1]; [|discriminate].
  intros H. exists x, s1. split; [reflexivity|exact H].
Qed.

Tactic Notation "inv_bind" hyp(H) ident(x) ident(s) ident(Hx) :=
  apply bind_some in H; destruct H as (x & s & Hx & H).

Lemma for_range_Forall {S A} (P : A -> Prop) (item : M S A) :
  (forall s x s', item s = (Some x, s') -> P x) ->
  forall n s l s', for_range n item s = (Some l, s') -> Forall P l.
Proof.
  intros Hitem. induction n as [|n IH]; intros s l s' H.
  - cbn in H. injection H as <- _. constructor.
  - cbn [for_range] in H. inv_bind H x s1 Hx. inv_bind H xs s2 Hxs.
    injection H as <- _. constructor.
    + exact (Hitem _ _ _ Hx).
    + exact (IH _ _ _ Hxs).
Qed.

Lemma read_counted_Forall {A} (P : A -> Prop) (item : M BytesIO A) :
  (forall s x s', item s = (Some x, s') -> P x) ->
  forall s l s', USFParser.read_counted item s = (Some l, s') -> Forall P l.
Proof.
  intros Hitem s l s' H. unfold USFParser.read_counted in H.
  inv_bind H count s1 Hc.
  exact (for_range_Forall P item Hitem _ _ _ _ H).
Qed.

Lemma land_255 (x : Z) : 0 <= Z.land x 255 <= 255.
Proof.
  change 255 with (Z.ones 8). rewrite Z.land_ones by lia.
  pose proof (Z.mod_pos_bound x (2 ^ 8) ltac:(lia)) as H.
  change (2 ^ 8) with 256 in *. change (Z.ones 8) with 255. lia.
Qed.

Lemma channel_unit (k : Z) (v : float) :
  0 <= k <= 255 -> float_of_int k = Some v ->
  fbetween 0 1 (v / 255)%float = true.
Proof.
  intros Hk Hv.
  assert (H : norm_ok unorm8_to_float 0 1 k = true).
  { apply (all_from_spec _ 256 0 unorm8_sweep).
    change (Z.of_nat 256) with 256. lia. }
  unfold norm_ok, unorm8_to_float in H. rewrite Hv in H. exact H.
Qed.

Lemma read_color_unit s col s' :
  USFParser.read_color s = (Some col, s') -> unit_color col.
Proof.
  unfold USFParser.read_color. intros H.
  inv_bind H packed s1 Hp.
  inv_bind H cr s2 Hr. inv_bind H cg s3 Hg.
  inv_bind H cb s4 Hb. inv_bind H ca s5 Ha.
  injection H as <- _.
  assert (Hch : forall sh (st : BytesIO) x (st' : BytesIO),
             (v <- lift (float_of_int (Z.land (Z.shiftr packed sh) 255)) ;;
              ret (v / 255)%float) st = (Some x, st') ->
             fbetween 0 1 x = true).
  { intros sh st x st' H. inv_bind H v st1 Hv.
    unfold lift in Hv. injection Hv as Hv _.
    unfold ret in H. injection H as <- _.
    exact (channel_unit _ _ (land_255 _) Hv). }
  cbn [unit_color]. repeat split; eapply Hch; eassumption.
Qed.

Lemma usf_mesh_shape (r : BytesIO) (m : MeshData) (r' : BytesIO) :
  USFParser._parse_mesh r = (Some m, r') ->
  Forall usf_face (faces m) /\ Forall (Forall unit_color) (colors m).
Proof.
  unfold USFParser._parse_mesh. intros H.
  inv_bind H version r1 Hv. inv_bind H vs r2 Hvs. inv_bind H ns r3 Hns.
  inv_bind H cols r4 Hc. inv_bind H uvc r5 H5. inv_bind H uvs r6 H6.
  inv_bind H tg r7 H7. inv_bind H fs r8 Hf. inv_bind H mats r9 H9.
  inv_bind H bpv r10 H10. inv_bind H sc r11 H11. inv_bind H sk r12 H12.
  inv_bind H sm r13 H13. inv_bind H bones r14 H14. inv_bind H bp r15 H15.
  inv_bind H bl r16 H16.
  injection H as <- _. cbn [faces colors]. split.
  - apply (read_counted_Forall usf_face _) in Hf; [exact Hf|].
    intros s x s' Hx. inv_bind Hx data s1 Hd. injection Hx as <- _.
    unfold usf_face. cbn [a b c]. split; [|split; reflexivity].
    change 536870911 with (Z.ones 29). rewrite Z.land_ones by lia.
    pose proof (Z.mod_pos_bound data (2 ^ 29) ltac:(lia)) as Hm.
    change (2 ^ 29) with 536870912 in *. exact Hm.
  - destruct (version <? 258).
    + inv_bind Hc cc s1 Hcc. destruct (cc >? 0).
      * inv_bind Hc cs s2 Hcs. injection Hc as <- _.
        constructor; [|constructor].
        exact (for_range_Forall unit_color _ read_color_unit _ _ _ _ Hcs).
      * injection Hc as <- _. constructor.
    + apply (read_counted_Forall (Forall unit_color) _) in Hc; [exact Hc|].
      intros s x s' Hx.
      exact (read_counted_Forall unit_color _ read_color_unit _ _ _ Hx).
Qed.

(** X12.  Every face of a mesh that [USFParser._parse_mesh] returns
    holds a material index below 2^29 in [a] and zeros in [b] and
    [c]. *)
Theorem usf_faces_material_only (r : BytesIO) (m : MeshData) (r' : BytesIO) :
  USFParser._parse_mesh r = (Some m, r') -> Forall usf_face (faces m).
Proof. intros H. exact (proj1 (usf_mesh_shape r m r' H)). Qed.

(** X13.  Every colour of a mesh that [USFParser._parse_mesh] returns
    has its four channels between 0 and 1. *)
Theorem usf_colors_unit (r : BytesIO) (m : MeshData) (r' : BytesIO) :
  USFParser._parse_mesh r = (Some m, r') ->
  Forall (Forall unit_color) (colors m).
Proof. intros H. exact (proj2 (usf_mesh_shape r m r' H)). Qed.

(* ================================================================== *)
(** * Fixed-size reads *)

Lemma read_ffff_ok (r : BytesIO) :
  0 <= pos r -> pos r + 16 <= len (buf r) ->
  exists v, read_ffff r = (Some v, {| buf := buf r; pos := pos r + 16 |}).
Proof.
  intros Hp Hfit. unfold read_ffff, read_floats, bind.
  change (4 * 4) with 16. rewrite (@read_exact 16 r) by lia.
  unfold lift, unpack_words.
  rewrite (@len_slice _ (buf r) (pos r) (pos r + 16)) by lia.
  replace (pos r + 16 - pos r =? 4 * 4) with true
    by (symmetry; apply Z.eqb_eq; lia).
  cbn [Z.ltb Z.compare orb negb]. cbn [Z.to_nat Pos.to_nat Pos.iter_op
    Nat.add chunks4 map]. unfold ret. eexists. reflexivity.
Qed.

Lemma read_ffff_short (r : BytesIO) :
  0 <= pos r <= len (buf r) -> len (buf r) < pos r + 16 ->
  read_ffff r = (None, {| buf := buf r; pos := len (buf r) |}).
Proof.
  intros Hp Hshort. unfold read_ffff, read_floats, bind, read.
  change (4 * 4) with 16.
  destruct (16 <? 0) eqn:E; [discriminate|].
  rewrite Z.min_r by lia.
  replace (pos r + (len (buf r) - pos r)) with (len (buf r)) by lia.
  unfold lift, unpack_words.
  rewrite (@len_slice _ (buf r) (pos r) (len (buf r))) by lia.
  change (4 * 4) with 16.
  destruct (len (buf r) - pos r =? 16) eqn:E4; [apply Z.eqb_eq in E4; lia|].
  reflexivity.
Qed.

(** X20.  [Matrix4.read] takes exactly 64 bytes and returns four rows; with
    fewer than 64 bytes left it raises, the cursor at the end. *)
Theorem matrix_read_64 (r : BytesIO) :
  0 <= pos r <= len (buf r) ->
  (pos r + 64 <= len (buf r) ->
   exists m, Matrix4_read r = (Some m, {| buf := buf r; pos := pos r + 64 |})
             /\ List.length (rows m) = 4%nat)
  /\ (len (buf r) < pos r + 64 ->
      Matrix4_read r = (None, {| buf := buf r; pos := len (buf r) |})).
Proof.
  intros Hp.
  assert (Hstep : forall p, 0 <= p -> p + 16 <= len (buf r) ->
            exists v, read_ffff {| buf := buf r; pos := p |}
                      = (Some v, {| buf := buf r; pos := p + 16 |})).
  { intros p H0 H1. apply (read_ffff_ok {| buf := buf r; pos := p |}); cbn; lia. }
  assert (Hfail : forall p, 0 <= p <= len (buf r) -> len (buf r) < p + 16 ->
            read_ffff {| buf := buf r; pos := p |}
            = (None, {| buf := buf r; pos := len (buf r) |})).
  { intros p H0 H1.
    apply (read_ffff_short {| buf := buf r; pos := p |}); cbn; lia. }
  assert (Hr : r = {| buf := buf r; pos := pos r |}) by (destruct r; reflexivity).
  unfold Matrix4_read. cbn [for_range]. split.
  - intros Hfit.
    destruct (Hstep (pos r) ltac:(lia) ltac:(lia)) as (v1 & E1).
    destruct (Hstep (pos r + 16) ltac:(lia) ltac:(lia)) as (v2 & E2).
    destruct (Hstep (pos r + 16 + 16) ltac:(lia) ltac:(lia)) as (v3 & E3).
    destruct (Hstep (pos r + 16 + 16 + 16) ltac:(lia) ltac:(lia)) as (v4 & E4).
    exists {| rows := [v1; v2; v3; v4] |}. split; [|reflexivity].
    rewrite Hr at 1. unfold bind. rewrite E1, E2, E3, E4. unfold ret.
    f_equal. f_equal. lia.
  - intros Hshort. rewrite Hr at 1. unfold bind.
    destruct (Z_lt_le_dec (len (buf r)) (pos r + 16)) as [S1|S1].
    { rewrite (Hfail (pos r)) by lia. reflexivity. }
    destruct (Hstep (pos r) ltac:(lia) S1) as (v1 & E1). rewrite E1.
    destruct (Z_lt_le_dec (len (buf r)) (pos r + 16 + 16)) as [S2|S2].
    { rewrite (Hfail (pos r + 16)) by lia. reflexivity. }
    destruct (Hstep (pos r + 16) ltac:(lia) S2) as (v2 & E2). rewrite E2.
    destruct (Z_lt_le_dec (len (buf r)) (pos r + 16 + 16 + 16)) as [S3|S3].
    { rewrite (Hfail (pos r + 16 + 16)) by lia. reflexivity. }
    destruct (Hstep (pos r + 16 + 16) ltac:(lia) S3) as (v3 & E3). rewrite E3.
    rewrite (Hfail (pos r + 16 + 16 + 16)) by lia. reflexivity.
Qed.

Lemma read_fff_ok (r : BytesIO) :
  0 <= pos r -> pos r + 12 <= len (buf r) ->
  exists v, read_fff r = (Some v, {| buf := buf r; pos := pos r + 12 |}).
Proof.
  intros Hp Hfit. unfold read_fff, read_floats, bind.
  change (4 * 3) with 12. rewrite (@read_exact 12 r) by lia.
  unfold lift, unpack_words.
  rewrite (@len_slice _ (buf r) (pos r) (pos r + 12)) by lia.
  replace (pos r + 12 - pos r =? 4 * 3) with true
    by (symmetry; apply Z.eqb_eq; lia).
  cbn [Z.ltb Z.compare orb negb]. cbn [Z.to_nat Pos.to_nat Pos.iter_op
    Nat.add chunks4 map]. unfold ret. eexists. reflexivity.
Qed.

Lemma read_fff_short (r : BytesIO) :
  0 <= pos r <= len (buf r) -> len (buf r) < pos r + 12 ->
  read_fff r = (None, {| buf := buf r; pos := len (buf r) |}).
Proof.
  intros Hp Hshort. unfold read_fff, read_floats, bind, read.
  change (4 * 3) with 12.
  destruct (12 <? 0) eqn:E; [discriminate|].
  rewrite Z.min_r by lia.
  replace (pos r + (len (buf r) - pos r)) with (len (buf r)) by lia.
  unfold lift, unpack_words.
  rewrite (@len_slice _ (buf r) (pos r) (len (buf r))) by lia.
  change (4 * 3) with 12.
  destruct (len (buf r) - pos r =? 12) eqn:E4; [apply Z.eqb_eq in E4; lia|].
  reflexivity.
Qed.

Lemma for_range_fff_ok (data : bytes) (n : nat) : forall p,
  0 <= p -> p + 12 * Z.of_nat n <= len data ->
  exists vs,
    for_range n read_fff {| buf := data; pos := p |}
    = (Some vs, {| buf := data; pos := p + 12 * Z.of_nat n |})
    /\ List.length vs = n.
Proof.
  induction n as [|n IH]; intros p Hp Hfit.
  - exists []. split; [|reflexivity]. cbn [for_range]. unfold ret.
    f_equal. f_equal. lia.
  - destruct (read_fff_ok {| buf := data; pos := p |}) as (v & Ev);
      [cbn; lia|cbn; lia|].
    cbn [buf pos] in Ev.
    destruct (IH (p + 12) ltac:(lia) ltac:(lia)) as (vs & Evs & Hl).
    exists (v :: vs). split; [|cbn; lia].
    cbn [for_range]. unfold bind. rewrite Ev, Evs. unfold ret.
    f_equal. f_equal. lia.
Qed.

Lemma for_range_fff_short (data : bytes) (n : nat) : forall p,
  0 <= p <= len data -> len data < p + 12 * Z.of_nat n ->
  fst (for_range n read_fff {| buf := data; pos := p |}) = None.
Proof.
  induction n as [|n IH]; intros p Hp Hshort.
  - lia.
  - cbn [for_range]. unfold bind.
    destruct (Z_lt_le_dec (len data) (p + 12)) as [S1|S1].
    + rewrite (read_fff_short {| buf := data; pos := p |}) by (cbn; lia).
      reflexivity.
    + destruct (read_fff_ok {| buf := data; pos := p |}) as (v & Ev);
        [cbn; lia|cbn; lia|].
      cbn [buf pos] in Ev. rewrite Ev.
      specialize (IH (p + 12) ltac:(lia) ltac:(lia)).
      destruct (for_range n read_fff {| buf := data; pos := p + 12 |})
        as [[vs|] s1]; [discriminate|reflexivity].
Qed.

(** X21.  A counted list of USF vertices (or normals): a count of zero or less
    gives the empty list; a positive count takes exactly [12 * count]
    bytes after the count; when fewer are left the read raises. *)
Theorem usf_vertex_list (r : BytesIO) :
  0 <= pos r -> pos r + 4 <= len (buf r) ->
  let count := to_signed 32 (le_uint (slice (buf r) (pos r) (pos r + 4))) in
  (count <= 0 ->
   USFParser.read_counted read_fff r
   = (Some [], {| buf := buf r; pos := pos r + 4 |}))
  /\ (0 < count -> pos r + 4 + 12 * count <= len (buf r) ->
      exists vs,
        USFParser.read_counted read_fff r
        = (Some vs, {| buf := buf r; pos := pos r + 4 + 12 * count |})
        /\ len vs = count)
  /\ (0 < count -> len (buf r) < pos r + 4 + 12 * count ->
      fst (USFParser.read_counted read_fff r) = None).
Proof.
  intros Hp Hfit count. unfold USFParser.read_counted, bind.
  rewrite read_i_exact by assumption. fold count. unfold range_len.
  clearbody count. split; [|split].
  - intros Hc. replace (Z.to_nat count) with 0%nat by lia. reflexivity.
  - intros Hc Hroom.
    destruct (for_range_fff_ok (buf r) (Z.to_nat count) (pos r + 4))
      as (vs & E & Hl); [lia|lia|].
    exists vs. rewrite E. rewrite Z2Nat.id by lia. split; [reflexivity|].
    unfold len. lia.
  - intros Hc Hshort.
    apply (for_range_fff_short (buf r) (Z.to_nat count) (pos r + 4)); lia.
Qed.

Section ShortFile.

Variable isalpha : Z -> bool.
Variable depth : nat.

Lemma starts_with_len (needle hay : bytes) :
starts_with needle hay = true -> len needle <= len hay.
Proof.
revert hay. induction needle as [|n ns IH]; intros hay H.
- unfold len. cbn. lia.
- destruct hay as [|h hs]; [discriminate|]. cbn in H.
  apply andb_true_iff in H. destruct H as [_ H]. apply IH in H.
  unfold len in *. cbn [List.length]. lia.
Qed.

(** X22.  On an existing file of fewer than four bytes [load_tpl] raises
  (the header is unpacked outside every [try]) before any parser is
  called. *)
Theorem load_tpl_short_file fs filepath content :
read_file fs filepath = Some content -> len content < 4 ->
load_tpl_run isalpha depth fs filepath = (None, []).
Proof.
intros Hf Hl. unfold load_tpl_run. rewrite Hf.
assert (Hh : len (firstn 8 content) < 4).
{ unfold len in *. rewrite length_firstn. lia. }
destruct (starts_with (blit "1SER") (firstn 8 content)) eqn:E.
- apply starts_with_len in E. change (len (blit "1SER")) with 4 in E. lia.
- unfold unpack_i, unpack_uint.
  destruct (len (firstn 4 (firstn 8 content)) =? 4) eqn:E4; [|reflexivity].
  apply Z.eqb_eq in E4. unfold len in *. rewrite length_firstn in E4. lia.
Qed.

End ShortFile.

(* ================================================================== *)
(** * Property sections *)

Lemma parse_line_assignment fields line :
  PropertySection._parse_line fields line
  = match assignment line with
    | Some kv => kv :: fields
    | None => fields
    end.
Proof.
  unfold PropertySection._parse_line, assignment. cbv zeta.
  destruct (existsb (Z.eqb 61) (strip line)); [|reflexivity].
  destruct (partition_at 61 (strip line)). reflexivity.
Qed.

Lemma get_fold_lines lines : forall fields key d,
  PropertySection.get (fold_left PropertySection._parse_line lines fields) key d
  = match List.find (assigns key) (rev lines) with
    | Some line => match assignment line with
                   | Some (_, v) => v
                   | None => d
                   end
    | None => PropertySection.get fields key d
    end.
Proof.
  induction lines as [|line lines IH]; intros fields key d.
  - reflexivity.
  - cbn [fold_left rev]. rewrite IH, find_app.
    destruct (List.find (assigns key) (rev lines)); [reflexivity|].
    cbn [List.find]. rewrite parse_line_assignment. unfold assigns.
    destruct (assignment line) as [[k v]|] eqn:E; [|reflexivity].
    cbn [PropertySection.get].
    destruct (str_eqb k key); [rewrite E|]; reflexivity.
Qed.

Lemma property_get_lines (data key d : str) :
  PropertySection.get (PropertySection.__init__ data) key d
  = match List.find (assigns key) (rev (property_lines data)) with
    | Some line => match assignment line with
                   | Some (_, v) => v
                   | None => d
                   end
    | None => d
    end.
Proof.
  unfold property_lines.
  destruct data as [|c data]; [reflexivity|].
  unfold PropertySection.__init__, PropertySection._parse.
  destruct (strip (c :: data)) as [|c' s'] eqn:E.
  - reflexivity.
  - rewrite get_fold_lines. cbn [PropertySection.get]. reflexivity.
Qed.

Lemma strip_trimmed s : trimmed s -> strip s = s.
Proof.
  intros [Hh Ht]. unfold strip, rstrip_by.
  assert (E : lstrip_by isspace s = s).
  { destruct s as [|c s]; [reflexivity|]. cbn. rewrite Hh. reflexivity. }
  rewrite E.
  destruct (rev s) as [|c r] eqn:Er.
  - rewrite <- (rev_involutive s), Er. reflexivity.
  - cbn [lstrip_by]. rewrite Ht. rewrite <- Er. apply rev_involutive.
Qed.

Lemma trimmed_assignment key value :
  trimmed key -> trimmed value -> trimmed (key ++ 61 :: value).
Proof.
  intros [Hk _] [_ Hv]. split.
  - destruct key as [|c key]; [reflexivity|exact Hk].
  - rewrite rev_app_distr. cbn [rev]. rewrite <- app_assoc. cbn [app].
    destruct (rev value) as [|c r]; [reflexivity|exact Hv].
Qed.

Lemma split_by_whole (p : Z -> bool) (s : str) :
  Forall (fun c => p c = false) s -> split_by p s = [s].
Proof.
  induction 1 as [|c s Hc _ IH]; [reflexivity|].
  cbn [split_by]. rewrite IH, Hc. reflexivity.
Qed.

Lemma partition_at_first (sep : Z) (key value : str) :
  Forall (fun c => c <> sep) key ->
  partition_at sep (key ++ sep :: value) = (key, value).
Proof.
  induction 1 as [|c key Hc _ IH].
  - cbn. rewrite Z.eqb_refl. reflexivity.
  - cbn [app partition_at]. rewrite IH.
    destruct (c =? sep) eqn:E; [apply Z.eqb_eq in E; contradiction|].
    reflexivity.
Qed.

Lemma str_eqb_refl (s : str) : str_eqb s s = true.
Proof.
  unfold str_eqb. rewrite Z.eqb_refl. cbn [andb].
  induction s as [|c s IH]; [reflexivity|].
  cbn. rewrite Z.eqb_refl. exact IH.
Qed.

(** X14.  [PropertySection(data).get(key, default)] is the value of the
    last line that assigns [key], and [default] when no line does. *)
Theorem property_last_assignment (data key d : str) :
  PropertySection.get (PropertySection.__init__ data) key d
  = match List.find (assigns key) (rev (property_lines data)) with
    | Some line => match assignment line with
                   | Some (_, v) => v
                   | None => d
                   end
    | None => d
    end.
Proof. exact (property_get_lines data key d). Qed.

(** X15.  A clean [key=value] line is read back: the value, without its
    quotes when it has them. *)
Theorem property_round_trip (key value d : str) :
  trimmed key -> trimmed value ->
  Forall (fun c => c <> 61 /\ c <> 59 /\ c <> 10) key ->
  Forall (fun c => c <> 59 /\ c <> 10) value ->
  PropertySection.get (PropertySection.__init__ (key ++ 61 :: value)) key d
  = PropertySection.unquote value.
Proof.
  intros Tk Tv Hk Hv.
  pose proof (trimmed_assignment key value Tk Tv) as Tl.
  assert (Hsep : Forall (fun c => (c =? 59) || (c =? 10) = false)
                        (key ++ 61 :: value)).
  { apply Forall_app. split.
    - eapply Forall_impl; [|exact Hk]. cbn. intros c (_ & H1 & H2).
      apply orb_false_iff. split; apply Z.eqb_neq; assumption.
    - constructor; [reflexivity|].
      eapply Forall_impl; [|exact Hv]. cbn. intros c (H1 & H2).
      apply orb_false_iff. split; apply Z.eqb_neq; assumption. }
  assert (Hkey : Forall (fun c => c <> 61) key).
  { eapply Forall_impl; [|exact Hk]. cbn. intros c (H & _). exact H. }
  assert (Ha : assignment (key ++ 61 :: value)
               = Some (key, PropertySection.unquote value)).
  { unfold assignment. rewrite (strip_trimmed _ Tl).
    replace (existsb (Z.eqb 61) (key ++ 61 :: value)) with true.
    - rewrite (partition_at_first 61 key value Hkey).
      rewrite (strip_trimmed _ Tk), (strip_trimmed _ Tv). reflexivity.
    - symmetry. apply existsb_exists. exists 61. split; [|reflexivity].
      apply in_or_app. right. left. reflexivity. }
  rewrite property_get_lines. unfold property_lines.
  rewrite (strip_trimmed _ Tl), (split_by_whole _ _ Hsep).
  cbn [rev app List.find]. unfold assigns. rewrite Ha, str_eqb_refl.
  rewrite Ha. reflexivity.
Qed.

(* ================================================================== *)
(** * The 1SER parser and the loader *)

Lemma obind_some {A B} (o : option A) (k : A -> option B) y :
  obind o k = Some y -> exists x, o = Some x /\ k x = Some y.
Proof.
  destruct o as [x|]; [|discriminate]. intros H. exists x. auto.
Qed.

Lemma parse_vertices_inv data (n : nat) : forall i seen mesh mesh',
  SERParser.parse_vertices data n i seen mesh = Some mesh' ->
  List.length (normals mesh) = List.length (vertices mesh) ->
  seen = rev (map pos_key (vertices mesh)) ->
  fresh_keys seen ->
  List.length (normals mesh') = List.length (vertices mesh')
  /\ fresh_keys (rev (map pos_key (vertices mesh')))
  /\ (List.length (vertices mesh') <= List.length (vertices mesh) + n)%nat
  /\ faces mesh' = faces mesh.
Proof.
  induction n as [|n IH]; intros i seen mesh mesh' H Hl Hs Hf.
  - cbn in H. injection H as <-. subst seen. repeat split; auto; lia.
  - cbn [SERParser.parse_vertices] in H. cbv zeta in H.
    destruct (i * 8 + 8 >? len data).
    { injection H as <-. subst seen. repeat split; auto. lia. }
    apply obind_some in H. destruct H as (x & _ & H).
    apply obind_some in H. destruct H as (y & _ & H).
    apply obind_some in H. destruct H as (z & _ & H).
    apply obind_some in H. destruct H as (packed & _ & H).
    apply obind_some in H. destruct H as (fx & _ & H).
    apply obind_some in H. destruct H as (fy & _ & H).
    apply obind_some in H. destruct H as (fz & _ & H).
    cbn [fst snd] in H.
    match type of H with
    | (if existsb (SERParser.key_eqb ?k) seen then _ else _) = _ =>
      set (key := k) in *
    end.
    destruct (existsb (SERParser.key_eqb key) seen) eqn:E.
    + destruct (IH _ _ _ _ H Hl Hs Hf) as (A & B & C & D).
      repeat split; auto. lia.
    + apply obind_some in H. destruct H as (nrm & _ & H).
      apply IH in H.
      * cbn [vertices normals faces] in H. destruct H as (A & B & C & D).
        repeat split; auto. rewrite length_app in C. cbn in C. lia.
      * cbn [vertices normals]. rewrite !length_app, Hl. reflexivity.
      * cbn [vertices]. rewrite map_app, rev_app_distr. cbn [map rev app].
        rewrite <- Hs. reflexivity.
      * cbn [fresh_keys]. split; assumption.
Qed.

(** X16.  The mesh that the 1SER geometry pass builds has one normal per
    vertex, and no vertex whose rounded position was seen before. *)
Theorem ser_vertices_deduplicated (s : SERParser.t) (node : TPLNode) :
  SERParser.geometry_node s = Some node ->
  exists m, mesh node = Some m
            /\ List.length (normals m) = List.length (vertices m)
            /\ fresh_keys (rev (map pos_key (vertices m))).
Proof.
  unfold SERParser.geometry_node. cbv zeta. intros H.
  apply obind_some in H. destruct H as ([ve fo] & _ & H).
  apply obind_some in H. destruct H as (m0 & Hv & H).
  apply obind_some in H. destruct H as (fs & _ & H).
  injection H as <-. cbn [mesh].
  eexists. split; [reflexivity|]. cbn [normals vertices].
  destruct (parse_vertices_inv _ _ _ _ _ _ Hv eq_refl eq_refl I)
    as (A & B & _).
  split; assumption.
Qed.

Lemma ser_parse_markers isalpha s s' :
  SERParser._parse isalpha s = (true, s') ->
  0 <= find (SERParser.tpl_data s) (blit "TPL1")
  /\ 0 <= find (SERParser.tpl_data s) (blit "OGM1").
Proof.
  unfold SERParser._parse, SERParser._parse_body.
  unfold bind at 1.
  destruct (SERParser._parse_tpl1 s) as [[ok1|] s1] eqn:E1;
    [|intros E; inversion E].
  assert (H1 : ok1 = true -> 0 <= find (SERParser.tpl_data s) (blit "TPL1")).
  { revert E1. unfold SERParser._parse_tpl1, bind, get, ret.
    destruct (find (SERParser.tpl_data s) (blit "TPL1") <? 0) eqn:Ef.
    - intros E Hok. inversion E. congruence.
    - intros _ _. apply Z.ltb_ge in Ef. exact Ef. }
  apply parse_tpl1_inv in E1. destruct E1 as [O1 (_ & _ & D1)].
  destruct ok1; cbn [negb]; [|intros E; inversion E].
  unfold bind at 1.
  destruct (SERParser._parse_ogm1 isalpha s1) as [[ok2|] s2] eqn:E2;
    [|intros E; inversion E].
  assert (H2 : ok2 = true -> 0 <= find (SERParser.tpl_data s1) (blit "OGM1")).
  { revert E2. unfold SERParser._parse_ogm1. unfold bind at 1. unfold get.
    destruct (find (SERParser.tpl_data s1) (blit "OGM1") <? 0) eqn:Ef.
    - unfold ret. intros E Hok. inversion E. congruence.
    - intros _ _. apply Z.ltb_ge in Ef. exact Ef. }
  destruct ok2; cbn [negb]; [|intros E; inversion E].
  intros _. rewrite D1 in H2. auto.
Qed.

Lemma names_loop_data isalpha fuel : forall ogm1_end pos s r s',
  SERParser._parse_object_names_loop isalpha fuel ogm1_end pos s = (r, s') ->
  SERParser.tpl_data s' = SERParser.tpl_data s.
Proof.
  induction fuel as [|fuel IH]; intros ogm1_end pos s r s'.
  - cbn. intros E. inversion E. reflexivity.
  - cbn [SERParser._parse_object_names_loop].
    destruct (pos <? ogm1_end - 10).
    + unfold bind at 1. unfold get at 1.
      destruct (SERParser._read_string s pos) as [nm new_pos].
      destruct (SERParser.name_ok isalpha nm).
      * unfold bind, modify. intros E. apply IH in E. exact E.
      * intros E. apply IH in E. exact E.
    + cbn. intros E. inversion E. reflexivity.
Qed.

Lemma parse_ogm1_data isalpha s r s' :
  SERParser._parse_ogm1 isalpha s = (r, s') ->
  SERParser.tpl_data s' = SERParser.tpl_data s.
Proof.
  unfold SERParser._parse_ogm1, bind at 1. unfold get at 1.
  destruct (find (SERParser.tpl_data s) (blit "OGM1") <? 0).
  - intros E. inversion E. reflexivity.
  - unfold bind, lift, modify, ret.
    repeat match goal with
           | |- context [unpack_from_H ?d ?p] =>
             destruct (unpack_from_H d p);
               [| intros E; inversion E; subst; reflexivity]
           end.
    unfold SERParser._parse_object_names, bind, get.
    match goal with
    | |- context [SERParser._parse_object_names_loop ?i ?f ?e ?p ?st] =>
      destruct (SERParser._parse_object_names_loop i f e p st) as [r1 s1] eqn:EL
    end.
    apply names_loop_data in EL. cbn in EL.
    destruct r1; intros E; inversion E; subst; exact EL.
Qed.

Lemma ser_parse_data isalpha s r s' :
  SERParser._parse isalpha s = (r, s') ->
  SERParser.tpl_data s' = SERParser.tpl_data s.
Proof.
  unfold SERParser._parse, SERParser._parse_body.
  unfold bind at 1.
  destruct (SERParser._parse_tpl1 s) as [[ok1|] s1] eqn:E1.
  2:{ apply parse_tpl1_inv in E1. destruct E1 as [_ (_ & _ & D1)].
      intros E. inversion E. subst. exact D1. }
  apply parse_tpl1_inv in E1. destruct E1 as [_ (_ & _ & D1)].
  destruct ok1; cbn [negb].
  2:{ intros E. inversion E. subst. exact D1. }
  unfold bind at 1.
  destruct (SERParser._parse_ogm1 isalpha s1) as [[ok2|] s2] eqn:E2.
  2:{ apply parse_ogm1_data in E2. intros E. inversion E. subst. congruence. }
  apply parse_ogm1_data in E2.
  destruct ok2; cbn [negb].
  2:{ intros E. inversion E. subst. congruence. }
  unfold bind at 1.
  destruct (SERParser._parse_geometry s2) as [[u3|] s3] eqn:E3.
  2:{ apply parse_geometry_inv in E3. destruct E3 as [(_ & _ & D3) _].
      intros E. inversion E. subst. congruence. }
  apply parse_geometry_inv in E3. destruct E3 as [(_ & _ & D3) _].
  unfold bind. rewrite build_hierarchy_inv. unfold ret.
  intros E. inversion E. subst.
  destruct (SERParser.objects s3); cbn; congruence.
Qed.

(** X17.  [SERParser.load] succeeds only when the TPL file exists, starts
    with [1SER] and holds the [TPL1] and [OGM1] markers; the parser then
    holds that file's content.  The TPL file is the path in pathlib's
    normal form or, when that is a folder, the file of the folder's name
    inside it. *)
Theorem ser_load_requirements isalpha fs filepath self self' :
  SERParser.load isalpha fs filepath self = (true, self') ->
  exists d,
    read_file fs (ser_tpl_file fs filepath) = Some d
    /\ starts_with (blit "1SER") d = true
    /\ 0 <= find d (blit "TPL1")
    /\ 0 <= find d (blit "OGM1")
    /\ SERParser.tpl_data self' = d.
Proof.
  unfold SERParser.load, ser_tpl_file.
  set (P := Path filepath).
  set (tf := if is_dir fs P then path_join P (path_name P) else P).
  set (df := if is_dir fs P
             then path_join P (path_name P ++ "_data")%string
             else Path (P ++ "_data")%string).
  replace (if is_dir fs P
           then (path_join P (path_name P),
                 path_join P (path_name P ++ "_data")%string)
           else (P, Path (P ++ "_data")%string))
    with (tf, df) by (unfold tf, df; destruct (is_dir fs P); reflexivity).
  destruct (negb (path_exists fs tf)); [discriminate|].
  destruct (read_file fs tf) as [d|]; [|discriminate].
  destruct (starts_with (blit "1SER") d) eqn:Em; cbn [negb]; [|discriminate].
  assert (Hp : forall s0, SERParser.tpl_data s0 = d ->
                 SERParser._parse isalpha s0 = (true, self') ->
                 exists d0, Some d = Some d0
                   /\ starts_with (blit "1SER") d0 = true
                   /\ 0 <= find d0 (blit "TPL1") /\ 0 <= find d0 (blit "OGM1")
                   /\ SERParser.tpl_data self' = d0).
  { intros s0 Hd H. pose proof (ser_parse_markers _ _ _ H) as [A B].
    rewrite Hd in A, B. exists d. repeat split; auto.
    pose proof (ser_parse_data isalpha s0 true self' H) as D.
    congruence. }
  destruct (path_exists fs df).
  - destruct (read_file fs df) as [g|]; [|discriminate].
    apply Hp. reflexivity.
  - apply Hp. reflexivity.
Qed.


(** X18.  After a successful 1SER parse the tree is flat: the root is the
    synthetic node over all recovered objects, none of which has
    children, and only the first can carry a mesh; without objects there
    is no root. *)
Theorem ser_tree_flat isalpha (s0 s' : SERParser.t) :
  SERParser.objects s0 = [] -> SERParser.root s0 = None ->
  SERParser._parse isalpha s0 = (true, s') ->
  match SERParser.root s' with
  | None => SERParser.objects s' = []
  | Some r =>
    r = ser_root (SERParser.objects s')
    /\ SERParser.objects s' <> []
    /\ Forall (fun n => children n = []) (children r)
    /\ Forall (fun n => mesh n = None) (tl (children r))
  end.
Proof.
  intros Ho Hr H.
  destruct (@ser_parse_shape isalpha s0 s' Ho Hr H)
    as (objs & extra & [_ Hn] & Hobj & Hex & Hroot).
  rewrite Hroot.
  destruct (SERParser.objects s') as [|o os] eqn:E; [reflexivity|].
  split; [reflexivity|]. split; [discriminate|].
  cbn [ser_root children]. rewrite Hobj.
  assert (Hc : Forall (fun n => children n = []) objs).
  { eapply Forall_impl; [|exact Hn]. cbn. intros n [A _]. exact A. }
  assert (Hm : Forall (fun n => mesh n = None) objs).
  { eapply Forall_impl; [|exact Hn]. cbn. intros n [_ A]. exact A. }
  destruct Hex as [->|(node & s1 & -> & _ & Hg)].
  - cbn [app]. split; [exact Hc|].
    destruct objs; [constructor|]. cbn. inversion Hm. assumption.
  - cbn [app tl]. split; [|exact Hm].
    constructor; [|exact Hc].
    destruct (@geometry_node_faces s1 node Hg) as (m & -> & _). reflexivity.
Qed.

Section LoaderFacts.

Variable isalpha : Z -> bool.
Variable depth : nat.

(** X19.  A tree that [load_tpl] returns comes with the format of the parser
  that built it: never with [UNKNOWN]. *)
Theorem load_tpl_tree_origin fs filepath (tree : TPLNode) (fmt : format_type) :
load_tpl isalpha depth fs filepath = Some (Some tree, fmt) ->
(fmt = FMT_1SER
 /\ fst (SERParser.load isalpha fs filepath SERParser.__init__) = true
 /\ SERParser.root (snd (SERParser.load isalpha fs filepath SERParser.__init__))
    = Some tree)
\/ (fmt = FMT_USF
    /\ fst (USFParser.load fs depth filepath USFParser.__init__) = true
    /\ USFParser.root (snd (USFParser.load fs depth filepath USFParser.__init__))
       = Some tree).
Proof.
unfold load_tpl, load_tpl_run.
destruct (read_file fs filepath) as [content|]; [|discriminate].
destruct (SERParser.load isalpha fs filepath SERParser.__init__)
  as [oks ps] eqn:Es.
destruct (USFParser.load fs depth filepath USFParser.__init__)
  as [oku pu] eqn:Eu.
cbn [fst snd].
destruct (starts_with (blit "1SER") (firstn 8 content)).
- destruct oks; cbn [fst]; intros E; inversion E. left. auto.
- destruct (unpack_i (firstn 4 (firstn 8 content))) as [v|];
    [|discriminate].
  destruct ((0 <? v) && (v <? 1000)).
  + destruct oku; cbn [fst].
    * intros E; inversion E. right. auto.
    * destruct oks; cbn [fst]; intros E; inversion E. left. auto.
  + destruct oks; cbn [fst].
    * intros E; inversion E. left. auto.
    * destruct oku; cbn [fst]; intros E; inversion E. right. auto.
Qed.

End LoaderFacts.

(* ================================================================== *)
(** * The properties on sample inputs *)

Ltac by_evaluation :=
  vm_compute;
  first [ reflexivity
        | discriminate
        | split; first [reflexivity | discriminate] ].

Ltac each_char :=
  vm_compute; repeat constructor; cbv beta;
  try discriminate; try (intro; discriminate).

Lemma read_string_payload_witness :
  read_string Inputs.string_reader
  = (Some (lit "wood"), {| buf := buf Inputs.string_reader; pos := 8 |}).
Proof.
  exact (read_string_payload Inputs.string_reader
           ltac:(by_evaluation) ltac:(by_evaluation) ltac:(by_evaluation)).
Defined.

Lemma read_string_short_prefix_witness :
  read_string Inputs.short_reader
  = (None, {| buf := buf Inputs.short_reader; pos := 3 |}).
Proof.
  exact (read_string_short_prefix Inputs.short_reader
           ltac:(by_evaluation) ltac:(by_evaluation)).
Defined.

Lemma read_string_round_trip_witness :
  read_string (BytesIO_new (pack_string (lit "wood") ++ Samples.zeros 2))
  = (Some (lit "wood"),
     {| buf := pack_string (lit "wood") ++ Samples.zeros 2; pos := 8 |}).
Proof.
  exact (read_string_round_trip (lit "wood") (Samples.zeros 2)
           ltac:(each_char) ltac:(by_evaluation)).
Defined.

Lemma read_cstring_spec_witness :
  read_cstring Inputs.cstring_reader
  = (Some (lit "mesh"), {| buf := buf Inputs.cstring_reader; pos := 5 |}).
Proof.
  exact (read_cstring_spec Inputs.cstring_reader ltac:(by_evaluation)).
Defined.

Lemma unorm8_to_float_range_witness :
  (exists f, unorm8_to_float 128 = Some f /\ fbetween 0 1 f = true)
  /\ unorm8_to_float 0 = Some 0%float
  /\ unorm8_to_float 255 = Some 1%float.
Proof. exact (unorm8_to_float_range 128 ltac:(lia)). Defined.

Lemma snorm8_to_float_range_witness :
  (exists f, snorm8_to_float (-64) = Some f /\ fbetween (-1) 1 f = true)
  /\ snorm8_to_float (-127) = Some (-1)%float
  /\ snorm8_to_float 127 = Some 1%float
  /\ (exists g, snorm8_to_float (-128) = Some g /\ (g <? -1)%float = true).
Proof. exact (snorm8_to_float_range (-64) ltac:(lia)). Defined.

Lemma snorm16_to_float_range_witness :
  (exists f, snorm16_to_float 12345 = Some f /\ fbetween (-1) 1 f = true)
  /\ snorm16_to_float (-32767) = Some (-1)%float
  /\ snorm16_to_float 32767 = Some 1%float
  /\ (exists g, snorm16_to_float (-32768) = Some g /\ (g <? -1)%float = true).
Proof. exact (snorm16_to_float_range 12345 ltac:(lia)). Defined.

Lemma usf_faces_material_only_witness :
  Forall usf_face (faces Inputs.parsed_mesh).
Proof.
  exact (usf_faces_material_only (BytesIO_new Inputs.mesh_with_color)
           Inputs.parsed_mesh Inputs.parsed_mesh_reader
           ltac:(vm_compute; reflexivity)).
Defined.

Lemma usf_colors_unit_witness :
  Forall (Forall unit_color) (colors Inputs.parsed_mesh).
Proof.
  exact (usf_colors_unit (BytesIO_new Inputs.mesh_with_color)
           Inputs.parsed_mesh Inputs.parsed_mesh_reader
           ltac:(vm_compute; reflexivity)).
Defined.

Lemma matrix_read_64_witness :
  (pos Inputs.matrix_reader + 64 <= len (buf Inputs.matrix_reader) ->
   exists m,
     Matrix4_read Inputs.matrix_reader
     = (Some m, {| buf := buf Inputs.matrix_reader;
                   pos := pos Inputs.matrix_reader + 64 |})
     /\ List.length (rows m) = 4%nat)
  /\ (len (buf Inputs.matrix_reader) < pos Inputs.matrix_reader + 64 ->
      Matrix4_read Inputs.matrix_reader
      = (None, {| buf := buf Inputs.matrix_reader;
                  pos := len (buf Inputs.matrix_reader) |})).
Proof.
  exact (matrix_read_64 Inputs.matrix_reader ltac:(by_evaluation)).
Defined.

Lemma usf_vertex_list_witness :
  exists vs,
    USFParser.read_counted read_fff Inputs.vertices_reader
    = (Some vs, {| buf := buf Inputs.vertices_reader; pos := 28 |})
    /\ len vs = 2.
Proof.
  exact (proj1 (proj2 (usf_vertex_list Inputs.vertices_reader
                         ltac:(by_evaluation) ltac:(by_evaluation)))
           ltac:(by_evaluation) ltac:(by_evaluation)).
Defined.

Lemma load_tpl_short_file_witness :
  load_tpl_run Samples.ascii_isalpha 1000
    (Samples.one_file "tiny.tpl" (Samples.zeros 3)) "tiny.tpl"
  = (None, []).
Proof.
  exact (load_tpl_short_file Samples.ascii_isalpha 1000
           (Samples.one_file "tiny.tpl" (Samples.zeros 3)) "tiny.tpl"
           (Samples.zeros 3) ltac:(reflexivity) ltac:(by_evaluation)).
Defined.

Lemma property_round_trip_witness :
  PropertySection.get
    (PropertySection.__init__
       (lit "textureName" ++ 61 :: 34 :: lit "wood.dds" ++ [34]))
    (lit "textureName") []
  = lit "wood.dds".
Proof.
  exact (property_round_trip (lit "textureName")
           (34 :: lit "wood.dds" ++ [34]) []
           ltac:(by_evaluation) ltac:(by_evaluation)
           ltac:(each_char) ltac:(each_char)).
Defined.

Lemma ser_vertices_deduplicated_witness :
  exists m,
    mesh Inputs.blob_node = Some m
    /\ List.length (normals m) = List.length (vertices m)
    /\ fresh_keys (rev (map pos_key (vertices m))).
Proof.
  exact (ser_vertices_deduplicated Inputs.blob_parser Inputs.blob_node
           ltac:(vm_compute; reflexivity)).
Defined.

Lemma ser_load_requirements_witness :
  ser_tpl_file Inputs.tpl_folder "mdl/" = "mdl/mdl"%string
  /\ exists d,
       read_file Inputs.tpl_folder (ser_tpl_file Inputs.tpl_folder "mdl/")
       = Some d
       /\ starts_with (blit "1SER") d = true
       /\ 0 <= find d (blit "TPL1")
       /\ 0 <= find d (blit "OGM1")
       /\ SERParser.tpl_data Inputs.folder_loaded = d.
Proof.
  exact (conj (eq_refl : ser_tpl_file Inputs.tpl_folder "mdl/"
                         = "mdl/mdl"%string)
           (ser_load_requirements Samples.ascii_isalpha
              Inputs.tpl_folder "mdl/"
              SERParser.__init__ Inputs.folder_loaded
              ltac:(vm_compute; reflexivity))).
Defined.

Lemma ser_tree_flat_witness :
  match SERParser.root Inputs.two_names_parsed with
  | None => SERParser.objects Inputs.two_names_parsed = []
  | Some r =>
    r = ser_root (SERParser.objects Inputs.two_names_parsed)
    /\ SERParser.objects Inputs.two_names_parsed <> []
    /\ Forall (fun n => children n = []) (children r)
    /\ Forall (fun n => mesh n = None) (tl (children r))
  end.
Proof.
  exact (ser_tree_flat Samples.ascii_isalpha
           (Samples.ser_parser Samples.ser_two_names [])
           Inputs.two_names_parsed
           ltac:(reflexivity) ltac:(reflexivity)
           ltac:(vm_compute; reflexivity)).
Defined.

Lemma load_tpl_tree_origin_witness :
  (FMT_USF = FMT_1SER
   /\ fst (SERParser.load Samples.ascii_isalpha
             (Samples.one_file "model.tpl" Samples.usf_twins) "model.tpl"
             SERParser.__init__) = true
   /\ SERParser.root
        (snd (SERParser.load Samples.ascii_isalpha
                (Samples.one_file "model.tpl" Samples.usf_twins) "model.tpl"
                SERParser.__init__))
      = Some Samples.usf_twins_tree)
  \/ (FMT_USF = FMT_USF
      /\ fst (USFParser.load (Samples.one_file "model.tpl" Samples.usf_twins)
                1000 "model.tpl" USFParser.__init__) = true
      /\ USFParser.root
           (snd (USFParser.load
                   (Samples.one_file "model.tpl" Samples.usf_twins)
                   1000 "model.tpl" USFParser.__init__))
         = Some Samples.usf_twins_tree).
Proof.
  exact (load_tpl_tree_origin Samples.ascii_isalpha 1000
           (Samples.one_file "model.tpl" Samples.usf_twins) "model.tpl"
           Samples.usf_twins_tree FMT_USF
           ltac:(vm_compute; reflexivity)).
Defined.
(* ================================================================== *)
(** * Object-name recovery as a scan *)

Lemma starts_with_firstn (needle hay : bytes) :
  starts_with needle hay = true <-> firstn (List.length needle) hay = needle.
Proof.
  revert hay. induction needle as [|n ns IH]; intros hay; cbn.
  - split; reflexivity.
  - destruct hay as [|h hs]; cbn.
    + split; discriminate.
    + rewrite andb_true_iff, IH. split.
      * intros [E1 E2]. apply Byte.byte_dec_bl in E1. subst. f_equal. exact E2.
      * intros E. injection E as E1 E2.
        split; [apply Byte.byte_dec_lb; exact (eq_sym E1)|exact E2].
Qed.

Lemma find_from_spec (needle : bytes) : needle <> [] ->
  forall (hay : bytes) (i : Z),
  0 <= i ->
  let r := find_from needle hay i in
  (r = -1 /\ forall k, starts_with needle (skipn k hay) = false)
  \/ (exists k, r = i + Z.of_nat k
                /\ starts_with needle (skipn k hay) = true
                /\ forall j, (j < k)%nat ->
                             starts_with needle (skipn j hay) = false).
Proof.
  intros Hne hay. induction hay as [|h rest IH]; intros i Hi; cbn [find_from].
  - destruct needle as [|n ns]; [contradiction|]. left. split; [reflexivity|].
    intros k. rewrite skipn_nil. reflexivity.
  - destruct (starts_with needle (h :: rest)) eqn:E.
    + right. exists 0%nat. cbn [skipn]. split; [lia|]. split; [exact E|].
      intros j Hj. lia.
    + destruct (IH (i + 1) ltac:(lia)) as [[R N]|(k & R & T & N)].
      * left. split; [exact R|]. intros [|k]; cbn [skipn]; [exact E|apply N].
      * right. exists (Datatypes.S k). split; [lia|]. cbn [skipn].
        split; [exact T|]. intros [|j] Hj; cbn [skipn]; [exact E|].
        apply N. lia.
Qed.

Lemma occurs_at_starts (needle data : bytes) (i : Z) :
  occurs_at needle data i
  <-> 0 <= i /\ starts_with needle (skipn (Z.to_nat i) data) = true.
Proof.
  unfold occurs_at, slice. rewrite starts_with_firstn.
  replace (Z.to_nat (i + len needle - i)) with (List.length needle)
    by (unfold len; lia).
  reflexivity.
Qed.

(** The end of the region as the code computes it. *)
Lemma region_end_find (data : bytes) (stop : Z) :
  region_end data stop
  <-> stop = (if find data (blit "ANIM") <? 0 then len data
              else find data (blit "ANIM")).
Proof.
  assert (Hne : blit "ANIM" <> []) by discriminate.
  pose proof (find_from_spec (blit "ANIM") Hne data 0 ltac:(lia)) as H.
  cbv zeta in H. fold (find data (blit "ANIM")) in H.
  unfold region_end.
  destruct H as [[R N]|(k & R & T & N)]; rewrite R.
  - change (-1 <? 0) with true. cbv iota. split.
    + intros [[Ho _]|[_ E]]; [|exact E].
      apply occurs_at_starts in Ho. destruct Ho as [_ Ho].
      rewrite N in Ho. discriminate.
    + intros ->. right. split; [|reflexivity].
      intros j Ho. apply occurs_at_starts in Ho. destruct Ho as [_ Ho].
      rewrite N in Ho. discriminate.
  - replace (0 + Z.of_nat k <? 0) with false by (symmetry; apply Z.ltb_ge; lia).
    assert (Hk : occurs_at (blit "ANIM") data (0 + Z.of_nat k)).
    { apply occurs_at_starts. split; [lia|].
      replace (Z.to_nat (0 + Z.of_nat k)) with k by lia. exact T. }
    assert (Hmin : forall j, occurs_at (blit "ANIM") data j ->
                             0 + Z.of_nat k <= j).
    { intros j Ho. apply occurs_at_starts in Ho. destruct Ho as [Hj Ho].
      destruct (Z_lt_le_dec j (0 + Z.of_nat k)) as [Hlt|]; [|assumption].
      rewrite (N (Z.to_nat j)) in Ho by lia. discriminate. }
    split.
    + intros [[Ho Hm]|[Hn _]].
      * specialize (Hm _ Hk). specialize (Hmin _ Ho). lia.
      * destruct (Hn _ Hk).
    + intros ->. left. split; assumption.
Qed.

(** A candidate is what [_read_string] returns, with the position after
    the payload. *)
Lemma candidate_read (self : SERParser.t) (pos : Z) (name : str) :
  candidate (SERParser.tpl_data self) pos name ->
  SERParser._read_string self pos
  = (name, pos + 4 + le_uint (slice (SERParser.tpl_data self) pos (pos + 4))).
Proof.
  unfold candidate. cbv zeta. intros (H1 & H2 & H3 & s & Hs & ->).
  unfold SERParser._read_string.
  replace (pos + 4 >? len (SERParser.tpl_data self)) with false
    by (symmetry; rewrite Z.gtb_ltb; apply Z.ltb_ge; lia).
  cbv zeta.
  replace (le_uint (slice (SERParser.tpl_data self) pos (pos + 4)) >? 256)
    with false by (symmetry; rewrite Z.gtb_ltb; apply Z.ltb_ge; lia).
  replace (le_uint (slice (SERParser.tpl_data self) pos (pos + 4)) =? 0)
    with false by (symmetry; apply Z.eqb_neq; lia).
  cbn [orb].
  replace (pos + 4 + le_uint (slice (SERParser.tpl_data self) pos (pos + 4))
           >? len (SERParser.tpl_data self)) with false
    by (symmetry; rewrite Z.gtb_ltb; apply Z.ltb_ge; lia).
  rewrite Hs. reflexivity.
Qed.

Lemma read_candidate (self : SERParser.t) (pos : Z) (name : str) (new_pos : Z) :
  SERParser._read_string self pos = (name, new_pos) -> name <> [] ->
  candidate (SERParser.tpl_data self) pos name
  /\ new_pos = pos + 4 + le_uint (slice (SERParser.tpl_data self) pos (pos + 4)).
Proof.
  intros E Hne.
  destruct (@read_string_candidate self pos name new_pos E Hne)
    as (A & B & C & D & s & Hs & Hn).
  unfold candidate. cbv zeta. repeat split; try lia. exists s. auto.
Qed.

Lemma candidate_unique (data : bytes) (pos : Z) (n1 n2 : str) :
  candidate data pos n1 -> candidate data pos n2 -> n1 = n2.
Proof.
  unfold candidate. cbv zeta.
  intros (_ & _ & _ & s1 & H1 & ->) (_ & _ & _ & s2 & H2 & ->). congruence.
Qed.

Lemma with_object_data (nm : str) (s : SERParser.t) :
  SERParser.tpl_data (with_object nm s) = SERParser.tpl_data s.
Proof. reflexivity. Qed.

(** The loop computes the scan. *)
Lemma names_loop_scan (isalpha : Z -> bool) (data : bytes) (stop : Z)
      (fuel : nat) :
  forall (pos : Z) (self : SERParser.t),
    SERParser.tpl_data self = data ->
    (Z.to_nat (stop - 10 - pos) <= fuel)%nat ->
    exists names,
      scan isalpha data stop pos names
      /\ SERParser._parse_object_names_loop isalpha fuel stop pos self
         = (Some tt, fold_left (fun s nm => with_object nm s) names self).
Proof.
  induction fuel as [|fuel IH]; intros pos self Hd Hf.
  - exists []. split; [apply scan_end; lia|reflexivity].
  - cbn [SERParser._parse_object_names_loop].
    destruct (pos <? stop - 10) eqn:E.
    2:{ apply Z.ltb_ge in E. exists []. split; [apply scan_end; lia|reflexivity]. }
    apply Z.ltb_lt in E.
    unfold bind at 1. unfold get at 1.
    destruct (SERParser._read_string self pos) as [nm np] eqn:R.
    destruct (SERParser.name_ok isalpha nm) eqn:K.
    + assert (Hne : nm <> []) by (intros ->; discriminate K).
      destruct (read_candidate self pos nm np R Hne) as [Hc Hnp].
      rewrite Hd in Hc, Hnp.
      assert (Hlen : 0 < le_uint (slice data pos (pos + 4))).
      { destruct Hc as (_ & H & _). cbv zeta in H. lia. }
      destruct (IH np (with_object nm self)) as (names & Hs & Hl).
      { rewrite with_object_data. exact Hd. }
      { lia. }
      exists (nm :: names). split.
      * apply scan_take; [exact E|exact Hc|apply name_ok_iff; exact K|].
        rewrite <- Hnp. exact Hs.
      * unfold bind, modify. cbn [fold_left]. exact Hl.
    + destruct (IH (pos + 1) self Hd ltac:(lia)) as (names & Hs & Hl).
      exists names. split; [|exact Hl].
      apply scan_retry; [exact E| |exact Hs].
      intros name Hc Ht. rewrite <- Hd in Hc.
      rewrite (candidate_read self pos name Hc) in R.
      injection R as -> _. apply name_ok_iff in Ht. congruence.
Qed.

Lemma scan_unique (isalpha : Z -> bool) (data : bytes) (stop pos : Z)
      (n1 : list str) :
  scan isalpha data stop pos n1 ->
  forall n2, scan isalpha data stop pos n2 -> n1 = n2.
Proof.
  induction 1 as [pos Hp | pos nm nms Hp Hc Ht Hs IH
                 | pos nms Hp Hn Hs IH]; intros n2 H2.
  - inversion H2; subst; [reflexivity|lia|lia].
  - inversion H2 as [q Hq | q nm' nms' Hq Hc' Ht' Hs' | q nms' Hq Hn' Hs'];
      subst; [lia| |].
    + rewrite (candidate_unique data pos nm nm' Hc Hc').
      f_equal. apply IH. assumption.
    + exfalso. exact (Hn' nm Hc Ht).
  - inversion H2 as [q Hq | q nm' nms' Hq Hc' Ht' Hs' | q nms' Hq Hn' Hs'];
      subst; [lia| |].
    + exfalso. exact (Hn nm' Hc' Ht').
    + apply IH. assumption.
Qed.

Lemma unpack_from_H_some (data : bytes) (pos : Z) :
  0 <= pos -> pos + 2 <= len data ->
  unpack_from_H data pos = Some (le_uint (slice data pos (pos + 2))).
Proof.
  intros H1 H2. unfold unpack_from_H, unpack_from_uint.
  replace (pos <? 0) with false by (symmetry; apply Z.ltb_ge; lia).
  replace (len data <? pos + 2) with false by (symmetry; apply Z.ltb_ge; lia).
  reflexivity.
Qed.

(** [_parse_ogm1] starts the name recovery right after the five 16-bit
    fields that follow the tag. *)
Lemma parse_ogm1_names (isalpha : Z -> bool) (self : SERParser.t) :
  let data := SERParser.tpl_data self in
  let p := find data (blit "OGM1") in
  0 <= p -> p + 14 <= len data ->
  exists self1,
    SERParser.tpl_data self1 = data
    /\ SERParser.objects self1 = SERParser.objects self
    /\ SERParser._parse_ogm1 isalpha self
       = (Some true,
          snd (SERParser._parse_object_names isalpha (p + 14) self1)).
Proof.
  intros data p Hp Hl.
  exists (SERParser.set_submesh_count
            (le_uint (slice data (p + 12) (p + 14)))
            (SERParser.set_object_count
               (le_uint (slice data (p + 10) (p + 12)))
               (SERParser.set_mesh_count
                  (le_uint (slice data (p + 8) (p + 10)))
                  (SERParser.set_buffer_count
                     (le_uint (slice data (p + 4) (p + 6))) self)))).
  split; [reflexivity|]. split; [reflexivity|].
  unfold SERParser._parse_ogm1. unfold bind at 1. unfold get at 1.
  fold data. fold p.
  replace (p <? 0) with false by (symmetry; apply Z.ltb_ge; lia).
  cbv zeta.
  rewrite (unpack_from_H_some data (p + 4)) by lia.
  replace (p + 4 + 2 + 2) with (p + 8) by lia.
  rewrite (unpack_from_H_some data (p + 8)) by lia.
  replace (p + 8 + 2) with (p + 10) by lia.
  rewrite (unpack_from_H_some data (p + 10)) by lia.
  replace (p + 10 + 2) with (p + 12) by lia.
  rewrite (unpack_from_H_some data (p + 12)) by lia.
  replace (p + 12 + 2) with (p + 14) by lia.
  replace (p + 4 + 2) with (p + 6) by lia.
  unfold bind, lift, modify, ret.
  match goal with
  | |- context [SERParser._parse_object_names ?i ?q ?st] =>
    destruct (SERParser._parse_object_names i q st) as [[u|] s1] eqn:EL
  end.
  - reflexivity.
  - exfalso. revert EL. unfold SERParser._parse_object_names, bind, get.
    match goal with
    | |- context [SERParser._parse_object_names_loop ?i ?f ?e ?q ?st] =>
      destruct (names_loop_scan i (SERParser.tpl_data st) e f q st eq_refl
                                (le_n _)) as (names & _ & ->)
    end.
    discriminate.
Qed.

(** C8 (amended).  Name recovery scans from 100 bytes after the position
    it is given, which [_parse_ogm1] makes the end of the five 16-bit
    fields after the [OGM1] tag, for as long as the cursor is more than
    10 bytes before the first [ANIM] marker (the end of the buffer when
    there is none).  A candidate at the cursor (a 4-byte length in
    (0, 256], then that many bytes of well-formed UTF-8 inside the
    buffer, trailing NULs dropped) is taken exactly when its length lies
    strictly between 1 and 100 and it holds an alphabetic character: a
    node with the next uid is appended and the cursor moves past the
    payload; otherwise the cursor moves by one byte.  The names taken
    are the ones of the scan, and no others. *)
Theorem object_name_scan (isalpha : Z -> bool) (self : SERParser.t)
        (start_pos stop : Z) :
  region_end (SERParser.tpl_data self) stop ->
  (exists names,
      scan isalpha (SERParser.tpl_data self) stop (start_pos + 100) names
      /\ (forall names',
             scan isalpha (SERParser.tpl_data self) stop (start_pos + 100)
                  names' -> names' = names)
      /\ SERParser._parse_object_names isalpha start_pos self
         = (Some tt, fold_left (fun s nm => with_object nm s) names self))
  /\ (let p := find (SERParser.tpl_data self) (blit "OGM1") in
      0 <= p -> p + 14 <= len (SERParser.tpl_data self) ->
      exists self1,
        SERParser.tpl_data self1 = SERParser.tpl_data self
        /\ SERParser.objects self1 = SERParser.objects self
        /\ SERParser._parse_ogm1 isalpha self
           = (Some true,
              snd (SERParser._parse_object_names isalpha (p + 14) self1))).
Proof.
  intros Hstop. split; [|exact (parse_ogm1_names isalpha self)].
  apply region_end_find in Hstop.
  unfold SERParser._parse_object_names, bind, get.
  rewrite <- Hstop.
  destruct (names_loop_scan isalpha (SERParser.tpl_data self) stop
              (Z.to_nat (stop - 10 - (start_pos + 100)))
              (start_pos + 100) self eq_refl (le_n _)) as (names & Hs & Hl).
  exists names. split; [exact Hs|]. split; [|exact Hl].
  intros names' Hs'. symmetry. exact (scan_unique _ _ _ _ _ Hs _ Hs').
Qed.

Lemma object_name_scan_witness :
  region_end Inputs.ser_with_anim 163
  /\ (exists names,
      scan Samples.ascii_isalpha Inputs.ser_with_anim 163 (30 + 100) names
      /\ (forall names',
             scan Samples.ascii_isalpha Inputs.ser_with_anim 163 (30 + 100)
                  names' -> names' = names)
      /\ SERParser._parse_object_names Samples.ascii_isalpha 30
           (Samples.ser_parser Inputs.ser_with_anim [])
         = (Some tt, fold_left (fun s nm => with_object nm s) names
                               (Samples.ser_parser Inputs.ser_with_anim [])))
  /\ map name
         (SERParser.objects
            (snd (SERParser._parse_object_names Samples.ascii_isalpha 30
                    (Samples.ser_parser Inputs.ser_with_anim []))))
     = [lit "Body"; lit "arm_L"]
  /\ map name
         (SERParser.objects
            (snd (SERParser._parse_object_names Samples.ascii_isalpha 30
                    (Samples.ser_parser Inputs.ser_without_anim []))))
     = [lit "Body"; lit "arm_L"; lit "Tail"].
Proof.
  assert (H : region_end Inputs.ser_with_anim 163).
  { apply region_end_find. vm_compute. reflexivity. }
  split; [exact H|].
  split.
  - exact (proj1 (object_name_scan Samples.ascii_isalpha
                    (Samples.ser_parser Inputs.ser_with_anim []) 30 163 H)).
  - split; vm_compute; reflexivity.
Defined.
(* ================================================================== *)
(** * Reads past the end of the buffer *)

Section ReadLaws.

Variable S : Type.
Variable reader_of : S -> BytesIO.
Variable extended : bytes -> S -> S.

Local Abbreviation stable := (Stable reader_of extended).
Local Abbreviation strict := (Strict reader_of extended).
Local Abbreviation hungry := (Hungry reader_of).

Lemma advances_in_buffer (s s' : S) :
  in_buffer reader_of s -> advances reader_of s s' -> in_buffer reader_of s'.
Proof. unfold in_buffer, advances. intros H [E B]. rewrite E. lia. Qed.

Lemma advances_trans (s1 s2 s3 : S) :
  advances reader_of s1 s2 -> advances reader_of s2 s3 ->
  advances reader_of s1 s3.
Proof.
  unfold advances. intros [E1 B1] [E2 B2]. rewrite E1 in *.
  split; [congruence|lia].
Qed.

Lemma advances_at_end (s s' : S) :
  at_end reader_of s -> advances reader_of s s' -> at_end reader_of s'.
Proof. unfold at_end, advances. intros H [E B]. rewrite E. lia. Qed.

Lemma strict_stable {A} (m : M S A) : strict m -> stable m.
Proof.
  intros H s a s' Hs E. destruct (H s a s' Hs E) as [Ha Hm].
  split; [exact Ha|left; exact Hm].
Qed.

Lemma strict_ret {A} (x : A) : strict (ret x).
Proof.
  intros s a s' Hs E. unfold ret in *. inversion E. subst.
  split; [|reflexivity]. unfold advances, in_buffer in *. split; [reflexivity|lia].
Qed.

Lemma strict_raise {A} : strict (@raise S A).
Proof. intros s a s' _ E. discriminate E. Qed.

Lemma hungry_raise {A} : hungry (@raise S A).
Proof. intros s _ _. reflexivity. Qed.

Lemma strict_lift {A} (o : option A) : strict (lift o).
Proof.
  intros s a s' Hs E. unfold lift in *. inversion E. subst.
  split; [|reflexivity]. unfold advances, in_buffer in *. split; [reflexivity|lia].
Qed.

Lemma bind_returns {A B} (m : M S A) (k : A -> M S B) s b s2 :
  bind m k s = (Some b, s2) ->
  exists a s1, m s = (Some a, s1) /\ k a s1 = (Some b, s2).
Proof.
  unfold bind. destruct (m s) as [[a|] s1]; [|discriminate]. eauto.
Qed.

Lemma stable_bind {A B} (m : M S A) (k : A -> M S B) :
  stable m -> (forall a, stable (k a)) -> stable (bind m k).
Proof.
  intros Hm Hk s b s2 Hs E.
  destruct (bind_returns m k s b s2 E) as (a & s1 & E1 & E2).
  destruct (Hm s a s1 Hs E1) as [A1 C1].
  pose proof (advances_in_buffer s s1 Hs A1) as Hs1.
  destruct (Hk a s1 b s2 Hs1 E2) as [A2 C2].
  split; [exact (advances_trans _ _ _ A1 A2)|].
  destruct C1 as [C1|C1].
  - destruct C2 as [C2|C2]; [left|right; exact C2].
    intros more. unfold bind. rewrite C1. apply C2.
  - right. exact (advances_at_end _ _ C1 A2).
Qed.

Lemma strict_bind {A B} (m : M S A) (k : A -> M S B) :
  strict m -> (forall a, strict (k a)) -> strict (bind m k).
Proof.
  intros Hm Hk s b s2 Hs E.
  destruct (bind_returns m k s b s2 E) as (a & s1 & E1 & E2).
  destruct (Hm s a s1 Hs E1) as [A1 C1].
  pose proof (advances_in_buffer s s1 Hs A1) as Hs1.
  destruct (Hk a s1 b s2 Hs1 E2) as [A2 C2].
  split; [exact (advances_trans _ _ _ A1 A2)|].
  intros more. unfold bind. rewrite C1. apply C2.
Qed.

Lemma hungry_bind {A B} (m : M S A) (k : A -> M S B) :
  hungry m -> hungry (bind m k).
Proof.
  intros Hm s Hs He. specialize (Hm s Hs He). unfold bind.
  destruct (m s) as [[a|] s1]; [discriminate|reflexivity].
Qed.

Lemma hungry_after {A B} (m : M S A) (k : A -> M S B) :
  stable m -> (forall a, hungry (k a)) -> hungry (bind m k).
Proof.
  intros Hm Hk s Hs He. unfold bind.
  destruct (m s) as [[a|] s1] eqn:E; [|reflexivity].
  destruct (Hm s a s1 Hs E) as [A1 _].
  apply Hk; [exact (advances_in_buffer s s1 Hs A1)|].
  exact (advances_at_end _ _ He A1).
Qed.

(** After a step that may have come to the end, a continuation that
    raises at the end keeps the whole exact. *)
Lemma strict_after {A B} (m : M S A) (k : A -> M S B) :
  stable m -> (forall a, strict (k a)) -> (forall a, hungry (k a)) ->
  strict (bind m k).
Proof.
  intros Hm Hk Hh s b s2 Hs E.
  destruct (bind_returns m k s b s2 E) as (a & s1 & E1 & E2).
  destruct (Hm s a s1 Hs E1) as [A1 C1].
  pose proof (advances_in_buffer s s1 Hs A1) as Hs1.
  destruct (Hk a s1 b s2 Hs1 E2) as [A2 C2].
  split; [exact (advances_trans _ _ _ A1 A2)|].
  destruct C1 as [C1|C1].
  - intros more. unfold bind. rewrite C1. apply C2.
  - pose proof (Hh a s1 Hs1 C1) as Hn. rewrite E2 in Hn. discriminate Hn.
Qed.

Lemma stable_for_range {A} (n : nat) (m : M S A) :
  stable m -> stable (for_range n m).
Proof.
  intros Hm. induction n as [|n IH]; cbn [for_range].
  - apply strict_stable, strict_ret.
  - apply stable_bind; [exact Hm|]. intros x.
    apply stable_bind; [exact IH|]. intros xs. apply strict_stable, strict_ret.
Qed.

Lemma strict_for_range {A} (n : nat) (m : M S A) :
  strict m -> strict (for_range n m).
Proof.
  intros Hm. induction n as [|n IH]; cbn [for_range].
  - apply strict_ret.
  - apply strict_bind; [exact Hm|]. intros x.
    apply strict_bind; [exact IH|]. intros xs. apply strict_ret.
Qed.

Lemma stable_for_index {A} (n : nat) (body : Z -> M S A) :
  (forall i, stable (body i)) -> forall i, stable (for_index i n body).
Proof.
  intros Hm. induction n as [|n IH]; intros i; cbn [for_index].
  - apply strict_stable, strict_ret.
  - apply stable_bind; [apply Hm|]. intros x.
    apply stable_bind; [apply IH|]. intros xs. apply strict_stable, strict_ret.
Qed.

End ReadLaws.

(** ** The reads of the USF parser *)

Local Abbreviation rstable := (Stable same_reader extend).
Local Abbreviation rstrict := (Strict same_reader extend).
Local Abbreviation rhungry := (Hungry same_reader).

Lemma slice_extend (l more : bytes) (i j : Z) :
  0 <= i -> i <= j -> j <= len l -> slice (l ++ more) i j = slice l i j.
Proof.
  unfold slice, len. intros Hi Hij Hj.
  rewrite skipn_app, firstn_app.
  replace (Z.to_nat i - Datatypes.length l)%nat with 0%nat by lia.
  cbn [skipn]. rewrite length_skipn.
  replace (Z.to_nat (j - i) - (Datatypes.length l - Z.to_nat i))%nat
    with 0%nat by lia.
  cbn [firstn]. apply app_nil_r.
Qed.

Lemma len_app {A} (l1 l2 : list A) : len (l1 ++ l2) = len l1 + len l2.
Proof. unfold len. rewrite length_app. lia. Qed.

(** [read] in full: the bytes are the same with more bytes behind. *)
Lemma read_extend (n : Z) (r : BytesIO) (more : bytes) :
  0 <= n -> 0 <= pos r -> pos r + n <= len (buf r) ->
  read n (extend more r)
  = (Some (slice (buf r) (pos r) (pos r + n)),
     extend more {| buf := buf r; pos := pos r + n |}).
Proof.
  intros Hn Hp Hfit.
  rewrite read_exact; cbn [extend buf pos]; try lia.
  - rewrite slice_extend by lia. reflexivity.
  - rewrite len_app. pose proof (len_nonneg more). lia.
Qed.

Lemma read_cases (n : Z) (r : BytesIO) :
  0 <= pos r <= len (buf r) ->
  (0 <= n /\ pos r + n <= len (buf r)
   /\ read n r = (Some (slice (buf r) (pos r) (pos r + n)),
                  {| buf := buf r; pos := pos r + n |}))
  \/ ((n < 0 \/ len (buf r) < pos r + n)
      /\ read n r = (Some (slice (buf r) (pos r) (len (buf r))),
                     {| buf := buf r; pos := len (buf r) |})).
Proof.
  intros Hr. unfold read.
  destruct (n <? 0) eqn:E.
  - apply Z.ltb_lt in E. right. split; [lia|].
    replace (pos r + (len (buf r) - pos r)) with (len (buf r)) by lia.
    reflexivity.
  - apply Z.ltb_ge in E.
    destruct (Z_le_gt_dec (pos r + n) (len (buf r))) as [H|H].
    + left. rewrite Z.min_l by lia. auto.
    + right. split; [lia|]. rewrite Z.min_r by lia.
      replace (pos r + (len (buf r) - pos r)) with (len (buf r)) by lia.
      reflexivity.
Qed.

Lemma stable_read (n : Z) : rstable (read n).
Proof.
  intros r d r' Hr E. unfold in_buffer, same_reader in Hr.
  destruct (read_cases n r Hr) as [(Hn & Hfit & R)|(Hc & R)];
    rewrite R in E; inversion E; subst; clear E.
  - split.
    + unfold advances, same_reader. cbn [buf pos]. split; [reflexivity|lia].
    + left. intros more. apply read_extend; lia.
  - split.
    + unfold advances, same_reader. cbn [buf pos]. split; [reflexivity|lia].
    + right. reflexivity.
Qed.

Lemma strict_read_k {A} (n : Z) (k : bytes -> M BytesIO A) :
  wants n k -> (forall d, rstrict (k d)) -> rstrict (bind (read n) k).
Proof.
  intros Hw Hk r a r2 Hr E.
  destruct (bind_returns _ (read n) k r a r2 E) as (d & r1 & E1 & E2).
  assert (Hlen : len d = n).
  { destruct (Z.eq_dec (len d) n) as [H|H]; [exact H|].
    pose proof (Hw d r1 H) as Hn. rewrite E2 in Hn. discriminate Hn. }
  pose proof Hr as Hr'. unfold in_buffer, same_reader in Hr'.
  destruct (read_cases n r Hr') as [(Hn & Hfit & R)|(Hc & R)];
    rewrite R in E1; inversion E1; subst d r1; clear E1.
  - assert (A1 : advances same_reader r {| buf := buf r; pos := pos r + n |}).
    { unfold advances, same_reader. cbn [buf pos]. split; [reflexivity|lia]. }
    pose proof (advances_in_buffer _ same_reader _ _ Hr A1) as Hr1.
    destruct (Hk _ _ a r2 Hr1 E2) as [A2 C2].
    split; [exact (advances_trans _ same_reader _ _ _ A1 A2)|].
    intros more. unfold bind. rewrite read_extend by lia. apply C2.
  - exfalso. rewrite len_slice in Hlen by lia. lia.
Qed.

Lemma hungry_read_k {A} (n : Z) (k : bytes -> M BytesIO A) :
  n <> 0 -> wants n k -> rhungry (bind (read n) k).
Proof.
  intros Hn Hw r Hr He. unfold in_buffer, at_end, same_reader in *.
  unfold bind.
  destruct (read n r) as [[d|] r1] eqn:E; [|reflexivity].
  apply Hw.
  assert (len d = 0); [|lia].
  destruct (read_cases n r Hr) as [(H0 & Hfit & R)|(Hc & R)];
    rewrite R in E; inversion E; subst; rewrite len_slice; lia.
Qed.

Lemma wants_unpack_uint (size : Z) (f : Z -> Z) :
  wants size (fun d => lift (option_map f (unpack_uint size d))).
Proof.
  intros d r H. unfold lift, unpack_uint. cbn [fst].
  replace (len d =? size) with false by (symmetry; apply Z.eqb_neq; exact H).
  reflexivity.
Qed.

Lemma wants_unpack (size : Z) :
  wants size (fun d => lift (unpack_uint size d)).
Proof.
  intros d r H. unfold lift, unpack_uint. cbn [fst].
  replace (len d =? size) with false by (symmetry; apply Z.eqb_neq; exact H).
  reflexivity.
Qed.

Lemma strict_read_B : rstrict read_B.
Proof.
  apply strict_read_k; [apply wants_unpack|intros; apply strict_lift].
Qed.

Lemma hungry_read_B : rhungry read_B.
Proof. apply hungry_read_k; [lia|apply wants_unpack]. Qed.

Lemma strict_read_I : rstrict read_I.
Proof.
  apply strict_read_k; [apply wants_unpack|intros; apply strict_lift].
Qed.

Lemma hungry_read_I : rhungry read_I.
Proof. apply hungry_read_k; [lia|apply wants_unpack]. Qed.

Lemma strict_read_i : rstrict read_i.
Proof.
  apply strict_read_k; [apply wants_unpack_uint|intros; apply strict_lift].
Qed.

Lemma hungry_read_i : rhungry read_i.
Proof. apply hungry_read_k; [lia|apply wants_unpack_uint]. Qed.

Lemma wants_words {A} (n : Z) (f : list Z -> A) :
  wants (4 * n) (fun d => ws <- lift (unpack_words n d) ;; ret (f ws)).
Proof.
  intros d r H. unfold bind, lift, unpack_words.
  replace (len d =? 4 * n) with false by (symmetry; apply Z.eqb_neq; exact H).
  rewrite orb_true_r. reflexivity.
Qed.

Lemma strict_words {A} (n : Z) (f : list Z -> A) :
  rstrict (d <- read (4 * n) ;; ws <- lift (unpack_words n d) ;; ret (f ws)).
Proof.
  apply strict_read_k; [apply wants_words|].
  intros d. apply strict_bind; [apply strict_lift|intros; apply strict_ret].
Qed.

Lemma strict_read_floats (n : Z) : rstrict (read_floats n).
Proof. apply strict_words. Qed.

Lemma strict_read_ints (n : Z) : rstrict (read_ints n).
Proof. apply strict_words. Qed.

Lemma hungry_read_floats (n : Z) : n <> 0 -> rhungry (read_floats n).
Proof. intros H. apply hungry_read_k; [lia|apply wants_words]. Qed.

Create HintDb reads.

#[local] Hint Resolve strict_read_B strict_read_I strict_read_i
  strict_read_floats strict_read_ints hungry_read_B hungry_read_I
  hungry_read_i : reads.

Lemma strict_read_counted {A} (item : M BytesIO A) :
  rstrict item -> rstrict (USFParser.read_counted item).
Proof.
  intros H. unfold USFParser.read_counted.
  apply strict_bind; [apply strict_read_i|].
  intros n. apply strict_for_range. exact H.
Qed.

Lemma stable_read_counted {A} (item : M BytesIO A) :
  rstable item -> rstable (USFParser.read_counted item).
Proof.
  intros H. unfold USFParser.read_counted.
  apply stable_bind; [apply strict_stable, strict_read_i|].
  intros n. apply stable_for_range. exact H.
Qed.

(** The shape of a computation decides which law applies. *)
Ltac rd_strict :=
  lazymatch goal with
  | |- Strict _ _ (bind _ _) =>
    apply strict_bind; [rd_strict | intros; rd_strict]
  | |- Strict _ _ (ret _) => apply strict_ret
  | |- Strict _ _ raise => apply strict_raise
  | |- Strict _ _ (lift _) => apply strict_lift
  | |- Strict _ _ (for_range _ _) => apply strict_for_range; rd_strict
  | |- Strict _ _ (USFParser.read_counted _) =>
    apply strict_read_counted; rd_strict
  | |- Strict _ _ (if ?c then _ else _) => destruct c; rd_strict
  | |- _ => solve [auto with reads]
  end.

Ltac rd_stable :=
  lazymatch goal with
  | |- Stable _ _ (bind _ _) =>
    apply stable_bind; [rd_stable | intros; rd_stable]
  | |- Stable _ _ (ret _) => apply strict_stable, strict_ret
  | |- Stable _ _ (read _) => apply stable_read
  | |- Stable _ _ (for_range _ _) => apply stable_for_range; rd_stable
  | |- Stable _ _ (USFParser.read_counted _) =>
    apply stable_read_counted; rd_stable
  | |- Stable _ _ (for_index _ _ _) =>
    apply stable_for_index; intros; rd_stable
  | |- Stable _ _ (if ?c then _ else _) => destruct c; rd_stable
  | |- _ => first [ solve [auto with reads]
                  | apply strict_stable; rd_strict ]
  end.

Lemma strict_read_fff : rstrict read_fff.
Proof.
  unfold read_fff. apply strict_bind; [apply strict_read_floats|].
  intros [|x [|y [|z [|w l]]]]; rd_strict.
Qed.

Lemma strict_read_ff : rstrict read_ff.
Proof.
  unfold read_ff. apply strict_bind; [apply strict_read_floats|].
  intros [|x [|y [|z l]]]; rd_strict.
Qed.

Lemma strict_read_ffff : rstrict read_ffff.
Proof.
  unfold read_ffff. apply strict_bind; [apply strict_read_floats|].
  intros [|x [|y [|z [|w [|v l]]]]]; rd_strict.
Qed.

Lemma hungry_read_ffff : rhungry read_ffff.
Proof. apply hungry_bind, hungry_read_floats. lia. Qed.

#[local] Hint Resolve strict_read_fff strict_read_ff strict_read_ffff : reads.

Lemma strict_Matrix4_read : rstrict Matrix4_read.
Proof. unfold Matrix4_read. rd_strict. Qed.

Lemma hungry_Matrix4_read : rhungry Matrix4_read.
Proof.
  unfold Matrix4_read. apply hungry_bind. cbn [for_range].
  apply hungry_bind, hungry_read_ffff.
Qed.

Lemma stable_read_string : rstable read_string.
Proof. unfold read_string. rd_stable. Qed.

Lemma hungry_read_string : rhungry read_string.
Proof. apply hungry_bind, hungry_read_i. Qed.

#[local] Hint Resolve strict_Matrix4_read stable_read_string
  hungry_read_string hungry_Matrix4_read : reads.

Lemma strict_read_color : rstrict USFParser.read_color.
Proof. unfold USFParser.read_color. cbv zeta. rd_strict. Qed.

Lemma stable_read_material : rstable USFParser.read_material.
Proof. unfold USFParser.read_material. rd_stable. Qed.

Lemma strict_read_skin (n : Z) : rstrict (USFParser.read_skin n).
Proof. unfold USFParser.read_skin. rd_strict. Qed.

Lemma strict_read_bone : rstrict USFParser.read_bone.
Proof. unfold USFParser.read_bone. rd_strict. Qed.

#[local] Hint Resolve strict_read_color stable_read_material
  strict_read_skin strict_read_bone : reads.

Lemma stable_parse_mesh : rstable USFParser._parse_mesh.
Proof. unfold USFParser._parse_mesh. rd_stable. Qed.

Lemma strict_flagged_skip : rstrict USFParser.flagged_skip.
Proof. unfold USFParser.flagged_skip, USFParser._skip. rd_strict. Qed.

Lemma hungry_flagged_skip : rhungry USFParser.flagged_skip.
Proof. apply hungry_bind, hungry_read_B. Qed.

Lemma strict_gated_skip (version v : Z) :
  rstrict (USFParser.gated_skip version v).
Proof.
  unfold USFParser.gated_skip.
  destruct (version >=? v); [apply strict_flagged_skip|apply strict_ret].
Qed.

#[local] Hint Resolve stable_parse_mesh strict_flagged_skip
  hungry_flagged_skip strict_gated_skip : reads.

Section Tight.

Variable S : Type.
Variable reader_of : S -> BytesIO.
Variable extended : bytes -> S -> S.

(** Exact, and raising at the end of the buffer. *)
Lemma tight_after {A B} (m : M S A) (k : A -> M S B) :
  Stable reader_of extended m ->
  (forall a, Strict reader_of extended (k a) /\ Hungry reader_of (k a)) ->
  Strict reader_of extended (bind m k) /\ Hungry reader_of (bind m k).
Proof.
  intros Hm Hk. split.
  - apply strict_after; [exact Hm| |]; intros a; apply Hk.
  - apply hungry_after with (extended := extended); [exact Hm|].
    intros a; apply Hk.
Qed.

Lemma tight_first {A B} (m : M S A) (k : A -> M S B) :
  Strict reader_of extended m -> Hungry reader_of m ->
  (forall a, Strict reader_of extended (k a)) ->
  Strict reader_of extended (bind m k) /\ Hungry reader_of (bind m k).
Proof.
  intros Hm Hh Hk. split.
  - apply strict_bind; assumption.
  - apply hungry_bind. exact Hh.
Qed.

End Tight.

(** The node parser gets every byte it asks for, or raises. *)
Lemma tight_parse_node (depth : nat) :
  rstrict (USFParser._parse_node depth) /\ rhungry (USFParser._parse_node depth).
Proof.
  induction depth as [|depth [IHs IHh]]; cbn [USFParser._parse_node].
  - split; [apply strict_raise|apply hungry_raise].
  - do 26 (apply tight_after; [rd_stable|intros]).
    apply tight_first; [apply strict_read_i|apply hungry_read_i|].
    intros child_count. rd_strict.
Qed.

(** ** The parser object and its reader *)

Local Abbreviation pstable := (Stable reader_of_parse extended_parse).
Local Abbreviation pstrict := (Strict reader_of_parse extended_parse).
Local Abbreviation phungry := (Hungry reader_of_parse).

Lemma on_reader_returns {A} (m : M BytesIO A) (s : USFParser.t * BytesIO) :
  USFParser.on_reader m s = (fst (m (snd s)), (fst s, snd (m (snd s)))).
Proof. unfold USFParser.on_reader. destruct (m (snd s)). reflexivity. Qed.

Lemma stable_on_reader {A} (m : M BytesIO A) :
  rstable m -> pstable (USFParser.on_reader m).
Proof.
  intros Hm [self r] a [self' r'] Hs E. rewrite on_reader_returns in E.
  cbn [fst snd] in E.
  destruct (m r) as [o r1] eqn:Er. cbn [fst snd] in E.
  inversion E. subst o self' r1. clear E.
  destruct (Hm r a r' Hs Er) as [A1 C1].
  split; [exact A1|].
  destruct C1 as [C1|C1]; [left|right; exact C1].
  intros more. rewrite on_reader_returns. unfold extended_parse.
  cbn [fst snd]. rewrite C1. reflexivity.
Qed.

Lemma strict_on_reader {A} (m : M BytesIO A) :
  rstrict m -> pstrict (USFParser.on_reader m).
Proof.
  intros Hm [self r] a [self' r'] Hs E. rewrite on_reader_returns in E.
  cbn [fst snd] in E.
  destruct (m r) as [o r1] eqn:Er. cbn [fst snd] in E.
  inversion E. subst o self' r1. clear E.
  destruct (Hm r a r' Hs Er) as [A1 C1].
  split; [exact A1|].
  intros more. rewrite on_reader_returns. unfold extended_parse.
  cbn [fst snd]. rewrite C1. reflexivity.
Qed.

Lemma hungry_on_reader {A} (m : M BytesIO A) :
  rhungry m -> phungry (USFParser.on_reader m).
Proof.
  intros Hm [self r] Hs He. rewrite on_reader_returns. cbn [fst snd].
  exact (Hm r Hs He).
Qed.

Lemma strict_update (f : USFParser.t -> USFParser.t) :
  pstrict (USFParser.update f).
Proof.
  intros [self r] a [self' r'] Hs E.
  unfold USFParser.update, modify in E. cbn [fst snd] in E.
  inversion E. subst.
  split; [|reflexivity].
  unfold advances, in_buffer, reader_of_parse in *. cbn [snd] in *.
  split; [reflexivity|lia].
Qed.

(** The body of [_parse] gets every byte it asks for, or raises. *)
Lemma strict_parse_body (depth : nat) : pstrict (USFParser._parse_body depth).
Proof.
  destruct (tight_parse_node depth) as [Hs Hh].
  unfold USFParser._parse_body.
  assert (Hu : forall f, pstable (USFParser.update f))
    by (intros f; apply strict_stable, strict_update).
  assert (Hi : pstable (USFParser.on_reader read_i))
    by (apply stable_on_reader, strict_stable, strict_read_i).
  assert (Hstr : pstable (USFParser.on_reader read_string))
    by (apply stable_on_reader, stable_read_string).
  refine (proj1 _).
  apply tight_after; [exact Hi|intros v].
  apply tight_after; [apply Hu|intros _].
  apply tight_after; [exact Hstr|intros sp].
  apply tight_after; [apply Hu|intros _].
  apply tight_after; [exact Hstr|intros ft].
  apply tight_after; [apply Hu|intros _].
  apply tight_after; [exact Hstr|intros options_str].
  apply tight_first;
    [apply strict_on_reader, strict_read_I
    |apply hungry_on_reader, hungry_read_I|].
  intros scene_version.
  apply strict_bind; [apply strict_on_reader, strict_read_B|].
  intros has_root. destruct (has_root =? 0); [apply strict_ret|].
  apply strict_bind; [apply strict_on_reader; exact Hs|].
  intros node. apply strict_update.
Qed.

(** A parse that succeeds read inside the buffer only: bytes appended
    to the buffer change neither the result nor the cursor. *)
Lemma parse_body_extend (depth : nat) (self : USFParser.t) (content : bytes)
      (parsed : USFParser.t) (reader : BytesIO) :
  USFParser._parse_body depth (self, BytesIO_new content)
  = (Some tt, (parsed, reader)) ->
  pos reader <= len content
  /\ forall more,
      USFParser._parse_body depth (self, BytesIO_new (content ++ more))
      = (Some tt, (parsed, extend more reader)).
Proof.
  intros E.
  assert (Hs : in_buffer reader_of_parse (self, BytesIO_new content)).
  { unfold in_buffer, reader_of_parse. cbn. pose proof (len_nonneg content). lia. }
  destruct (strict_parse_body depth _ _ _ Hs E) as [[_ A] C].
  split; [exact (proj2 A)|].
  intros more. exact (C more).
Qed.

(** Cut short of the last byte that a successful parse reads, the
    buffer makes the parse fail. *)
Lemma parse_truncated (depth : nat) (self : USFParser.t)
      (content more : bytes) (parsed : USFParser.t) (reader : BytesIO) :
  USFParser._parse_body depth (self, BytesIO_new (content ++ more))
  = (Some tt, (parsed, reader)) ->
  len content < pos reader ->
  fst (USFParser._parse depth self (BytesIO_new content)) = false.
Proof.
  intros E Hlt. unfold USFParser._parse.
  destruct (USFParser._parse_body depth (self, BytesIO_new content))
    as [[[]|] [s1 r1]] eqn:E1; [|reflexivity].
  exfalso.
  destruct (parse_body_extend depth self content s1 r1 E1) as [Hp C].
  rewrite (C more) in E. inversion E. subst reader. cbn [extend pos] in Hlt.
  lia.
Qed.

(** A file shorter than the header. *)
Lemma short_header (content : bytes) :
  len content < 4 ->
  header_is_1ser content = false /\ header_version content = None.
Proof.
  intros Hl. split.
  - unfold header_is_1ser.
    destruct (starts_with (blit "1SER") content) eqn:E; [|reflexivity].
    apply starts_with_len in E. change (len (blit "1SER")) with 4 in E. lia.
  - unfold header_version, unpack_i, unpack_uint.
    destruct (len (firstn 4 (firstn 8 content)) =? 4) eqn:E4; [|reflexivity].
    apply Z.eqb_eq in E4. unfold len in *. rewrite !length_firstn in E4. lia.
Qed.

(** C4.  A USF parse that ends in success has read inside the buffer
    only: bytes appended to the buffer change nothing, and the buffer cut
    short of the last byte read makes the parse fail.  When the USF
    parse of a file's content fails, the parser reports failure and
    holds no tree, and with both parsers failing [load_tpl] hands no
    tree to its caller: on a file of four bytes or more it returns no
    root with a format tag; on a shorter file it raises, since the
    header is unpacked outside every [try]. *)
Theorem usf_failure_returns_no_tree (isalpha : Z -> bool) (depth : nat)
        (fs : filesystem) (filepath : string) (content : bytes) :
  read_file fs filepath = Some content ->
  (forall more parsed reader,
      USFParser._parse_body depth
        (USFParser.__init__, BytesIO_new (content ++ more))
      = (Some tt, (parsed, reader)) ->
      len content < pos reader ->
      fst (USFParser._parse depth USFParser.__init__ (BytesIO_new content))
      = false)
  /\ (forall self',
         USFParser._parse depth USFParser.__init__ (BytesIO_new content)
         = (true, self') ->
         forall more,
           USFParser._parse depth USFParser.__init__
                            (BytesIO_new (content ++ more)) = (true, self'))
  /\ (forall self',
         USFParser._parse depth USFParser.__init__ (BytesIO_new content)
         = (false, self') ->
         USFParser.root self' = None
         /\ USFParser.load fs depth filepath USFParser.__init__
            = (false, self')
         /\ (fst (SERParser.load isalpha fs filepath SERParser.__init__)
             = false ->
             (forall res, load_tpl isalpha depth fs filepath = Some res ->
                          fst res = None)
             /\ (4 <= len content ->
                 exists tag,
                   load_tpl isalpha depth fs filepath = Some (None, tag))
             /\ (len content < 4 ->
                 load_tpl isalpha depth fs filepath = None))).
Proof.
  intros Hr. split; [|split].
  - intros more parsed reader E Hlt.
    exact (parse_truncated depth _ content more parsed reader E Hlt).
  - intros self' E more. unfold USFParser._parse in *.
    destruct (USFParser._parse_body depth
                (USFParser.__init__, BytesIO_new content))
      as [[[]|] [s1 r1]] eqn:E1; [|discriminate E].
    inversion E. subst s1.
    destruct (parse_body_extend depth _ content self' r1 E1) as [_ C].
    rewrite (C more). reflexivity.
  - intros self' Hp.
    assert (Hload : USFParser.load fs depth filepath USFParser.__init__
                    = (false, self')).
    { unfold USFParser.load. rewrite Hr. exact Hp. }
    split; [|split; [exact Hload|]].
    { rewrite (@usf_parse_failure_keeps_root depth _ _ _ Hp). reflexivity. }
    intros Hser.
    assert (Hf : fst (USFParser.load fs depth filepath USFParser.__init__)
                 = false) by (rewrite Hload; reflexivity).
    unfold load_tpl.
    destruct (header_is_1ser content) eqn:Ht.
    + rewrite (@load_tpl_run_tagged isalpha depth fs filepath content Hr Ht).
      rewrite Hser. cbn [fst].
      split; [intros res E; inversion E; reflexivity|].
      split; [eauto|].
      intros Hl. destruct (short_header content Hl) as [H1 _]. congruence.
    + destruct (header_version content) as [v|] eqn:Hv.
      * rewrite (@load_tpl_run_untagged isalpha depth fs filepath content v
                   Hr Ht Hv Hf).
        cbn [fst].
        split; [intros res E; inversion E; reflexivity|].
        split; [eauto|].
        intros Hl. destruct (short_header content Hl) as [_ H2]. congruence.
      * rewrite (@load_tpl_run_short isalpha depth fs filepath content
                   Hr Ht Hv).
        cbn [fst].
        split; [discriminate|].
        split; [|reflexivity].
        intros Hlen. destruct (@header_version_some content Hlen) as [v E].
        congruence.
Qed.

Lemma usf_failure_returns_no_tree_witness :
  (fst (USFParser._parse 1000 USFParser.__init__
                         (BytesIO_new Samples.usf_truncated)) = false
   /\ USFParser.root Samples.usf_truncated_state = None
   /\ USFParser.load (Samples.one_file "model.tpl" Samples.usf_truncated)
                     1000 "model.tpl" USFParser.__init__
      = (false, Samples.usf_truncated_state)
   /\ exists tag,
       load_tpl Samples.ascii_isalpha 1000
                (Samples.one_file "model.tpl" Samples.usf_truncated)
                "model.tpl" = Some (None, tag))
  /\ (USFParser.load (Samples.one_file "model.tpl" []) 1000 "model.tpl"
                     USFParser.__init__ = (false, USFParser.__init__)
      /\ load_tpl Samples.ascii_isalpha 1000
                  (Samples.one_file "model.tpl" []) "model.tpl" = None).
Proof.
  split.
  - destruct (usf_failure_returns_no_tree Samples.ascii_isalpha 1000
                (Samples.one_file "model.tpl" Samples.usf_truncated)
                "model.tpl" Samples.usf_truncated
                ltac:(vm_compute; reflexivity)) as (Hcut & _ & Hfail).
    split.
    { apply (Hcut (skipn 300 Samples.usf_twins)
                  (fst (snd (USFParser._parse_body 1000
                               (USFParser.__init__,
                                BytesIO_new Samples.usf_twins))))
                  (snd (snd (USFParser._parse_body 1000
                               (USFParser.__init__,
                                BytesIO_new Samples.usf_twins)))));
        vm_compute; reflexivity. }
    destruct (Hfail Samples.usf_truncated_state
                    ltac:(vm_compute; reflexivity)) as (Hroot & Hload & Hrest).
    split; [exact Hroot|]. split; [exact Hload|].
    destruct (Hrest ltac:(vm_compute; reflexivity)) as (_ & Hlong & _).
    apply Hlong. vm_compute. discriminate.
  - destruct (usf_failure_returns_no_tree Samples.ascii_isalpha 1000
                (Samples.one_file "model.tpl" []) "model.tpl" []
                ltac:(vm_compute; reflexivity)) as (_ & _ & Hfail).
    destruct (Hfail USFParser.__init__ ltac:(vm_compute; reflexivity))
      as (_ & Hload & Hrest).
    split; [exact Hload|].
    destruct (Hrest ltac:(vm_compute; reflexivity)) as (_ & _ & Hshort).
    apply Hshort. vm_compute. reflexivity.
Defined.
